(** * Dependency extraction: the retry client, the two resolvers and the
      recursive traversal of [src/extractDependencies.ts].

    The asynchronous code is embedded in two layers.

    - The resolvers ([requestWithRetry], [getComponentMetadata],
      [getDependencies]) are coroutines: terms of [Prog], whose nodes are the
      places where the JavaScript function awaits the network or a timer,
      writes to the console or draws a random number.
    - The traversal ([_recursiveHelper] inside
      [findAllDependenciesRecursive]) is a transition system over a shared
      store (the [Map] of nodes, the array of edges, the promises).  One
      transition is one turn of the event loop: a response or a timer wakes
      one suspended call, which then runs without interruption up to its next
      [await]. *)

From Stdlib Require Import String List ZArith QArith Bool Arith Lia Permutation.
Import ListNotations.

Close Scope Q_scope.
Local Open Scope string_scope.
Local Open Scope list_scope.

Set Implicit Arguments.
Set Warnings "-register-all".

(** ** Configuration and constants *)

Definition MAX_RETRIES : nat := 5.
Definition INITIAL_DELAY_MS : Z := 1000.
Definition OUTPUT_FILE : string := "../public/data/graph.json".

(** ** Types for the graph and the API *)

Module ComponentInfo.
Record t := mk { id : string; name : string; type : string; version : option Z }.
End ComponentInfo.

Module Node.
Record t := mk { id : string; name : string; type : string }.
End Node.

Module Edge.
Record t := mk { source : string; target : string }.
End Edge.

Module GraphData.
Record t := mk { nodes : list Node.t; edges : list Edge.t }.
End GraphData.

(** The body of a [/ComponentMetadata/<id>] response.  [version] is optional
    in [ComponentInfo], and the code copies it unchecked. *)
Module Metadata.
Record t := mk { name : string; type : string; version : option Z }.
End Metadata.

(** The body of a [/ComponentReference/query] response:
    [{ result?: { references?: { componentId: string }[] }[] }].
    [Malformed] stands for a body on which the flattening expression throws
    (no [data], or a [result] that is not an array). *)
Module Reference.
Record t := mk { componentId : string }.
End Reference.

Module ReferenceGroup.
Record t := mk { references : option (list Reference.t) }.
End ReferenceGroup.

Inductive QueryData :=
| Malformed
| QueryResult (result : option (list ReferenceGroup.t)).

(** The [queryBody] of [getDependencies]: the two [EQUALS] arguments of its
    fixed filter expression. *)
Module QueryBody.
Record t := mk { parentComponentId : string; parentVersion : option Z }.
End QueryBody.

(** ** Errors *)

Inductive ApiMessage :=
| FailedAfter (attempts : nat) (status : Z)
    (* `API request failed after ${MAX_RETRIES} attempts with status ${status}.` *)
| LoopCompleted.
    (* 'Retry loop completed without success or failure.' *)

(** What a rejected promise carries.  [AxiosError r] is an error for which
    [axios.isAxiosError] holds, [r] being [error.response?.status]. *)
Inductive Err :=
| AxiosError (response : option Z)
| ApiError (message : ApiMessage) (status : option Z) (attempts : option nat)
| TypeError
| OtherError (message : string).

Inductive Outcome (T : Type) :=
| Resolved (v : T)
| Rejected (e : Err).
Arguments Rejected {T} e.

(** [status === 503 || status === 504] *)
Definition retryable (status : Z) : bool := (status =? 503)%Z || (status =? 504)%Z.

(** The test of the [catch] in [requestWithRetry] that leads to a retry. *)
Definition transient (e : Err) : bool :=
  match e with
  | AxiosError (Some status) => retryable status
  | _ => false
  end.

(** A response with status 503 or 504. *)
Definition fails_transiently {T} (o : Outcome T) : Prop :=
  exists status, o = Rejected (AxiosError (Some status)) /\ retryable status = true.

(** The test of the [catch] in [getComponentMetadata]. *)
Definition notFound (e : Err) : bool :=
  match e with
  | AxiosError (Some status) => (status =? 400)%Z || (status =? 404)%Z
  | _ => false
  end.

(** ** Coroutines *)

Inductive Console :=
| RetryWarning (status : Z) (delayMs : Q) (attempt : nat)
| NotFoundWarning (componentId : string)
| DependenciesError (componentId : string) (error : Err).

Section Coroutines.
(** [Rq] describes a request thunk [requestFn], [T] is what it resolves to. *)
Variables Rq T : Type.

Inductive Prog (R : Type) : Type :=
| Ret (v : R)
| Throw (e : Err)
| Call (requestFn : Rq) (k : Outcome T -> Prog R)   (* await requestFn() *)
| Sleep (ms : Q) (k : Prog R)                       (* await delay(ms) *)
| Print (line : Console) (k : Prog R)               (* console.warn / console.error *)
| Random (k : Q -> Prog R).                         (* Math.random() *)
Arguments Throw {R} e.

Fixpoint bind {A B} (p : Prog A) (f : A -> Prog B) : Prog B :=
  match p with
  | Ret v => f v
  | Throw e => Throw e
  | Call rq k => Call rq (fun o => bind (k o) f)
  | Sleep ms k => Sleep ms (bind k f)
  | Print l k => Print l (bind k f)
  | Random k => Random (fun r => bind (k r) f)
  end.

(** [try { p } catch (error) { handler error }] *)
Fixpoint try_catch {A} (p : Prog A) (handler : Err -> Prog A) : Prog A :=
  match p with
  | Ret v => Ret v
  | Throw e => handler e
  | Call rq k => Call rq (fun o => try_catch (k o) handler)
  | Sleep ms k => Sleep ms (try_catch k handler)
  | Print l k => Print l (try_catch k handler)
  | Random k => Random (fun r => try_catch (k r) handler)
  end.

(** [INITIAL_DELAY_MS * Math.pow(2, attempt - 1) + Math.random() * 1000] *)
Definition backoff (attempt : nat) (random : Q) : Q :=
  (inject_Z (INITIAL_DELAY_MS * 2 ^ Z.of_nat (attempt - 1)) + random * 1000)%Q.

(** The [for] loop of [requestWithRetry], entered with [attempt] and with
    [remaining = MAX_RETRIES + 1 - attempt] iterations before the loop
    condition fails. *)
Fixpoint retryLoop (requestFn : Rq) (remaining attempt : nat) : Prog T :=
  match remaining with
  | O => Throw (ApiError LoopCompleted None (Some MAX_RETRIES))
  | S remaining' =>
      Call requestFn (fun o =>
        match o with
        | Resolved v => Ret v
        | Rejected error =>
            match error with
            | AxiosError (Some status) =>
                if retryable status then
                  if (attempt =? MAX_RETRIES)%nat then
                    Throw (ApiError (FailedAfter MAX_RETRIES status) (Some status) (Some attempt))
                  else
                    Random (fun r =>
                      let delayMs := backoff attempt r in
                      Print (RetryWarning status delayMs attempt)
                        (Sleep delayMs (retryLoop requestFn remaining' (S attempt))))
                else Throw error
            | _ => Throw error
            end
        end)
  end.

Definition requestWithRetry (requestFn : Rq) : Prog T :=
  retryLoop requestFn MAX_RETRIES 1.
End Coroutines.

Arguments Ret {Rq T R} v.
Arguments Throw {Rq T R} e.
Arguments Call {Rq T R} requestFn k.
Arguments Sleep {Rq T R} ms k.
Arguments Print {Rq T R} line k.
Arguments Random {Rq T R} k.
Arguments bind {Rq T A B} p f.
Arguments try_catch {Rq T A} p handler.
Arguments retryLoop {Rq T} requestFn remaining attempt.
Arguments requestWithRetry {Rq T} requestFn.

(** ** The resolvers *)

Definition getComponentMetadata (componentId : string)
  : Prog string Metadata.t (option ComponentInfo.t) :=
  try_catch
    (bind (requestWithRetry componentId) (fun data =>
       Ret (Some (ComponentInfo.mk componentId (Metadata.name data)
                    (Metadata.type data) (Metadata.version data)))))
    (fun error =>
       if notFound error then Print (NotFoundWarning componentId) (Ret None)
       else Throw error).

(** [r.references?.map(ref => ref.componentId) || []] *)
Definition groupIds (r : ReferenceGroup.t) : list string :=
  match ReferenceGroup.references r with
  | Some refs => map Reference.componentId refs
  | None => []
  end.

(** [response.data.result?.flatMap(...) || []]; [None] when it throws. *)
Definition flatten (data : QueryData) : option (list string) :=
  match data with
  | Malformed => None
  | QueryResult (Some result) => Some (flat_map groupIds result)
  | QueryResult None => Some []
  end.

Definition getDependencies (componentId : string) (version : option Z)
  : Prog QueryBody.t QueryData (list string) :=
  let queryBody := QueryBody.mk componentId version in
  try_catch
    (bind (requestWithRetry queryBody) (fun data =>
       match flatten data with
       | Some ids => Ret ids
       | None => Throw TypeError
       end))
    (fun error => Print (DependenciesError componentId error) (Ret [])).

(** ** Running a coroutine

    The environment of a coroutine answers its requests and supplies its
    random numbers; [W] is the state of that environment. *)

Inductive Ev (Rq T : Type) :=
| Sent (requestFn : Rq)
| Received (requestFn : Rq) (o : Outcome T)
| Printed (line : Console)
| Slept (ms : Q).
Arguments Sent {Rq T} requestFn.
Arguments Received {Rq T} requestFn o.
Arguments Printed {Rq T} line.
Arguments Slept {Rq T} ms.

(** A coroutine brought to its next [await] on the outside world, or to its
    end. *)
Inductive Paused (Rq T R : Type) :=
| Done (o : Outcome R)
| Waiting (p : Prog Rq T R).
Arguments Done {Rq T R} o.
Arguments Waiting {Rq T R} p.

Section Running.
Variables (W Rq T : Type).
Variable respond : Rq -> W -> Outcome T * W.
Variable random : W -> Q * W.

(** A coroutine run alone, from its call to the settlement of its promise. *)
Fixpoint run {R} (p : Prog Rq T R) (w : W) : Outcome R * W * list (Ev Rq T) :=
  match p with
  | Ret v => (Resolved v, w, [])
  | Throw e => (Rejected e, w, [])
  | Call rq k =>
      let (o, w') := respond rq w in
      let '(r, w'', tr) := run (k o) w' in
      (r, w'', Sent rq :: Received rq o :: tr)
  | Sleep ms k =>
      let '(r, w', tr) := run k w in (r, w', Slept ms :: tr)
  | Print l k =>
      let '(r, w', tr) := run k w in (r, w', Printed l :: tr)
  | Random k =>
      let (x, w') := random w in run (k x) w'
  end.

(** The synchronous part of a coroutine: up to the next request (which is
    sent), the next timer (which is armed) or the end. *)
Fixpoint advance {R} (p : Prog Rq T R) (w : W) : Paused Rq T R * W * list (Ev Rq T) :=
  match p with
  | Ret v => (Done (Resolved v), w, [])
  | Throw e => (Done (Rejected e), w, [])
  | Call rq _ => (Waiting p, w, [Sent rq])
  | Sleep _ _ => (Waiting p, w, [])
  | Print l k =>
      let '(r, w', tr) := advance k w in (r, w', Printed l :: tr)
  | Random k =>
      let (x, w') := random w in advance (k x) w'
  end.

(** The response arrives, or the timer fires. *)
Definition wake {R} (p : Prog Rq T R) (w : W) : option (Prog Rq T R * W * list (Ev Rq T)) :=
  match p with
  | Call rq k => let (o, w') := respond rq w in Some (k o, w', [Received rq o])
  | Sleep ms k => Some (k, w, [Slept ms])
  | _ => None
  end.

Definition resume {R} (p : Prog Rq T R) (w : W) : option (Paused Rq T R * W * list (Ev Rq T)) :=
  match wake p w with
  | Some (p', w', tr) =>
      let '(r, w'', tr') := advance p' w' in Some (r, w'', tr ++ tr')
  | None => None
  end.
End Running.

Definition attempts {Rq T} (tr : list (Ev Rq T)) : nat :=
  length (filter (fun ev => match ev with Sent _ => true | _ => false end) tr).

Definition delays {Rq T} (tr : list (Ev Rq T)) : list Q :=
  flat_map (fun ev => match ev with Slept ms => [ms] | _ => [] end) tr.

(** An operation given by what each of its successive calls does. *)
Module Script.
Record t (T : Type) := mk { reply : nat -> Outcome T; jitter : nat -> Q }.
Arguments reply {T} _ _.
Arguments jitter {T} _ _.

Section Script.
Variables (Rq T : Type) (s : t T).
Definition respond (_ : Rq) (w : nat * nat) : Outcome T * (nat * nat) :=
  (reply s (fst w), (S (fst w), snd w)).
Definition random (w : nat * nat) : Q * (nat * nat) :=
  (jitter s (snd w), (fst w, S (snd w))).
Definition exec {R} (p : Prog Rq T R) : Outcome R * list (Ev Rq T) :=
  let '(r, _, tr) := run respond random p (0, 0)%nat in (r, tr).
End Script.
End Script.

(** ** The JavaScript [Map] of nodes: keys in insertion order *)

Definition map_has {V} (k : string) (m : list (string * V)) : bool :=
  existsb (fun kv => String.eqb k (fst kv)) m.

Fixpoint map_set {V} (k : string) (v : V) (m : list (string * V)) : list (string * V) :=
  match m with
  | [] => [(k, v)]
  | (k', v') :: m' => if String.eqb k k' then (k, v) :: m' else (k', v') :: map_set k v m'
  end.

Definition map_keys {V} (m : list (string * V)) : list string := map fst m.
Definition map_values {V} (m : list (string * V)) : list V := map snd m.

(** ** The traversal *)

Inductive Event :=
| MetadataEvent (ev : Ev string Metadata.t)
| ReferenceEvent (ev : Ev QueryBody.t QueryData).

(** Where a suspended call of [_recursiveHelper] stands. *)
Inductive Visit :=
| AwaitMetadata (componentId : string)
    (c : Paused string Metadata.t (option ComponentInfo.t))
| AwaitDependencies (componentId : string)
    (c : Paused QueryBody.t QueryData (list string))
| AwaitAll (componentId : string) (discoveryPromises : list nat).

Record Task := mkTask { promise : nat; visit : Visit }.

Section Traversal.
Variable W : Type.
Variable get : string -> W -> Outcome Metadata.t * W.
Variable post : QueryBody.t -> W -> Outcome QueryData * W.
Variable random : W -> Q * W.

Record State := mkState {
  world : W;
  nodesMap : list (string * Node.t);
  edges : list Edge.t;
  tasks : list Task;
  settled : list (nat * Outcome unit);   (* in order of settlement *)
  fresh : nat;                           (* the next promise *)
  trace : list Event }.

Definition promise_state (st : State) (p : nat) : option (Outcome unit) :=
  option_map snd (find (fun s => Nat.eqb (fst s) p) (settled st)).

Definition fulfilled (st : State) (p : nat) : bool :=
  match promise_state st p with Some (Resolved _) => true | _ => false end.

Definition settle (p : nat) (o : Outcome unit) (st : State) : State :=
  mkState (world st) (nodesMap st) (edges st) (tasks st)
          (settled st ++ [(p, o)]) (fresh st) (trace st).

Definition suspend (t : Task) (st : State) : State :=
  mkState (world st) (nodesMap st) (edges st) (tasks st ++ [t])
          (settled st) (fresh st) (trace st).

Definition observe (w : W) (evs : list Event) (st : State) : State :=
  mkState w (nodesMap st) (edges st) (tasks st)
          (settled st) (fresh st) (trace st ++ evs).

(** A call [_recursiveHelper(componentId)], up to its first [await]; the
    promise it returns is the second component. *)
Definition _recursiveHelper (componentId : string) (st : State) : State * nat :=
  let p := fresh st in
  let st := mkState (world st) (nodesMap st) (edges st) (tasks st)
                    (settled st) (S p) (trace st) in
  if map_has componentId (nodesMap st) then (settle p (Resolved tt) st, p)
  else
    let '(c, w, evs) := advance random (getComponentMetadata componentId) (world st) in
    (suspend (mkTask p (AwaitMetadata componentId c))
             (observe w (map MetadataEvent evs) st), p).

(** [dependencyIds.map(depId => { edges.push(...); return _recursiveHelper(depId); })] *)
Fixpoint discover (componentId : string) (dependencyIds : list string) (st : State)
  : State * list nat :=
  match dependencyIds with
  | [] => (st, [])
  | depId :: rest =>
      let st := mkState (world st) (nodesMap st)
                        (edges st ++ [Edge.mk componentId depId])
                        (tasks st) (settled st) (fresh st) (trace st) in
      let (st, p) := _recursiveHelper depId st in
      let (st, ps) := discover componentId rest st in
      (st, p :: ps)
  end.

(** [_recursiveHelper] from the return of [getComponentMetadata] to the
    next [await]. *)
Definition after_metadata (p : nat) (componentId : string)
    (r : Outcome (option ComponentInfo.t)) (st : State) : State :=
  match r with
  | Rejected e => settle p (Rejected e) st
  | Resolved None => settle p (Resolved tt) st
  | Resolved (Some metadata) =>
      let node := Node.mk (ComponentInfo.id metadata) (ComponentInfo.name metadata)
                          (ComponentInfo.type metadata) in
      let st := mkState (world st) (map_set componentId node (nodesMap st)) (edges st)
                        (tasks st) (settled st) (fresh st) (trace st) in
      let '(c, w, evs) :=
        advance random (getDependencies componentId (ComponentInfo.version metadata))
                (world st) in
      suspend (mkTask p (AwaitDependencies componentId c))
              (observe w (map ReferenceEvent evs) st)
  end.

(** [_recursiveHelper] from the return of [getDependencies] to
    [await Promise.all(discoveryPromises)]. *)
Definition after_dependencies (p : nat) (componentId : string)
    (r : Outcome (list string)) (st : State) : State :=
  match r with
  | Rejected e => settle p (Rejected e) st
  | Resolved dependencyIds =>
      let (st, discoveryPromises) := discover componentId dependencyIds st in
      suspend (mkTask p (AwaitAll componentId discoveryPromises)) st
  end.

(** [Promise.all]: rejected with the first rejection among its promises,
    fulfilled once all of them are. *)
Definition promise_all (st : State) (ps : list nat) : option (Outcome unit) :=
  match find (fun s => match snd s with
                       | Rejected _ => existsb (Nat.eqb (fst s)) ps
                       | Resolved _ => false
                       end) (settled st) with
  | Some (_, o) => Some o
  | None => if forallb (fulfilled st) ps then Some (Resolved tt) else None
  end.

(** A suspended call that continues without waiting for the outside world;
    such continuations run before the next response or timer is handled. *)
Definition microtask (st : State) (t : Task) : bool :=
  match visit t with
  | AwaitMetadata _ (Done _) => true
  | AwaitDependencies _ (Done _) => true
  | AwaitAll _ ps => match promise_all st ps with Some _ => true | None => false end
  | _ => false
  end.

Definition find_task (p : nat) (ts : list Task) : option Task :=
  find (fun t => Nat.eqb (promise t) p) ts.

Definition drop_task (p : nat) (st : State) : State :=
  mkState (world st) (nodesMap st) (edges st)
          (filter (fun t => negb (Nat.eqb (promise t) p)) (tasks st))
          (settled st) (fresh st) (trace st).

(** One turn for the suspended call whose promise is [p].  Promise 0 is the
    one [findAllDependenciesRecursive] awaits: nothing runs once it has
    settled. *)
Definition step_at (p : nat) (st : State) : option State :=
  match promise_state st 0 with
  | Some _ => None
  | None =>
      match find_task p (tasks st) with
      | None => None
      | Some t =>
          let st0 := drop_task p st in
          match visit t with
          | AwaitMetadata componentId (Done r) =>
              Some (after_metadata p componentId r st0)
          | AwaitDependencies componentId (Done r) =>
              Some (after_dependencies p componentId r st0)
          | AwaitAll _ ps =>
              match promise_all st ps with
              | Some o => Some (settle p o st0)
              | None => None
              end
          | AwaitMetadata componentId (Waiting c) =>
              if existsb (microtask st) (tasks st) then None
              else
                match resume get random c (world st) with
                | None => None
                | Some (c', w, evs) =>
                    let st1 := observe w (map MetadataEvent evs) st0 in
                    match c' with
                    | Done r => Some (after_metadata p componentId r st1)
                    | Waiting _ => Some (suspend (mkTask p (AwaitMetadata componentId c')) st1)
                    end
                end
          | AwaitDependencies componentId (Waiting c) =>
              if existsb (microtask st) (tasks st) then None
              else
                match resume post random c (world st) with
                | None => None
                | Some (c', w, evs) =>
                    let st1 := observe w (map ReferenceEvent evs) st0 in
                    match c' with
                    | Done r => Some (after_dependencies p componentId r st1)
                    | Waiting _ => Some (suspend (mkTask p (AwaitDependencies componentId c')) st1)
                    end
                end
          end
      end
  end.

Definition step (st st' : State) : Prop := exists p, step_at p st = Some st'.

(** [findAllDependenciesRecursive(rootId)] up to [await _recursiveHelper(rootId)]. *)
Definition start (rootId : string) (w : W) : State :=
  fst (_recursiveHelper rootId (mkState w [] [] [] [] 0 [])).

Inductive reachable (rootId : string) (w : W) : State -> Prop :=
| reachable_start : reachable rootId w (start rootId w)
| reachable_step st st' : reachable rootId w st -> step st st' -> reachable rootId w st'.

(** What [await findAllDependenciesRecursive(rootId)] yields, once promise 0
    has settled. *)
Definition result (st : State) : option (Outcome (list (string * Node.t) * list Edge.t)) :=
  match promise_state st 0 with
  | None => None
  | Some (Resolved _) => Some (Resolved (nodesMap st, edges st))
  | Some (Rejected e) => Some (Rejected e)
  end.

(** The turns named by a schedule, one promise after the other. *)
Fixpoint run_schedule (schedule : list nat) (st : State) : option State :=
  match schedule with
  | [] => Some st
  | p :: rest =>
      match step_at p st with
      | Some st' => run_schedule rest st'
      | None => None
      end
  end.

(** The schedule that always takes the first suspended call that can go on. *)
Fixpoint run_first (fuel : nat) (st : State) : State :=
  match fuel with
  | O => st
  | S fuel' =>
      match flat_map (fun t => match step_at (promise t) st with
                               | Some st' => [st']
                               | None => []
                               end) (tasks st) with
      | st' :: _ => run_first fuel' st'
      | [] => st
      end
  end.
End Traversal.

Arguments mkState {W} world nodesMap edges tasks settled fresh trace.
Arguments world {W} _.
Arguments nodesMap {W} _.
Arguments edges {W} _.
Arguments tasks {W} _.
Arguments settled {W} _.
Arguments fresh {W} _.
Arguments trace {W} _.
Arguments promise_state {W} st p.
Arguments fulfilled {W} st p.
Arguments promise_all {W} st ps.
Arguments microtask {W} st t.
Arguments result {W} st.
Arguments settle {W} p o st.
Arguments suspend {W} t st.
Arguments observe {W} w evs st.
Arguments drop_task {W} p st.

(** ** The main execution block *)

(** The value [JSON.stringify] serialises; the text itself (indentation of
    two spaces) is not modelled. *)
Inductive Json :=
| JString (s : string)
| JArray (items : list Json)
| JObject (members : list (string * Json)).

Definition stringify_node (n : Node.t) : Json :=
  JObject [("id", JString (Node.id n)); ("name", JString (Node.name n));
           ("type", JString (Node.type n))].

Definition stringify_edge (e : Edge.t) : Json :=
  JObject [("source", JString (Edge.source e)); ("target", JString (Edge.target e))].

Definition stringify (graphData : GraphData.t) : Json :=
  JObject [("nodes", JArray (map stringify_node (GraphData.nodes graphData)));
           ("edges", JArray (map stringify_edge (GraphData.edges graphData)))].

(** Reading a document back, member by member. *)
Definition member (key : string) (j : Json) : option Json :=
  match j with
  | JObject members =>
      option_map snd (find (fun kv => String.eqb key (fst kv)) members)
  | _ => None
  end.

Definition text (key : string) (j : Json) : option string :=
  match member key j with
  | Some (JString s) => Some s
  | _ => None
  end.

Definition items (key : string) (j : Json) : option (list Json) :=
  match member key j with
  | Some (JArray l) => Some l
  | _ => None
  end.

Fixpoint traverse {A B} (f : A -> option B) (l : list A) : option (list B) :=
  match l with
  | [] => Some []
  | a :: l' =>
      match f a, traverse f l' with
      | Some b, Some bs => Some (b :: bs)
      | _, _ => None
      end
  end.

Definition parse_node (j : Json) : option Node.t :=
  match text "id" j, text "name" j, text "type" j with
  | Some i, Some n, Some t => Some (Node.mk i n t)
  | _, _, _ => None
  end.

Definition parse_edge (j : Json) : option Edge.t :=
  match text "source" j, text "target" j with
  | Some s, Some t => Some (Edge.mk s t)
  | _, _ => None
  end.

Definition parse (j : Json) : option GraphData.t :=
  match items "nodes" j, items "edges" j with
  | Some ns, Some es =>
      match traverse parse_node ns, traverse parse_edge es with
      | Some nodes, Some edges => Some (GraphData.mk nodes edges)
      | _, _ => None
      end
  | _, _ => None
  end.

(** The files, and the paths [fs.writeFile] can write. *)
Record FileSystem := mkFS { files : list (string * Json); writable : string -> bool }.

Definition read (path : string) (fs : FileSystem) : option Json :=
  option_map snd (find (fun kv => String.eqb path (fst kv)) (files fs)).

Definition writeFile (path : string) (data : Json) (fs : FileSystem)
  : Outcome unit * FileSystem :=
  if writable fs path then (Resolved tt, mkFS (map_set path data (files fs)) (writable fs))
  else (Rejected (OtherError "EACCES"), fs).

Inductive Line :=
| ExtractionComplete (components dependencies : nat)
| DataWritten (file : string)
| FatalError (error : Err).

Record Exit := mkExit { status : Z; console : list Line; disk : FileSystem }.

(** The [try] block of the script from the point where
    [findAllDependenciesRecursive(ROOT_COMPONENT_ID)] has settled with [r]. *)
Definition main (r : Outcome (list (string * Node.t) * list Edge.t)) (fs : FileSystem) : Exit :=
  match r with
  | Rejected error => mkExit 1 [FatalError error] fs
  | Resolved (nodesMap, edges) =>
      let nodesArray := map_values nodesMap in
      let graphData := GraphData.mk nodesArray edges in
      match writeFile OUTPUT_FILE (stringify graphData) fs with
      | (Resolved _, fs') =>
          mkExit 0 [ExtractionComplete (length nodesArray) (length edges);
                    DataWritten OUTPUT_FILE] fs'
      | (Rejected error, fs') => mkExit 1 [FatalError error] fs'
      end
  end.

(** ** Remote services that answer each request the same way every time *)

Module Fixed.
Section Fixed.
Variable metadata : string -> Outcome Metadata.t.
Variable references : QueryBody.t -> Outcome QueryData.

Definition get (componentId : string) (w : unit) := (metadata componentId, w).
Definition post (queryBody : QueryBody.t) (w : unit) := (references queryBody, w).
Definition random (w : unit) : Q * unit := (0%Q, w).

Definition start (rootId : string) := start random rootId tt.
Definition step_at := step_at get post random.
Definition step := step get post random.
Definition run_schedule := run_schedule get post random.
Definition run_first := run_first get post random.
Definition reachable (rootId : string) := reachable get post random rootId tt.
End Fixed.
End Fixed.

(** A reference list as the service returns it: one group. *)
Definition refs (ids : list string) : Outcome QueryData :=
  Resolved (QueryResult (Some [ReferenceGroup.mk (Some (map Reference.mk ids))])).

Definition requests_for_metadata (componentId : string) (tr : list Event) : nat :=
  length (filter (fun ev => match ev with
                            | MetadataEvent (Sent c) => String.eqb c componentId
                            | _ => false
                            end) tr).

Definition requests_for_references (componentId : string) (tr : list Event) : nat :=
  length (filter (fun ev => match ev with
                            | ReferenceEvent (Sent q) =>
                                String.eqb (QueryBody.parentComponentId q) componentId
                            | _ => false
                            end) tr).

(** The scenario of the specification: "R" refers to "A" and "B", and "B"
    is not found. *)
Module Scenario.
Definition metadata (componentId : string) : Outcome Metadata.t :=
  if String.eqb componentId "R" then Resolved (Metadata.mk "Root" "Process" (Some 1%Z))
  else if String.eqb componentId "A" then Resolved (Metadata.mk "A" "Connector" (Some 1%Z))
  else Rejected (AxiosError (Some 404%Z)).

Definition references (q : QueryBody.t) : Outcome QueryData :=
  if String.eqb (QueryBody.parentComponentId q) "R" then refs ["A"; "B"]
  else refs [].

Definition final := Fixed.run_first metadata references 20 (Fixed.start "R").
End Scenario.

(** A diamond: "R" refers to "A" and "B", which both refer to "D"; the
    responses arrive in the order given by [schedule]. *)
Module Diamond.
Definition metadata (componentId : string) : Outcome Metadata.t :=
  Resolved (Metadata.mk componentId "Process" (Some 1%Z)).

Definition references (q : QueryBody.t) : Outcome QueryData :=
  if String.eqb (QueryBody.parentComponentId q) "R" then refs ["A"; "B"]
  else if String.eqb (QueryBody.parentComponentId q) "A" then refs ["D"]
  else if String.eqb (QueryBody.parentComponentId q) "B" then refs ["D"]
  else refs [].

(** Promise 0 is the visit of "R", 1 of "A", 2 of "B", 3 and 4 of "D".
    Metadata of "R", references of "R", metadata of "A" and of "B",
    references of "A" (first visit of "D"), references of "B" (second visit
    of "D", whose metadata has not arrived yet), and the rest. *)
Definition schedule : list nat := [0; 0; 1; 2; 1; 2; 3; 4; 3; 3; 1; 4; 4; 2; 0].

Definition final := Fixed.run_schedule metadata references schedule (Fixed.start "R").
End Diamond.

(** ** The traversal as a labelled machine

    What a suspended resolver still has to do, and what one turn of the
    traversal does to each field of the store.  [transition] is proved below
    to cover every [step] of a reachable state. *)

(** [try { f (await requestWithRetry(rq)) } catch (error) { h error }] from
    the iteration [attempt] of the retry loop on. *)
Definition retryFrom {Rq T R} (rq : Rq) (f : T -> Prog Rq T R) (h : Err -> Prog Rq T R)
    (remaining attempt : nat) : Prog Rq T R :=
  try_catch (bind (retryLoop rq remaining attempt) f) h.

Definition metadataFrom (componentId : string) :=
  retryFrom componentId
    (fun data : Metadata.t =>
       Ret (Rq:=string) (T:=Metadata.t)
           (Some (ComponentInfo.mk componentId (Metadata.name data)
                    (Metadata.type data) (Metadata.version data))))
    (fun error =>
       if notFound error then Print (NotFoundWarning componentId) (Ret None)
       else Throw error).

Definition dependenciesFrom (componentId : string) (version : option Z) :=
  retryFrom (QueryBody.mk componentId version)
    (fun data : QueryData =>
       match flatten data with
       | Some ids => Ret (Rq:=QueryBody.t) (T:=QueryData) ids
       | None => Throw TypeError
       end)
    (fun error => Print (DependenciesError componentId error) (Ret [])).

(** A resolver waiting for the response to attempt [a], or for the timer
    before it. *)
Inductive retrying {Rq T R} (from : nat -> nat -> Prog Rq T R) : Paused Rq T R -> Prop :=
| retrying_request r a :
    a + r = MAX_RETRIES -> retrying from (Waiting (from (S r) a))
| retrying_delay r a ms :
    a + r = MAX_RETRIES -> retrying from (Waiting (Sleep ms (from (S r) a))).

(** The error [requestWithRetry] throws for the failure [e] of attempt [a],
    when it throws. *)
Definition thrown (a : nat) (e e' : Err) : Prop :=
  (transient e = false /\ e' = e) \/
  (exists status, e = AxiosError (Some status) /\ retryable status = true /\
                  a = MAX_RETRIES /\
                  e' = ApiError (FailedAfter MAX_RETRIES status) (Some status) (Some a)).

(** What [discover] adds for the identifiers [ids], the first of which gets
    promise [p]: a suspended visit and a request for those not in the map, a
    fulfilled promise for the others. *)
Fixpoint spawned (p : nat) (nodes : list (string * Node.t)) (ids : list string) : list Task :=
  match ids with
  | [] => []
  | depId :: rest =>
      (if map_has depId nodes then []
       else [mkTask p (AwaitMetadata depId (Waiting (metadataFrom depId MAX_RETRIES 1)))])
      ++ spawned (S p) nodes rest
  end.

Fixpoint returned (p : nat) (nodes : list (string * Node.t)) (ids : list string)
  : list (nat * Outcome unit) :=
  match ids with
  | [] => []
  | depId :: rest =>
      (if map_has depId nodes then [(p, Resolved tt)] else []) ++ returned (S p) nodes rest
  end.

Fixpoint requested (nodes : list (string * Node.t)) (ids : list string) : list Event :=
  match ids with
  | [] => []
  | depId :: rest =>
      (if map_has depId nodes then [] else [MetadataEvent (Sent depId)])
      ++ requested nodes rest
  end.

Section Transitions.
Variable W : Type.
Variable get : string -> W -> Outcome Metadata.t * W.
Variable post : QueryBody.t -> W -> Outcome QueryData * W.
Variable random : W -> Q * W.

Definition others (p : nat) (st : State W) : list Task :=
  filter (fun t => negb (Nat.eqb (promise t) p)) (tasks st).

Definition shaped (st : State W) : Prop :=
  forall t, In t (tasks st) ->
    match visit t with
    | AwaitMetadata componentId c => retrying (metadataFrom componentId) c
    | AwaitDependencies componentId c =>
        exists version, retrying (dependenciesFrom componentId version) c
    | AwaitAll _ _ => True
    end.

Inductive transition (st : State W) : State W -> Prop :=
| metadata_retry p componentId r a status w1 x w2 :
    In (mkTask p (AwaitMetadata componentId
                    (Waiting (metadataFrom componentId (S r) a)))) (tasks st) ->
    a + r = MAX_RETRIES -> a <> MAX_RETRIES ->
    get componentId (world st) = (Rejected (AxiosError (Some status)), w1) ->
    retryable status = true ->
    random w1 = (x, w2) ->
    transition st
      (mkState w2 (nodesMap st) (edges st)
         (others p st ++
          [mkTask p (AwaitMetadata componentId
                       (Waiting (Sleep (backoff a x) (metadataFrom componentId r (S a)))))])
         (settled st) (fresh st)
         (trace st ++
          [MetadataEvent (Received componentId (Rejected (AxiosError (Some status))));
           MetadataEvent (Printed (RetryWarning status (backoff a x) a))]))
| metadata_timer p componentId r a ms :
    In (mkTask p (AwaitMetadata componentId
                    (Waiting (Sleep ms (metadataFrom componentId (S r) a))))) (tasks st) ->
    a + r = MAX_RETRIES ->
    transition st
      (mkState (world st) (nodesMap st) (edges st)
         (others p st ++
          [mkTask p (AwaitMetadata componentId
                       (Waiting (metadataFrom componentId (S r) a)))])
         (settled st) (fresh st)
         (trace st ++ [MetadataEvent (Slept ms); MetadataEvent (Sent componentId)]))
| metadata_found p componentId r a data w1 :
    In (mkTask p (AwaitMetadata componentId
                    (Waiting (metadataFrom componentId (S r) a)))) (tasks st) ->
    get componentId (world st) = (Resolved data, w1) ->
    transition st
      (mkState w1
         (map_set componentId
            (Node.mk componentId (Metadata.name data) (Metadata.type data))
            (nodesMap st))
         (edges st)
         (others p st ++
          [mkTask p (AwaitDependencies componentId
                       (Waiting (dependenciesFrom componentId (Metadata.version data)
                                   MAX_RETRIES 1)))])
         (settled st) (fresh st)
         (trace st ++
          [MetadataEvent (Received componentId (Resolved data));
           ReferenceEvent (Sent (QueryBody.mk componentId (Metadata.version data)))]))
| metadata_absent p componentId r a e w1 :
    In (mkTask p (AwaitMetadata componentId
                    (Waiting (metadataFrom componentId (S r) a)))) (tasks st) ->
    get componentId (world st) = (Rejected e, w1) ->
    transient e = false -> notFound e = true ->
    transition st
      (mkState w1 (nodesMap st) (edges st) (others p st)
         (settled st ++ [(p, Resolved tt)]) (fresh st)
         (trace st ++
          [MetadataEvent (Received componentId (Rejected e));
           MetadataEvent (Printed (NotFoundWarning componentId))]))
| metadata_failed p componentId r a e e' w1 :
    In (mkTask p (AwaitMetadata componentId
                    (Waiting (metadataFrom componentId (S r) a)))) (tasks st) ->
    get componentId (world st) = (Rejected e, w1) ->
    thrown a e e' -> notFound e' = false ->
    transition st
      (mkState w1 (nodesMap st) (edges st) (others p st)
         (settled st ++ [(p, Rejected e')]) (fresh st)
         (trace st ++ [MetadataEvent (Received componentId (Rejected e))]))
| dependencies_retry p componentId version r a status w1 x w2 :
    In (mkTask p (AwaitDependencies componentId
                    (Waiting (dependenciesFrom componentId version (S r) a)))) (tasks st) ->
    a + r = MAX_RETRIES -> a <> MAX_RETRIES ->
    post (QueryBody.mk componentId version) (world st)
      = (Rejected (AxiosError (Some status)), w1) ->
    retryable status = true ->
    random w1 = (x, w2) ->
    transition st
      (mkState w2 (nodesMap st) (edges st)
         (others p st ++
          [mkTask p (AwaitDependencies componentId
                       (Waiting (Sleep (backoff a x)
                                   (dependenciesFrom componentId version r (S a)))))])
         (settled st) (fresh st)
         (trace st ++
          [ReferenceEvent (Received (QueryBody.mk componentId version)
                             (Rejected (AxiosError (Some status))));
           ReferenceEvent (Printed (RetryWarning status (backoff a x) a))]))
| dependencies_timer p componentId version r a ms :
    In (mkTask p (AwaitDependencies componentId
                    (Waiting (Sleep ms (dependenciesFrom componentId version (S r) a)))))
       (tasks st) ->
    a + r = MAX_RETRIES ->
    transition st
      (mkState (world st) (nodesMap st) (edges st)
         (others p st ++
          [mkTask p (AwaitDependencies componentId
                       (Waiting (dependenciesFrom componentId version (S r) a)))])
         (settled st) (fresh st)
         (trace st ++
          [ReferenceEvent (Slept ms);
           ReferenceEvent (Sent (QueryBody.mk componentId version))]))
| dependencies_listed p componentId version r a data ids w1 :
    In (mkTask p (AwaitDependencies componentId
                    (Waiting (dependenciesFrom componentId version (S r) a)))) (tasks st) ->
    post (QueryBody.mk componentId version) (world st) = (Resolved data, w1) ->
    flatten data = Some ids ->
    transition st
      (mkState w1 (nodesMap st)
         (edges st ++ map (Edge.mk componentId) ids)
         ((others p st ++ spawned (fresh st) (nodesMap st) ids) ++
          [mkTask p (AwaitAll componentId (seq (fresh st) (length ids)))])
         (settled st ++ returned (fresh st) (nodesMap st) ids)
         (fresh st + length ids)
         ((trace st ++
           [ReferenceEvent (Received (QueryBody.mk componentId version) (Resolved data))])
          ++ requested (nodesMap st) ids))
| dependencies_unknown p componentId version r a o e w1 :
    In (mkTask p (AwaitDependencies componentId
                    (Waiting (dependenciesFrom componentId version (S r) a)))) (tasks st) ->
    post (QueryBody.mk componentId version) (world st) = (o, w1) ->
    (forall data ids, o = Resolved data -> flatten data = Some ids -> False) ->
    transition st
      (mkState w1 (nodesMap st) (edges st)
         (others p st ++ [mkTask p (AwaitAll componentId [])])
         (settled st) (fresh st)
         (trace st ++
          [ReferenceEvent (Received (QueryBody.mk componentId version) o);
           ReferenceEvent (Printed (DependenciesError componentId e))]))
| joined p componentId ps o :
    In (mkTask p (AwaitAll componentId ps)) (tasks st) ->
    promise_all st ps = Some o ->
    transition st
      (mkState (world st) (nodesMap st) (edges st) (others p st)
         (settled st ++ [(p, o)]) (fresh st) (trace st)).
End Transitions.

(** ** What is observed of a run, and the invariants of the store *)

(** The edges the received reference lists stand for, in order. *)
Definition recorded (tr : list Event) : list Edge.t :=
  flat_map (fun ev =>
              match ev with
              | ReferenceEvent (Received q (Resolved data)) =>
                  match flatten data with
                  | Some ids => map (Edge.mk (QueryBody.parentComponentId q)) ids
                  | None => []
                  end
              | _ => []
              end) tr.

(** The identifiers whose metadata request succeeded, one per success. *)
Definition resolved_ids (tr : list Event) : list string :=
  flat_map (fun ev =>
              match ev with
              | MetadataEvent (Received componentId (Resolved _)) => [componentId]
              | _ => []
              end) tr.

(** A metadata request for [componentId] was answered with 400 or 404. *)
Definition not_found_in (tr : list Event) (componentId : string) : Prop :=
  exists e, In (MetadataEvent (Received componentId (Rejected e))) tr /\ notFound e = true.

(** [e] is what [getComponentMetadata] threw for some identifier: the failure
    of a metadata request that is neither retried nor a 400/404, or the
    [ApiError] of the fifth 503/504 in a row. *)
Definition metadata_failure (tr : list Event) (e : Err) : Prop :=
  exists componentId e0 a,
    In (MetadataEvent (Received componentId (Rejected e0))) tr /\
    thrown a e0 e /\ notFound e = false.

Section Invariants.
Variable W : Type.

Definition keys (st : State W) : list string := map_keys (nodesMap st).

Definition rejected (st : State W) (p : nat) : Prop :=
  exists e, promise_state st p = Some (Rejected e).

(** Promises and suspended calls: every promise handed out is either settled
    or that of exactly one suspended call, and a promise that is not
    fulfilled is awaited by a pending [Promise.all] of an earlier call, unless
    that call was rejected. *)
Definition promises_consistent (st : State W) : Prop :=
  NoDup (map promise (tasks st)) /\
  (forall t, In t (tasks st) ->
     promise t < fresh st /\ promise_state st (promise t) = None) /\
  (forall q, promise_state st q <> None -> q < fresh st) /\
  (forall q, q < fresh st ->
     (exists t, In t (tasks st) /\ promise t = q) \/ promise_state st q <> None) /\
  (forall q, 0 < q < fresh st -> fulfilled st q = false ->
     exists p, p < q /\
       ((exists componentId ps,
           In (mkTask p (AwaitAll componentId ps)) (tasks st) /\ In q ps) \/
        rejected st p)).

(** The graph under construction. *)
Definition graph_consistent (st : State W) : Prop :=
  NoDup (keys st) /\
  (forall t, In t (tasks st) ->
     match visit t with
     | AwaitMetadata _ _ => True
     | AwaitDependencies componentId _ => In componentId (keys st)
     | AwaitAll componentId _ => In componentId (keys st)
     end) /\
  (forall e, In e (edges st) -> In (Edge.source e) (keys st)) /\
  (forall componentId, In componentId (keys st) <-> In componentId (resolved_ids (trace st))) /\
  (forall q, In (ReferenceEvent (Sent q)) (trace st) ->
     In (QueryBody.parentComponentId q) (keys st)) /\
  edges st = recorded (trace st).

(** Where the target of each edge stands. *)
Definition targets_accounted (st : State W) : Prop :=
  forall e, In e (edges st) ->
    In (Edge.target e) (keys st) \/
    not_found_in (trace st) (Edge.target e) \/
    (exists p c, In (mkTask p (AwaitMetadata (Edge.target e) c)) (tasks st)) \/
    (exists p, rejected st p).

(** Rejections come from metadata failures, and every such failure rejects. *)
Definition rejections_explained (st : State W) : Prop :=
  (forall p e, In (p, Rejected e) (settled st) -> metadata_failure (trace st) e) /\
  (forall componentId e,
     In (MetadataEvent (Received componentId (Rejected e))) (trace st) ->
     transient e = false -> notFound e = false ->
     exists p, In (p, Rejected e) (settled st)).

(** A promise settles once. *)
Definition settled_once (st : State W) : Prop := NoDup (map fst (settled st)).
End Invariants.

Section Service.
Variable W : Type.
Variable get : string -> W -> Outcome Metadata.t * W.

(** Every metadata response in the trace is one the service gave. *)
Definition answered_by (tr : list Event) : Prop :=
  forall componentId o,
    In (MetadataEvent (Received componentId o)) tr ->
    exists w, fst (get componentId w) = o.

(** The promises a [Promise.all] waits for were handed out after the call
    that waits. *)
Definition children_bounded (st : State W) : Prop :=
  0 < fresh st /\
  forall p componentId ps,
    In (mkTask p (AwaitAll componentId ps)) (tasks st) ->
    forall q, In q ps -> p < q < fresh st.
End Service.

(** ** Sample operations, services and disks *)

(** An operation that answers 503 twice and then succeeds. *)
Module Flaky.
Definition script : Script.t nat :=
  Script.mk (fun i => if (i <? 2)%nat then Rejected (AxiosError (Some 503%Z)) else Resolved 7)
            (fun _ => 0%Q).
End Flaky.

(** An operation that answers 404. *)
Module Gone.
Definition script : Script.t nat :=
  Script.mk (fun _ => Rejected (AxiosError (Some 404%Z))) (fun _ => 0%Q).
End Gone.

(** "R" refers to "X", whose metadata request is answered 500. *)
Module Failing.
Definition metadata (componentId : string) : Outcome Metadata.t :=
  if String.eqb componentId "R" then Resolved (Metadata.mk "Root" "Process" (Some 1%Z))
  else Rejected (AxiosError (Some 500%Z)).

Definition references (q : QueryBody.t) : Outcome QueryData :=
  if String.eqb (QueryBody.parentComponentId q) "R" then refs ["X"] else refs [].

Definition final := Fixed.run_first metadata references 20 (Fixed.start "R").
End Failing.

(** "R" refers to "X", whose metadata requests are all answered 503. *)
Module Overloaded.
Definition metadata (componentId : string) : Outcome Metadata.t :=
  if String.eqb componentId "R" then Resolved (Metadata.mk "Root" "Process" (Some 1%Z))
  else Rejected (AxiosError (Some 503%Z)).

Definition references (q : QueryBody.t) : Outcome QueryData :=
  if String.eqb (QueryBody.parentComponentId q) "R" then refs ["X"] else refs [].

Definition final := Fixed.run_first metadata references 40 (Fixed.start "R").
End Overloaded.

(** The root itself is answered 404. *)
Module Missing.
Definition metadata (componentId : string) : Outcome Metadata.t :=
  Rejected (AxiosError (Some 404%Z)).

Definition references (q : QueryBody.t) : Outcome QueryData := refs [].

Definition final := Fixed.run_first metadata references 20 (Fixed.start "R").
End Missing.

(** A disk that already holds an output file. *)
Definition used_disk : FileSystem :=
  mkFS [(OUTPUT_FILE, JObject [("nodes", JArray []); ("edges", JArray [])])]
       (fun _ => true).

(** A component whose metadata has no version, and whose reference query
    fails with [failure] every time. *)
Module Versionless.
Section Versionless.
Variables (rootId name type : string) (failure : Err).

Definition metadata (_ : string) : Outcome Metadata.t :=
  Resolved (Metadata.mk name type None).

Definition references (_ : QueryBody.t) : Outcome QueryData := Rejected failure.

Definition leaf : list (string * Node.t) := [(rootId, Node.mk rootId name type)].

(** The states of a run, with a bound on the turns left. *)
Definition stands (n : nat) (st : State unit) : Prop :=
  edges st = [] /\ fresh st = 1 /\
  ((n = 12 /\ nodesMap st = [] /\ settled st = [] /\
    tasks st = [mkTask 0 (AwaitMetadata rootId (Waiting (metadataFrom rootId MAX_RETRIES 1)))])
   \/
   (exists r a,
      n = 2 * r + 3 /\ a + r = MAX_RETRIES /\ nodesMap st = leaf /\ settled st = [] /\
      tasks st = [mkTask 0 (AwaitDependencies rootId
                              (Waiting (dependenciesFrom rootId None (S r) a)))])
   \/
   (exists r a ms,
      n = 2 * r + 4 /\ a + r = MAX_RETRIES /\ nodesMap st = leaf /\ settled st = [] /\
      tasks st = [mkTask 0 (AwaitDependencies rootId
                              (Waiting (Sleep ms (dependenciesFrom rootId None (S r) a))))])
   \/
   (n = 2 /\ nodesMap st = leaf /\ settled st = [] /\
    tasks st = [mkTask 0 (AwaitAll rootId [])])
   \/
   (n = 1 /\ nodesMap st = leaf /\ settled st = [(0, Resolved tt)] /\ tasks st = [])).
End Versionless.
End Versionless.

(** Two components that refer to each other; with [B = A], one component
    that refers to itself. *)
Module Cycle.
Section Cycle.
Variables (A B : string) (mA mB : Metadata.t).

Definition metadata (componentId : string) : Outcome Metadata.t :=
  if String.eqb componentId A then Resolved mA
  else if String.eqb componentId B then Resolved mB
  else Rejected (AxiosError (Some 404%Z)).

Definition references (q : QueryBody.t) : Outcome QueryData :=
  if String.eqb (QueryBody.parentComponentId q) A then refs [B]
  else if String.eqb (QueryBody.parentComponentId q) B then refs [A]
  else refs [].

Definition nodeA : Node.t := Node.mk A (Metadata.name mA) (Metadata.type mA).
Definition nodeB : Node.t := Node.mk B (Metadata.name mB) (Metadata.type mB).

(** The graph a run returns. *)
Definition graph : list (string * Node.t) * list Edge.t :=
  if String.eqb A B then ([(A, nodeA)], [Edge.mk A A])
  else ([(A, nodeA); (B, nodeB)], [Edge.mk A B; Edge.mk B A]).

Definition summary (st : State unit) :=
  (nodesMap st, edges st, tasks st, settled st, fresh st).

Definition visitA := AwaitMetadata A (Waiting (metadataFrom A MAX_RETRIES 1)).
Definition visitB := AwaitMetadata B (Waiting (metadataFrom B MAX_RETRIES 1)).
Definition expandA :=
  AwaitDependencies A (Waiting (dependenciesFrom A (Metadata.version mA) MAX_RETRIES 1)).
Definition expandB :=
  AwaitDependencies B (Waiting (dependenciesFrom B (Metadata.version mB) MAX_RETRIES 1)).

(** The states of a run when [A] and [B] differ, by the number of turns
    left. *)
Definition two (n : nat) (st : State unit) : Prop :=
  match n with
  | 6 => summary st = ([], [], [mkTask 0 visitA], [], 1)
  | 5 => summary st = ([(A, nodeA)], [], [mkTask 0 expandA], [], 1)
  | 4 => summary st =
         ([(A, nodeA)], [Edge.mk A B],
          [mkTask 1 visitB; mkTask 0 (AwaitAll A [1])], [], 2)
  | 3 => summary st =
         ([(A, nodeA); (B, nodeB)], [Edge.mk A B],
          [mkTask 0 (AwaitAll A [1]); mkTask 1 expandB], [], 2)
  | 2 => summary st =
         ([(A, nodeA); (B, nodeB)], [Edge.mk A B; Edge.mk B A],
          [mkTask 0 (AwaitAll A [1]); mkTask 1 (AwaitAll B [2])],
          [(2, Resolved tt)], 3)
  | 1 => summary st =
         ([(A, nodeA); (B, nodeB)], [Edge.mk A B; Edge.mk B A],
          [mkTask 0 (AwaitAll A [1])],
          [(2, Resolved tt); (1, Resolved tt)], 3)
  | 0 => summary st =
         ([(A, nodeA); (B, nodeB)], [Edge.mk A B; Edge.mk B A], [],
          [(2, Resolved tt); (1, Resolved tt); (0, Resolved tt)], 3)
  | _ => False
  end.

(** The states of a run when [B] is [A]. *)
Definition one (n : nat) (st : State unit) : Prop :=
  match n with
  | 3 => summary st = ([], [], [mkTask 0 visitA], [], 1)
  | 2 => summary st = ([(A, nodeA)], [], [mkTask 0 expandA], [], 1)
  | 1 => summary st =
         ([(A, nodeA)], [Edge.mk A A], [mkTask 0 (AwaitAll A [1])],
          [(1, Resolved tt)], 2)
  | 0 => summary st =
         ([(A, nodeA)], [Edge.mk A A], [],
          [(1, Resolved tt); (0, Resolved tt)], 2)
  | _ => False
  end.
End Cycle.
End Cycle.

(** What is observed of a final state: whether promise 0 is fulfilled, the
    nodes, the edges, and the number of metadata and of reference requests
    for [componentId]. *)
Definition observation (componentId : string) (st : State unit) :=
  (fulfilled st 0, keys st, edges st,
   requests_for_metadata componentId (trace st),
   requests_for_references componentId (trace st)).

(** ** More sample operations *)

(** The time spent in [delay], in milliseconds. *)
Definition total (ds : list Q) : Q := fold_right Qplus 0%Q ds.

(** A metadata operation that answers 503 every time. *)
Module Down.
Definition script : Script.t Metadata.t :=
  Script.mk (fun _ => Rejected (AxiosError (Some 503%Z))) (fun _ => 0%Q).
End Down.

(** An operation that answers 504 once and 500 from then on. *)
Module Broken.
Definition script : Script.t nat :=
  Script.mk (fun i => if (i <? 1)%nat then Rejected (AxiosError (Some 504%Z))
                      else Rejected (AxiosError (Some 500%Z)))
            (fun _ => 0%Q).
End Broken.

(** ** More invariants of the store *)

Section Provenance.
Variable W : Type.

(** Every node is built from a metadata response for its key. *)
Definition nodes_from_responses (st : State W) : Prop :=
  forall k n, In (k, n) (nodesMap st) ->
    exists data,
      In (MetadataEvent (Received k (Resolved data))) (trace st) /\
      n = Node.mk k (Metadata.name data) (Metadata.type data).

(** The map of nodes is empty while the root visit awaits its metadata, and
    starts with the root from then on. *)
Definition rooted (rootId : string) (st : State W) : Prop :=
  (keys st = [] /\ edges st = [] /\
   (forall t, In t (tasks st) -> exists c, t = mkTask 0 (AwaitMetadata rootId c)) /\
   ((tasks st <> [] /\ ~ not_found_in (trace st) rootId) \/
    (tasks st = [] /\ (not_found_in (trace st) rootId \/ rejected st 0))))
  \/
  ((exists rest, keys st = rootId :: rest) /\
   (forall p c, ~ In (mkTask p (AwaitMetadata rootId c)) (tasks st)) /\
   ~ not_found_in (trace st) rootId).

(** The reference query [q] carries the version of a metadata response for
    its component. *)
Definition built_from (tr : list Event) (q : QueryBody.t) : Prop :=
  exists data,
    In (MetadataEvent (Received (QueryBody.parentComponentId q) (Resolved data))) tr /\
    QueryBody.parentVersion q = Metadata.version data.

(** Every reference query sent or about to be sent again is [built_from] a
    metadata response. *)
Definition queries_follow_metadata (st : State W) : Prop :=
  (forall q, In (ReferenceEvent (Sent q)) (trace st) -> built_from (trace st) q) /\
  (forall p c v r a,
     a + r = MAX_RETRIES ->
     In (mkTask p (AwaitDependencies c (Waiting (dependenciesFrom c v (S r) a)))) (tasks st) ->
     built_from (trace st) (QueryBody.mk c v)) /\
  (forall p c v r a ms,
     a + r = MAX_RETRIES ->
     In (mkTask p (AwaitDependencies c
                     (Waiting (Sleep ms (dependenciesFrom c v (S r) a))))) (tasks st) ->
     built_from (trace st) (QueryBody.mk c v)).

End Provenance.

(** ** Counting requests *)

(** The requests sent so far, metadata and reference requests together. *)
Definition sent_total (tr : list Event) : nat :=
  length (filter (fun ev => match ev with
                            | MetadataEvent (Sent _) => true
                            | ReferenceEvent (Sent _) => true
                            | _ => false
                            end) tr).

(** [b] requests are left to the suspended call [t] at most: what remains of
    the five attempts of the lookup it is in, and the five attempts of the
    reference lookup when that is still to come. *)
Definition budget (t : Task) (b : nat) : Prop :=
  match visit t with
  | AwaitMetadata c (Waiting prog) =>
      exists r a, a + r = MAX_RETRIES /\
        ((prog = metadataFrom c (S r) a /\ b = r + MAX_RETRIES) \/
         (exists ms, prog = Sleep ms (metadataFrom c (S r) a) /\ b = S r + MAX_RETRIES))
  | AwaitDependencies c (Waiting prog) =>
      exists v r a, a + r = MAX_RETRIES /\
        ((prog = dependenciesFrom c v (S r) a /\ b = r) \/
         (exists ms, prog = Sleep ms (dependenciesFrom c v (S r) a) /\ b = S r))
  | AwaitAll _ _ => b = 0
  | _ => False
  end.

Fixpoint budgets (ts : list Task) (B : nat) : Prop :=
  match ts with
  | [] => B = 0
  | t :: ts' => exists b B', budget t b /\ budgets ts' B' /\ B = b + B'
  end.

(** The requests sent and those that may still come fit in ten per call of
    [_recursiveHelper]. *)
Definition requests_bounded {W} (st : State W) : Prop :=
  exists B, budgets (tasks st) B /\
            sent_total (trace st) + B <= 2 * MAX_RETRIES * fresh st.

(** ** The renderer ([public/app.js])

    What the page does with the fetched document before it hands it to
    Cytoscape. *)

Module Renderer.
(** [node => ({ data: node })], [edge => ({ data: edge })] *)
Definition wrap (item : Json) : Json := JObject [("data", item)].

(** [{ nodes: graphData.nodes.map(...), edges: graphData.edges.map(...) }];
    [None] when [graphData.nodes] or [graphData.edges] is not an array, so
    that [.map] throws. *)
Definition elements (graphData : Json) : option (list Json * list Json) :=
  match items "nodes" graphData, items "edges" graphData with
  | Some nodes, Some edges => Some (map wrap nodes, map wrap edges)
  | _, _ => None
  end.

(** The field [key] of the [data] of an element, as the style sheet reads it
    ([data(name)], [node[type="Process"]]). *)
Definition data (key : string) (element : Json) : option string :=
  match member "data" element with
  | Some d => text key d
  | None => None
  end.
End Renderer.

(** ** A measure for termination

    [U] lists the identifiers the service can name and [L] bounds the length
    of its reference lists.  Every suspended call is given the identifiers of
    the calls it descends from; they are distinct, so a call has fewer than
    [length U] of them. *)

(** The identifier a suspended call is looking up. *)
Definition subject (v : Visit) : option string :=
  match v with
  | AwaitMetadata c _ => Some c
  | AwaitDependencies c _ => Some c
  | AwaitAll _ _ => None
  end.

Section Measure.
Variables (N L : nat).

(** The turns a call and its descendants take at most, when [m] identifiers
    are not among its ancestors or itself. *)
Fixpoint visit_cost (m : nat) : nat :=
  match m with
  | O => 19
  | S m' => 19 + L * visit_cost m'
  end.

Definition rank (anc : nat -> list string) (t : Task) (b : nat) : Prop :=
  let below := L * visit_cost (pred (N - length (anc (promise t)))) in
  match visit t with
  | AwaitMetadata c (Waiting prog) =>
      exists r a, a + r = MAX_RETRIES /\
        ((prog = metadataFrom c (S r) a /\ b = 2 * r + 11 + below) \/
         (exists ms, prog = Sleep ms (metadataFrom c (S r) a) /\ b = 2 * r + 12 + below))
  | AwaitDependencies c (Waiting prog) =>
      exists v r a, a + r = MAX_RETRIES /\
        ((prog = dependenciesFrom c v (S r) a /\ b = 2 * r + 2 + below) \/
         (exists ms, prog = Sleep ms (dependenciesFrom c v (S r) a) /\ b = 2 * r + 3 + below))
  | AwaitAll _ _ => b = 1
  | _ => False
  end.

Fixpoint ranks (anc : nat -> list string) (ts : list Task) (B : nat) : Prop :=
  match ts with
  | [] => B = 0
  | t :: ts' => exists b B', rank anc t b /\ ranks anc ts' B' /\ B = b + B'
  end.
End Measure.

(** The ancestors of every suspended lookup are distinct identifiers of [U]
    that are in the map of nodes, and its own identifier is not among them. *)
Definition placed {W} (U : list string) (anc : nat -> list string) (st : State W) : Prop :=
  forall t c, In t (tasks st) -> subject (visit t) = Some c ->
    In c U /\ ~ In c (anc (promise t)) /\ NoDup (anc (promise t)) /\
    incl (anc (promise t)) U /\ incl (anc (promise t)) (keys st).

Definition ranked {W} (U : list string) (L n : nat) (st : State W) : Prop :=
  promises_consistent st /\ graph_consistent st /\
  exists anc B, placed U anc st /\ ranks (length U) L anc (tasks st) B /\ B <= n.

(** The service names identifiers of [U] only, at most [L] in one list. *)
Definition lists_within {W} (post : QueryBody.t -> W -> Outcome QueryData * W)
    (U : list string) (L : nat) : Prop :=
  forall q w data w' ids,
    post q w = (Resolved data, w') -> flatten data = Some ids ->
    incl ids U /\ length ids <= L.

(** ** Services for not-found answers and absent versions *)

(** "R" refers to "A" and "X", and "A" refers to "X".  The first metadata
    request for "X" is answered 404, the later ones succeed; the world counts
    the metadata requests for "X". *)
Module Revived.
Definition get (componentId : string) (w : nat) : Outcome Metadata.t * nat :=
  if String.eqb componentId "X" then
    (if (w =? 0)%nat then Rejected (AxiosError (Some 404%Z))
     else Resolved (Metadata.mk "X" "Process" (Some 1%Z)), S w)
  else (Resolved (Metadata.mk componentId "Process" (Some 1%Z)), w).

Definition post (q : QueryBody.t) (w : nat) : Outcome QueryData * nat :=
  (if String.eqb (QueryBody.parentComponentId q) "R" then refs ["A"; "X"]
   else if String.eqb (QueryBody.parentComponentId q) "A" then refs ["X"]
   else refs [], w).

Definition random (w : nat) : Q * nat := (0%Q, w).

Definition final := run_first get post random 20 (start random "R" 0).
End Revived.

(** "R" refers to "V"; the metadata of "V" has no version, and a reference
    query without a version is answered 400. *)
Module Bare.
Definition metadata (componentId : string) : Outcome Metadata.t :=
  if String.eqb componentId "R" then Resolved (Metadata.mk "Root" "Process" (Some 1%Z))
  else Resolved (Metadata.mk "Orphan" "Connector" None).

Definition references (q : QueryBody.t) : Outcome QueryData :=
  match QueryBody.parentVersion q with
  | None => Rejected (AxiosError (Some 400%Z))
  | Some _ => refs ["V"]
  end.

Definition final := Fixed.run_first metadata references 20 (Fixed.start "R").
End Bare.

(** * Properties *)

Unset Implicit Arguments.

(** ** Running coroutines built with [bind] and [try_catch] *)

Section RunLemmas.
Variables (W Rq T : Type).
Variable respond : Rq -> W -> Outcome T * W.
Variable random : W -> Q * W.

Lemma run_bind {A B} (p : Prog Rq T A) (f : A -> Prog Rq T B) (w : W) :
  run respond random (bind p f) w =
  match run respond random p w with
  | (Resolved v, w', tr) =>
      let '(r, w'', tr') := run respond random (f v) w' in (r, w'', tr ++ tr')
  | (Rejected e, w', tr) => (Rejected e, w', tr)
  end.
Proof.
  revert w; induction p as [v|e|rq k IH|ms k IH|l k IH|k IH]; intro w; simpl.
  - destruct (run respond random (f v) w) as [[r w'] tr]; reflexivity.
  - reflexivity.
  - destruct (respond rq w) as [o w']. rewrite IH.
    destruct (run respond random (k o) w') as [[[v|e] w''] tr]; simpl; auto.
    destruct (run respond random (f v) w'') as [[r w3] tr']; reflexivity.
  - rewrite IH.
    destruct (run respond random k w) as [[[v|e] w''] tr]; simpl; auto.
    destruct (run respond random (f v) w'') as [[r w3] tr']; reflexivity.
  - rewrite IH.
    destruct (run respond random k w) as [[[v|e] w''] tr]; simpl; auto.
    destruct (run respond random (f v) w'') as [[r w3] tr']; reflexivity.
  - destruct (random w) as [x w']. apply IH.
Qed.

Lemma run_try_catch {A} (p : Prog Rq T A) (h : Err -> Prog Rq T A) (w : W) :
  run respond random (try_catch p h) w =
  match run respond random p w with
  | (Resolved v, w', tr) => (Resolved v, w', tr)
  | (Rejected e, w', tr) =>
      let '(r, w'', tr') := run respond random (h e) w' in (r, w'', tr ++ tr')
  end.
Proof.
  revert w; induction p as [v|e|rq k IH|ms k IH|l k IH|k IH]; intro w; simpl.
  - reflexivity.
  - destruct (run respond random (h e) w) as [[r w'] tr]; reflexivity.
  - destruct (respond rq w) as [o w']. rewrite IH.
    destruct (run respond random (k o) w') as [[[v|e] w''] tr]; simpl; auto.
    destruct (run respond random (h e) w'') as [[r w3] tr']; reflexivity.
  - rewrite IH.
    destruct (run respond random k w) as [[[v|e] w''] tr]; simpl; auto.
    destruct (run respond random (h e) w'') as [[r w3] tr']; reflexivity.
  - rewrite IH.
    destruct (run respond random k w) as [[[v|e] w''] tr]; simpl; auto.
    destruct (run respond random (h e) w'') as [[r w3] tr']; reflexivity.
  - destruct (random w) as [x w']. apply IH.
Qed.
End RunLemmas.

(** ** The retry client against a scripted operation *)

Section RetryScript.
Variables (Rq T : Type) (requestFn : Rq) (s : Script.t T).

Let runS := run (T:=T) (R:=T) (Script.respond (Rq:=Rq) s) (Script.random s).

Lemma attempts_app (tr1 tr2 : list (Ev Rq T)) :
  attempts (tr1 ++ tr2) = attempts tr1 + attempts tr2.
Proof. unfold attempts. now rewrite filter_app, length_app. Qed.

Lemma delays_app (tr1 tr2 : list (Ev Rq T)) :
  delays (tr1 ++ tr2) = delays tr1 ++ delays tr2.
Proof. unfold delays. now rewrite flat_map_app. Qed.

(** [K] transient failures in a row cost [K] attempts and [K] delays, and
    leave the loop [K] iterations further. *)
Lemma retryLoop_transient_prefix (K : nat) :
  forall remaining attempt calls draws,
    attempt + K <= MAX_RETRIES ->
    (forall i, i < K -> fails_transiently (Script.reply s (calls + i))) ->
    exists tr0,
      attempts tr0 = K /\ length (delays tr0) = K /\
      runS (retryLoop requestFn (K + remaining) attempt) (calls, draws) =
      let '(r, w, tr) :=
        runS (retryLoop requestFn remaining (attempt + K)) (calls + K, draws + K) in
      (r, w, tr0 ++ tr).
Proof.
  induction K as [|K IH]; intros remaining attempt calls draws Hle Hfail.
  - exists []. repeat split; auto.
    rewrite !Nat.add_0_r. simpl.
    destruct (runS _ _) as [[r w] tr]; reflexivity.
  - destruct (Hfail 0) as [status [Hreply Hretry]]; [lia|].
    rewrite Nat.add_0_r in Hreply.
    destruct (IH remaining (S attempt) (S calls) (S draws)) as [tr0 [Ha [Hd Hrun]]].
    + lia.
    + intros i Hi. replace (S calls + i) with (calls + S i) by lia. apply Hfail; lia.
    + exists (Sent requestFn :: Received requestFn (Rejected (AxiosError (Some status)))
                :: Printed (RetryWarning status (backoff attempt (Script.jitter s draws)) attempt)
                :: Slept (backoff attempt (Script.jitter s draws)) :: tr0).
      split; [|split].
      * unfold attempts in *. simpl. now rewrite Ha.
      * unfold delays in *. simpl. now rewrite Hd.
      * unfold runS in *. simpl. rewrite Hreply, Hretry.
        replace (attempt =? MAX_RETRIES)%nat with false
          by (symmetry; apply Nat.eqb_neq; lia).
        simpl. rewrite Hrun.
        replace (S attempt + K) with (attempt + S K) by lia.
        replace (S calls + K) with (calls + S K) by lia.
        replace (S draws + K) with (draws + S K) by lia.
        clear Hrun.
        destruct (run (Script.respond s) (Script.random s)
                      (retryLoop requestFn remaining (attempt + S K)) _)
          as [[r w] tr].
        reflexivity.
Qed.

(** C4. An operation that fails with 503/504 exactly [K < 5] times and
    then succeeds is attempted [K + 1] times and its success is returned;
    one whose first five attempts all fail with 503/504 is attempted
    exactly five times and fails with the [ApiError] that carries the last
    status and the attempt count 5. *)
Theorem requestWithRetry_retry_bound (K : nat) :
  (forall i, i < K -> fails_transiently (Script.reply s i)) ->
  (forall v, K < MAX_RETRIES -> Script.reply s K = Resolved v ->
     exists tr,
       Script.exec s (requestWithRetry requestFn) = (Resolved v, tr) /\
       attempts tr = K + 1 /\ length (delays tr) = K)
  /\
  (K = MAX_RETRIES ->
     exists last tr,
       Script.reply s (MAX_RETRIES - 1) = Rejected (AxiosError (Some last)) /\
       Script.exec s (requestWithRetry requestFn) =
         (Rejected (ApiError (FailedAfter MAX_RETRIES last) (Some last) (Some MAX_RETRIES)), tr) /\
       attempts tr = MAX_RETRIES).
Proof.
  intro Hfail. split.
  - intros v HK Hok.
    destruct (MAX_RETRIES - K) as [|rem] eqn:Hrem;
      [unfold MAX_RETRIES in *; lia|].
    destruct (retryLoop_transient_prefix K (S rem) 1 0 0)
      as [tr0 [Ha [Hd Hrun]]].
    + unfold MAX_RETRIES in *; lia.
    + intros i Hi. simpl. now apply Hfail.
    + exists (tr0 ++ [Sent requestFn; Received requestFn (Resolved v)]).
      split; [|split].
      * unfold Script.exec, requestWithRetry. fold runS.
        replace MAX_RETRIES with (K + S rem) at 1
          by (unfold MAX_RETRIES in *; lia).
        rewrite Hrun. unfold runS. simpl. rewrite Hok. reflexivity.
      * rewrite attempts_app, Ha. reflexivity.
      * rewrite delays_app, length_app, Hd. simpl. lia.
  - intros ->.
    destruct (Hfail 4) as [last [Hlast Hretry]]; [unfold MAX_RETRIES; lia|].
    destruct (retryLoop_transient_prefix 4 1 1 0 0)
      as [tr0 [Ha [Hd Hrun]]].
    + unfold MAX_RETRIES; lia.
    + intros i Hi. simpl. apply Hfail. unfold MAX_RETRIES; lia.
    + exists last,
        (tr0 ++ [Sent requestFn; Received requestFn (Rejected (AxiosError (Some last)))]).
      split; [exact Hlast|split].
      * unfold Script.exec, requestWithRetry. fold runS.
        change MAX_RETRIES with (4 + 1) at 1.
        rewrite Hrun. unfold runS. simpl. rewrite Hlast, Hretry. reflexivity.
      * rewrite attempts_app, Ha. reflexivity.
Qed.

(** C5. A first failure that is not a 503/504 response is propagated as it
    is after one attempt: no retry, no delay, no warning. *)
Theorem requestWithRetry_no_retry_on_permanent_failure (e : Err) :
  Script.reply s 0 = Rejected e ->
  transient e = false ->
  Script.exec s (requestWithRetry requestFn) =
    (Rejected e, [Sent requestFn; Received requestFn (Rejected e)])
  /\ attempts [Sent requestFn; Received requestFn (Rejected (T:=T) e)] = 1
  /\ delays [Sent requestFn; Received requestFn (Rejected (T:=T) e)] = [].
Proof.
  intros Hreply Hperm. split; [|split; reflexivity].
  unfold Script.exec, requestWithRetry. simpl. rewrite Hreply.
  destruct e as [[status|]|m st at_|  |m]; simpl in *; try reflexivity.
  rewrite Hperm. reflexivity.
Qed.
End RetryScript.

(** ** The reference resolver *)

Lemma groupIds_spec (g : ReferenceGroup.t) (x : string) :
  In x (groupIds g) <->
  exists references, ReferenceGroup.references g = Some references /\
                     In (Reference.mk x) references.
Proof.
  unfold groupIds. destruct (ReferenceGroup.references g) as [l|]; split.
  - intro H. apply in_map_iff in H. destruct H as [[c] [<- H]]. eauto.
  - intros [l' [[= <-] H]]. apply in_map_iff. exists (Reference.mk x). auto.
  - intros [].
  - intros [l' [[=] _]].
Qed.

Lemma flatten_spec (result : list ReferenceGroup.t) :
  exists ids, flatten (QueryResult (Some result)) = Some ids /\
    forall x, In x ids <->
      exists g references, In g result /\
        ReferenceGroup.references g = Some references /\
        In (Reference.mk x) references.
Proof.
  exists (flat_map groupIds result). split; [reflexivity|].
  intro x. rewrite in_flat_map. split.
  - intros [g [Hg Hx]]. apply groupIds_spec in Hx. destruct Hx as [l [Hl Hx]]. eauto.
  - intros [g [l [Hg [Hl Hx]]]]. exists g. split; auto. apply groupIds_spec. eauto.
Qed.

Lemma flatten_absent_lists (result : list ReferenceGroup.t) :
  (forall g, In g result -> ReferenceGroup.references g = None) ->
  flatten (QueryResult (Some result)) = Some [].
Proof.
  intro H. simpl. f_equal. induction result as [|g l IH]; simpl; auto.
  unfold groupIds at 1. rewrite (H g) by (left; reflexivity). simpl.
  apply IH. intros g' Hg'. apply H. now right.
Qed.

(** C6. Whatever the service and the retry client do, [getDependencies]
    resolves: with the flattened identifiers when the request succeeded with
    a well-formed body, with the empty list when the request failed (network
    error, any status, retries exhausted) or the body is malformed.  An
    absent or empty [result] and absent [references] give no identifier. *)
Theorem getDependencies_recovers_locally
    (W : Type) (respond : QueryBody.t -> W -> Outcome QueryData * W)
    (random : W -> Q * W) (componentId : string) (version : option Z) (w : W) :
  (exists tr',
     run respond random (getDependencies componentId version) w =
     let '(r, w', tr) :=
       run respond random (requestWithRetry (QueryBody.mk componentId version)) w in
     (Resolved match r with
               | Resolved data =>
                   match flatten data with Some ids => ids | None => [] end
               | Rejected _ => []
               end, w', tr ++ tr'))
  /\ flatten (QueryResult None) = Some []
  /\ flatten (QueryResult (Some [])) = Some []
  /\ (forall result,
        (forall g, In g result -> ReferenceGroup.references g = None) ->
        flatten (QueryResult (Some result)) = Some [])
  /\ (forall result, exists ids,
        flatten (QueryResult (Some result)) = Some ids /\
        forall x, In x ids <->
          exists g references, In g result /\
            ReferenceGroup.references g = Some references /\
            In (Reference.mk x) references).
Proof.
  split; [|split; [reflexivity|split; [reflexivity|split]]].
  - unfold getDependencies. rewrite run_try_catch, run_bind.
    destruct (run respond random (requestWithRetry (QueryBody.mk componentId version)) w)
      as [[[data|e] w'] tr].
    + destruct (flatten data) as [ids|]; simpl.
      * exists []. reflexivity.
      * exists [Printed (DependenciesError componentId TypeError)].
        now rewrite app_nil_r.
    + simpl. exists [Printed (DependenciesError componentId e)]. reflexivity.
  - apply flatten_absent_lists.
  - apply flatten_spec.
Qed.

(** ** One turn of a resolver *)

Section ResumeLemmas.
Variables (W Rq T R : Type).
Variable respond : Rq -> W -> Outcome T * W.
Variable random : W -> Q * W.
Variables (rq : Rq) (f : T -> Prog Rq T R) (h : Err -> Prog Rq T R).

Lemma resume_resolved r a w v w1 :
  respond rq w = (Resolved v, w1) ->
  resume respond random (retryFrom rq f h (S r) a) w =
  let '(c, w2, evs) := advance random (try_catch (f v) h) w1 in
  Some (c, w2, Received rq (Resolved v) :: evs).
Proof.
  intro H. unfold resume, retryFrom. simpl. rewrite H. simpl.
  destruct (advance random (try_catch (f v) h) w1) as [[c w2] evs]. reflexivity.
Qed.

Lemma resume_permanent r a w e w1 :
  respond rq w = (Rejected e, w1) -> transient e = false ->
  resume respond random (retryFrom rq f h (S r) a) w =
  let '(c, w2, evs) := advance random (h e) w1 in
  Some (c, w2, Received rq (Rejected e) :: evs).
Proof.
  intros H Ht. unfold resume, retryFrom. simpl. rewrite H.
  destruct e as [[status|]|m st at_| |m]; simpl in Ht |- *;
    try rewrite Ht; simpl;
    match goal with
    | |- context [advance random ?p w1] =>
        destruct (advance random p w1) as [[c w2] evs]
    end; reflexivity.
Qed.

Lemma resume_exhausted r w status w1 :
  respond rq w = (Rejected (AxiosError (Some status)), w1) ->
  retryable status = true ->
  resume respond random (retryFrom rq f h (S r) MAX_RETRIES) w =
  let '(c, w2, evs) :=
    advance random
      (h (ApiError (FailedAfter MAX_RETRIES status) (Some status) (Some MAX_RETRIES))) w1 in
  Some (c, w2, Received rq (Rejected (AxiosError (Some status))) :: evs).
Proof.
  intros H Hr. unfold resume, retryFrom. simpl. rewrite H, Hr. simpl.
  match goal with
  | |- context [advance random ?p w1] =>
      destruct (advance random p w1) as [[c w2] evs]
  end; reflexivity.
Qed.

Lemma resume_retry r a w status w1 x w2 :
  respond rq w = (Rejected (AxiosError (Some status)), w1) ->
  retryable status = true ->
  a <> MAX_RETRIES ->
  random w1 = (x, w2) ->
  resume respond random (retryFrom rq f h (S r) a) w =
  Some (Waiting (Sleep (backoff a x) (retryFrom rq f h r (S a))), w2,
        [Received rq (Rejected (AxiosError (Some status)));
         Printed (RetryWarning status (backoff a x) a)]).
Proof.
  intros H Hr Ha Hx. unfold resume, retryFrom. simpl. rewrite H, Hr.
  apply Nat.eqb_neq in Ha. rewrite Ha. simpl. rewrite Hx. reflexivity.
Qed.

Lemma resume_timer r a w ms :
  resume respond random (Sleep ms (retryFrom rq f h (S r) a)) w =
  Some (Waiting (retryFrom rq f h (S r) a), w, [Slept ms; Sent rq]).
Proof. reflexivity. Qed.
End ResumeLemmas.

(** ** Every turn of the traversal is a [transition] *)

Section StepLemmas.
Variable W : Type.
Variable get : string -> W -> Outcome Metadata.t * W.
Variable post : QueryBody.t -> W -> Outcome QueryData * W.
Variable random : W -> Q * W.


Lemma recursiveHelper_explicit (componentId : string) (st : State W) :
  _recursiveHelper random componentId st =
  (if map_has componentId (nodesMap st) then
     mkState (world st) (nodesMap st) (edges st) (tasks st)
             (settled st ++ [(fresh st, Resolved tt)]) (S (fresh st)) (trace st)
   else
     mkState (world st) (nodesMap st) (edges st)
             (tasks st ++ [mkTask (fresh st)
                             (AwaitMetadata componentId
                                (Waiting (metadataFrom componentId MAX_RETRIES 1)))])
             (settled st) (S (fresh st))
             (trace st ++ [MetadataEvent (Sent componentId)]),
   fresh st).
Proof.
  unfold _recursiveHelper. simpl.
  destruct (map_has componentId (nodesMap st)); reflexivity.
Qed.

Lemma discover_explicit (componentId : string) (ids : list string) :
  forall st : State W,
    discover random componentId ids st =
    (mkState (world st) (nodesMap st)
             (edges st ++ map (Edge.mk componentId) ids)
             (tasks st ++ spawned (fresh st) (nodesMap st) ids)
             (settled st ++ returned (fresh st) (nodesMap st) ids)
             (fresh st + length ids)
             (trace st ++ requested (nodesMap st) ids),
     seq (fresh st) (length ids)).
Proof.
  induction ids as [|depId rest IH]; intro st.
  - simpl. rewrite !app_nil_r, Nat.add_0_r. destruct st; reflexivity.
  - cbn [discover]. rewrite recursiveHelper_explicit. cbn [nodesMap fresh].
    destruct (map_has depId (nodesMap st)) eqn:Hhas;
      rewrite IH; cbn [world nodesMap edges tasks settled fresh trace];
      cbn [spawned returned requested map length seq]; rewrite Hhas;
      rewrite <- !app_assoc; cbn [app]; rewrite Nat.add_succ_r; reflexivity.
Qed.

Lemma after_metadata_found p componentId (info : ComponentInfo.t) (st : State W) :
  after_metadata random p componentId (Resolved (Some info)) st =
  mkState (world st)
    (map_set componentId
       (Node.mk (ComponentInfo.id info) (ComponentInfo.name info) (ComponentInfo.type info))
       (nodesMap st))
    (edges st)
    (tasks st ++
     [mkTask p (AwaitDependencies componentId
                  (Waiting (dependenciesFrom componentId (ComponentInfo.version info)
                              MAX_RETRIES 1)))])
    (settled st) (fresh st)
    (trace st ++
     [ReferenceEvent (Sent (QueryBody.mk componentId (ComponentInfo.version info)))]).
Proof. reflexivity. Qed.

Lemma after_dependencies_listed p componentId ids (st : State W) :
  after_dependencies random p componentId (Resolved ids) st =
  mkState (world st) (nodesMap st)
    (edges st ++ map (Edge.mk componentId) ids)
    ((tasks st ++ spawned (fresh st) (nodesMap st) ids) ++
     [mkTask p (AwaitAll componentId (seq (fresh st) (length ids)))])
    (settled st ++ returned (fresh st) (nodesMap st) ids)
    (fresh st + length ids)
    (trace st ++ requested (nodesMap st) ids).
Proof.
  unfold after_dependencies. rewrite discover_explicit. reflexivity.
Qed.

Lemma Some_eq {A} (x y : A) : Some x = Some y -> x = y.
Proof. now intros [= ->]. Qed.

Ltac tidy :=
  unfold others, observe, drop_task, suspend, settle;
  cbn [world nodesMap edges tasks settled fresh trace map app
       ComponentInfo.id ComponentInfo.name ComponentInfo.type ComponentInfo.version].

Ltac tidy_in H :=
  unfold observe, drop_task, suspend, settle in H;
  cbn [world nodesMap edges tasks settled fresh trace map app
       ComponentInfo.id ComponentInfo.name ComponentInfo.type ComponentInfo.version
       advance try_catch bind] in H.

Lemma transition_eq (st s1 s2 : State W) :
  transition get post random st s1 -> s1 = s2 -> transition get post random st s2.
Proof. now intros H <-. Qed.

Lemma step_at_transition (st st' : State W) (p : nat) :
  shaped st -> step_at get post random p st = Some st' ->
  promise_state st 0 = None /\ transition get post random st st'.
Proof.
  intros Hsh Hstep. unfold step_at in Hstep.
  destruct (promise_state st 0) eqn:H0; [discriminate|]. split; [reflexivity|].
  destruct (find_task p (tasks st)) as [t|] eqn:Hfind; [|discriminate].
  apply find_some in Hfind. destruct Hfind as [Hin Hp]. apply Nat.eqb_eq in Hp.
  specialize (Hsh t Hin). destruct t as [p' v].
  cbn [promise visit] in Hp, Hsh, Hstep. subst p'.
  destruct v as [cid c|cid c|cid ps].
  - inversion Hsh as [r a Hra Hc|r a ms Hra Hc]; subst c.
    + destruct (existsb (microtask st) (tasks st)); [discriminate|].
      unfold metadataFrom in Hstep.
      destruct (get cid (world st)) as [[data|e] w1] eqn:Hget.
      * erewrite resume_resolved in Hstep by eassumption.
        cbn [advance try_catch] in Hstep. apply Some_eq in Hstep; subst st'.
        rewrite after_metadata_found.
        eapply transition_eq; [eapply metadata_found; eauto|].
        tidy. rewrite <- app_assoc. reflexivity.
      * destruct (transient e) eqn:Ht.
        -- destruct e as [[status|]|? ? ?| |?]; try discriminate.
           cbn [transient] in Ht.
           destruct (Nat.eq_dec a MAX_RETRIES) as [->|Ha].
           ++ erewrite resume_exhausted in Hstep by eassumption.
              cbn [notFound advance] in Hstep. apply Some_eq in Hstep; subst st'.
              eapply transition_eq;
                [eapply metadata_failed with (e' := ApiError _ _ _); eauto;
                 right; exists status; repeat split; auto|].
              reflexivity.
           ++ destruct (random w1) as [x w2] eqn:Hx.
              erewrite resume_retry in Hstep by eassumption.
              apply Some_eq in Hstep; subst st'.
              eapply transition_eq; [eapply metadata_retry; eauto|].
              reflexivity.
        -- erewrite resume_permanent in Hstep by eassumption.
           destruct (notFound e) eqn:Hnf; cbn [advance] in Hstep;
             apply Some_eq in Hstep; subst st'.
           ++ eapply transition_eq; [eapply metadata_absent; eauto|]. reflexivity.
           ++ eapply transition_eq;
                [eapply metadata_failed with (e' := e); eauto; left; auto|].
              reflexivity.
    + destruct (existsb (microtask st) (tasks st)); [discriminate|].
      unfold metadataFrom in Hstep. rewrite resume_timer in Hstep.
      apply Some_eq in Hstep; subst st'.
      eapply transition_eq; [eapply metadata_timer; eauto|]. reflexivity.
  - destruct Hsh as [version Hsh].
    inversion Hsh as [r a Hra Hc|r a ms Hra Hc]; subst c.
    + destruct (existsb (microtask st) (tasks st)); [discriminate|].
      unfold dependenciesFrom in Hstep.
      destruct (post (QueryBody.mk cid version) (world st)) as [[data|e] w1] eqn:Hpost.
      * erewrite resume_resolved in Hstep by eassumption.
        destruct (flatten data) as [ids|] eqn:Hflat;
          cbn [advance try_catch] in Hstep; apply Some_eq in Hstep; subst st'.
        -- rewrite after_dependencies_listed.
           eapply transition_eq; [eapply dependencies_listed; eauto|].
           reflexivity.
        -- rewrite after_dependencies_listed.
           eapply transition_eq;
             [eapply dependencies_unknown with (e := TypeError); eauto;
              intros d ids [= <-] Hf; congruence|].
           tidy. cbn [spawned returned requested length seq map].
              rewrite !app_nil_r, Nat.add_0_r. reflexivity.
      * destruct (transient e) eqn:Ht.
        -- destruct e as [[status|]|? ? ?| |?]; try discriminate.
           cbn [transient] in Ht.
           destruct (Nat.eq_dec a MAX_RETRIES) as [->|Ha].
           ++ erewrite resume_exhausted in Hstep by eassumption.
              cbn [advance] in Hstep. apply Some_eq in Hstep; subst st'.
              rewrite after_dependencies_listed.
              eapply transition_eq;
                [eapply dependencies_unknown with (e := ApiError _ _ _); eauto;
                 intros d ids [=]|].
              tidy. cbn [spawned returned requested length seq map].
              rewrite !app_nil_r, Nat.add_0_r. reflexivity.
           ++ destruct (random w1) as [x w2] eqn:Hx.
              erewrite resume_retry in Hstep by eassumption.
              apply Some_eq in Hstep; subst st'.
              eapply transition_eq; [eapply dependencies_retry; eauto|].
              reflexivity.
        -- erewrite resume_permanent in Hstep by eassumption.
           cbn [advance] in Hstep. apply Some_eq in Hstep; subst st'.
           rewrite after_dependencies_listed.
           eapply transition_eq;
             [eapply dependencies_unknown with (e := e); eauto;
              intros d ids [=]|].
           tidy. cbn [spawned returned requested length seq map].
              rewrite !app_nil_r, Nat.add_0_r. reflexivity.
    + destruct (existsb (microtask st) (tasks st)); [discriminate|].
      unfold dependenciesFrom in Hstep. rewrite resume_timer in Hstep.
      apply Some_eq in Hstep; subst st'.
      eapply transition_eq; [eapply dependencies_timer; eauto|]. reflexivity.
  - destruct (promise_all st ps) as [o|] eqn:Hall; [|discriminate].
    apply Some_eq in Hstep; subst st'.
    eapply transition_eq; [eapply joined; eauto|]. reflexivity.
Qed.

Lemma start_explicit (rootId : string) (w : W) :
  start random rootId w =
  mkState w [] [] [mkTask 0 (AwaitMetadata rootId (Waiting (metadataFrom rootId MAX_RETRIES 1)))]
          [] 1 [MetadataEvent (Sent rootId)].
Proof. unfold start. rewrite recursiveHelper_explicit. reflexivity. Qed.

Lemma in_others (p : nat) (st : State W) (t : Task) :
  In t (others p st) <-> In t (tasks st) /\ promise t <> p.
Proof.
  unfold others. rewrite filter_In, negb_true_iff, Nat.eqb_neq. tauto.
Qed.

Lemma in_spawned (t : Task) (ids : list string) nodes :
  forall p, In t (spawned p nodes ids) ->
    exists depId,
      t = mkTask (promise t)
                 (AwaitMetadata depId (Waiting (metadataFrom depId MAX_RETRIES 1))) /\
      p <= promise t < p + length ids /\ In depId ids /\ map_has depId nodes = false.
Proof.
  induction ids as [|depId rest IH]; intros p H; [destruct H|].
  cbn [spawned] in H. apply in_app_or in H. destruct H as [H|H].
  - destruct (map_has depId nodes) eqn:Hhas; [destruct H|].
    destruct H as [<-|[]]. exists depId. cbn. repeat split; auto; lia.
  - destruct (IH _ H) as [d [Ht [Hp [Hd Hhas]]]].
    exists d. cbn [length]. repeat split; auto; try lia. now right.
Qed.

Lemma spawned_complete (ids : list string) nodes depId :
  In depId ids -> map_has depId nodes = false ->
  forall p, exists q c, In (mkTask q (AwaitMetadata depId c)) (spawned p nodes ids).
Proof.
  induction ids as [|d rest IH]; intros Hin Hhas p; [destruct Hin|].
  cbn [spawned]. destruct Hin as [->|Hin].
  - rewrite Hhas. eexists _, _. left. reflexivity.
  - destruct (IH Hin Hhas (S p)) as [q [c H]]. exists q, c.
    apply in_or_app. now right.
Qed.

Lemma in_returned (ids : list string) nodes q o :
  forall p, In (q, o) (returned p nodes ids) ->
    o = Resolved tt /\ p <= q < p + length ids.
Proof.
  induction ids as [|depId rest IH]; intros p H; [destruct H|].
  cbn [returned] in H. apply in_app_or in H. destruct H as [H|H].
  - destruct (map_has depId nodes); [|destruct H].
    destruct H as [[= <- <-]|[]]. cbn. split; auto; lia.
  - destruct (IH _ H) as [Ho Hq]. cbn [length]. split; auto; lia.
Qed.

Lemma in_requested (ids : list string) nodes ev :
  In ev (requested nodes ids) ->
  exists depId, ev = MetadataEvent (Sent depId) /\ In depId ids.
Proof.
  induction ids as [|depId rest IH]; intro H; [destruct H|].
  cbn [requested] in H. apply in_app_or in H. destruct H as [H|H].
  - destruct (map_has depId nodes); [destruct H|].
    destruct H as [<-|[]]. exists depId. split; auto. now left.
  - destruct (IH H) as [d [Hev Hd]]. exists d. split; auto. now right.
Qed.

(** Each index [p + i] is in [spawned] or in [returned]. *)
Lemma spawned_or_returned (ids : list string) nodes :
  forall p q, p <= q < p + length ids ->
    (exists depId c, In (mkTask q (AwaitMetadata depId c)) (spawned p nodes ids)) \/
    In (q, Resolved tt) (returned p nodes ids).
Proof.
  induction ids as [|depId rest IH]; intros p q Hq; cbn [length] in Hq; [lia|].
  cbn [spawned returned].
  destruct (Nat.eq_dec q p) as [->|Hne].
  - destruct (map_has depId nodes).
    + right. now left.
    + left. eexists _, _. left. reflexivity.
  - destruct (IH (S p) q) as [[d [c H]]|H]; [lia| |].
    + left. exists d, c. apply in_or_app. now right.
    + right. apply in_or_app. now right.
Qed.

Lemma transition_shaped (st st' : State W) :
  shaped st -> transition get post random st st' -> shaped st'.
Proof.
  intros Hsh Htr t Hin.
  assert (Hold : forall p, In t (others p st) ->
            match visit t with
            | AwaitMetadata componentId c => retrying (metadataFrom componentId) c
            | AwaitDependencies componentId c =>
                exists version, retrying (dependenciesFrom componentId version) c
            | AwaitAll _ _ => True
            end).
  { intros p H. apply in_others in H. apply Hsh, H. }
  inversion Htr; subst; cbn [tasks] in Hin;
    repeat (apply in_app_or in Hin; destruct Hin as [Hin|Hin]);
    try (eapply Hold; eassumption);
    try (destruct Hin as [<-|[]]; cbn [visit]).
  - destruct r as [|r']; [lia|]. apply retrying_delay. lia.
  - now apply retrying_request.
  - exists (Metadata.version data). apply (retrying_request _ 4 1). reflexivity.
  - destruct r as [|r']; [lia|]. exists version. apply retrying_delay. lia.
  - exists version. now apply retrying_request.
  - apply in_spawned in Hin. destruct Hin as [d [-> _]]. cbn [visit].
    apply (retrying_request _ 4 1). reflexivity.
  - exact I.
  - exact I.
Qed.

Lemma reachable_shaped (rootId : string) (w : W) (st : State W) :
  reachable get post random rootId w st -> shaped st.
Proof.
  induction 1 as [|st st' Hr IH [p Hstep]].
  - rewrite start_explicit. intros t [<-|[]]. cbn [visit].
    apply (retrying_request _ 4 1). reflexivity.
  - eapply transition_shaped; [exact IH|]. eapply step_at_transition; eauto.
Qed.

Lemma step_transition (rootId : string) (w : W) (st st' : State W) :
  reachable get post random rootId w st -> step get post random st st' ->
  promise_state st 0 = None /\ transition get post random st st'.
Proof.
  intros Hr [p Hstep]. eapply step_at_transition; eauto. eapply reachable_shaped; eauto.
Qed.

(** Induction over the reachable states, turn by turn. *)
Lemma reachable_transition_ind (rootId : string) (w : W) (P : State W -> Prop) :
  P (start random rootId w) ->
  (forall st st',
      reachable get post random rootId w st -> P st ->
      promise_state st 0 = None ->
      transition get post random st st' -> P st') ->
  forall st, reachable get post random rootId w st -> P st.
Proof.
  intros Hstart Hstep st Hr. induction Hr as [|st st' Hr IH Hs]; [exact Hstart|].
  destruct (step_transition _ _ _ _ Hr Hs) as [H0 Htr]. eapply Hstep; eauto.
Qed.

(** *** Promises *)

Lemma find_append {A} (f : A -> bool) (l1 l2 : list A) :
  find f (l1 ++ l2) = match find f l1 with Some x => Some x | None => find f l2 end.
Proof.
  induction l1 as [|a l IH]; cbn; [reflexivity|]. destruct (f a); auto.
Qed.

Lemma promise_state_in (st : State W) (q : nat) (o : Outcome unit) :
  promise_state st q = Some o -> In (q, o) (settled st).
Proof.
  unfold promise_state. destruct (find _ _) as [[q' o']|] eqn:Hf; [|discriminate].
  intros [= <-]. apply find_some in Hf. destruct Hf as [Hin Hq].
  apply Nat.eqb_eq in Hq. cbn in Hq. now subst.
Qed.

Lemma in_promise_state (st : State W) (q : nat) (o : Outcome unit) :
  In (q, o) (settled st) -> promise_state st q <> None.
Proof.
  unfold promise_state. intros Hin Hnone.
  destruct (find _ _) as [x|] eqn:Hf; [discriminate|].
  apply (find_none _ _ Hf) in Hin. cbn in Hin. now rewrite Nat.eqb_refl in Hin.
Qed.

Lemma promise_state_same (st st' : State W) (q : nat) :
  settled st' = settled st -> promise_state st' q = promise_state st q.
Proof. unfold promise_state. now intros ->. Qed.

Lemma promise_state_more (st st' : State W) (more : list (nat * Outcome unit)) (q : nat) :
  settled st' = settled st ++ more ->
  promise_state st' q =
  match promise_state st q with
  | Some o => Some o
  | None => option_map snd (find (fun s => Nat.eqb (fst s) q) more)
  end.
Proof.
  unfold promise_state. intros ->. rewrite find_append.
  destruct (find _ (settled st)); reflexivity.
Qed.

Lemma promise_state_settle (st st' : State W) (p q : nat) (o : Outcome unit) :
  settled st' = settled st ++ [(p, o)] ->
  promise_state st' q =
  match promise_state st q with
  | Some x => Some x
  | None => if Nat.eqb p q then Some o else None
  end.
Proof.
  intro H. rewrite (promise_state_more st st' _ q H). cbn.
  destruct (promise_state st q); auto. destruct (Nat.eqb p q); reflexivity.
Qed.

Lemma fulfilled_more (st st' : State W) (more : list (nat * Outcome unit)) (q : nat) :
  settled st' = settled st ++ more ->
  fulfilled st q = true -> fulfilled st' q = true.
Proof.
  intros H. unfold fulfilled. rewrite (promise_state_more st st' _ q H).
  destruct (promise_state st q) as [[]|]; auto; discriminate.
Qed.

Lemma rejected_more (st st' : State W) (more : list (nat * Outcome unit)) (p : nat) :
  settled st' = settled st ++ more -> rejected st p -> rejected st' p.
Proof.
  intros H [e He]. exists e. now rewrite (promise_state_more st st' _ p H), He.
Qed.

Lemma promise_all_fulfilled (st : State W) (ps : list nat) (x : unit) :
  promise_all st ps = Some (Resolved x) ->
  forall q, In q ps -> fulfilled st q = true.
Proof.
  unfold promise_all. destruct (find _ (settled st)) as [[q' o']|] eqn:Hf.
  - apply find_some in Hf. destruct Hf as [_ Hf]. cbn in Hf.
    destruct o'; [discriminate|]. intros [=].
  - destruct (forallb (fulfilled st) ps) eqn:Hall; [|discriminate].
    intros _ q Hq. rewrite forallb_forall in Hall. now apply Hall.
Qed.

Lemma promise_all_rejected (st : State W) (ps : list nat) (e : Err) :
  promise_all st ps = Some (Rejected e) ->
  exists q, In q ps /\ In (q, Rejected e) (settled st).
Proof.
  unfold promise_all. destruct (find _ (settled st)) as [[q' o']|] eqn:Hf.
  - apply find_some in Hf. destruct Hf as [Hin Hf]. cbn in Hf.
    destruct o' as [|e']; [discriminate|]. intros [= ->].
    apply existsb_exists in Hf. destruct Hf as [q [Hq Heq]].
    apply Nat.eqb_eq in Heq. subst q'. exists q. auto.
  - destruct (forallb (fulfilled st) ps); discriminate.
Qed.

Lemma returned_lookup (ids : list string) nodes q :
  forall p,
    match option_map snd (find (fun s => Nat.eqb (fst s) q) (returned p nodes ids)) with
    | Some o => o = Resolved tt /\ p <= q < p + length ids
    | None => forall o, ~ In (q, o) (returned p nodes ids)
    end.
Proof.
  intro p. destruct (find _ _) as [[q' o']|] eqn:Hf; cbn.
  - apply find_some in Hf. destruct Hf as [Hin Hq]. apply Nat.eqb_eq in Hq.
    cbn in Hq. subst q'. eapply in_returned; eauto.
  - intros o Hin. apply (find_none _ _ Hf) in Hin. cbn in Hin.
    now rewrite Nat.eqb_refl in Hin.
Qed.

Lemma spawned_returned_disjoint (ids : list string) nodes (t : Task) o :
  forall p, In t (spawned p nodes ids) -> In (promise t, o) (returned p nodes ids) -> False.
Proof.
  induction ids as [|depId rest IH]; intros p Hs Hr; [destruct Hs|].
  cbn [spawned returned] in Hs, Hr.
  apply in_app_or in Hs. apply in_app_or in Hr.
  destruct (map_has depId nodes).
  - destruct Hs as [[]|Hs]. destruct Hr as [[[= Hp _]|[]]|Hr].
    + apply in_spawned in Hs. destruct Hs as [_ [_ [Hs _]]]. lia.
    + eauto.
  - destruct Hr as [[]|Hr]. destruct Hs as [[<-|[]]|Hs].
    + apply in_returned in Hr. cbn in Hr. lia.
    + eauto.
Qed.

Lemma spawned_NoDup (ids : list string) nodes :
  forall p, NoDup (map promise (spawned p nodes ids)).
Proof.
  induction ids as [|depId rest IH]; intro p; cbn [spawned]; [constructor|].
  destruct (map_has depId nodes); cbn; [apply IH|].
  constructor; [|apply IH]. intro H. apply in_map_iff in H.
  destruct H as [t [Hp Ht]]. apply in_spawned in Ht.
  destruct Ht as [_ [_ [Ht _]]]. lia.
Qed.

Lemma others_NoDup (p : nat) (st : State W) :
  NoDup (map promise (tasks st)) -> NoDup (map promise (others p st)).
Proof.
  unfold others. induction (tasks st) as [|t l IH]; cbn; [constructor|].
  intro H. inversion H as [|? ? Hnin Hnd]; subst.
  destruct (negb (Nat.eqb (promise t) p)); cbn; auto.
  constructor; auto. intro Hin. apply Hnin.
  apply in_map_iff in Hin. destruct Hin as [t' [Hp Ht']].
  apply filter_In in Ht'. apply in_map_iff. exists t'. tauto.
Qed.

Lemma others_not_in (p : nat) (st : State W) : ~ In p (map promise (others p st)).
Proof.
  intro H. apply in_map_iff in H. destruct H as [t [Hp Ht]].
  apply in_others in Ht. tauto.
Qed.

Lemma task_unique (st : State W) (t1 t2 : Task) :
  NoDup (map promise (tasks st)) ->
  In t1 (tasks st) -> In t2 (tasks st) -> promise t1 = promise t2 -> t1 = t2.
Proof.
  induction (tasks st) as [|t l IH]; intros Hnd H1 H2 Hp; [destruct H1|].
  cbn in Hnd. inversion Hnd as [|? ? Hnin Hnd']; subst.
  destruct H1 as [->|H1], H2 as [->|H2]; auto.
  - exfalso. apply Hnin. rewrite Hp. now apply in_map.
  - exfalso. apply Hnin. rewrite <- Hp. now apply in_map.
Qed.

Lemma consistent_replace (st st' : State W) (p : nat) (v v' : Visit) :
  promises_consistent st ->
  In (mkTask p v) (tasks st) ->
  (forall c ps, v <> AwaitAll c ps) ->
  (forall c ps, v' = AwaitAll c ps -> ps = []) ->
  tasks st' = others p st ++ [mkTask p v'] ->
  settled st' = settled st ->
  fresh st' = fresh st ->
  promises_consistent st'.
Proof.
  intros (Hnd & Htask & Hset & Hall & Htree) Hin Hv Hv' Ht Hs Hf.
  assert (Hps : forall q, promise_state st' q = promise_state st q)
    by (intro q; now apply promise_state_same).
  unfold promises_consistent. rewrite Ht, Hf.
  split; [|split; [|split; [|split]]].
  - rewrite map_app. cbn. apply NoDup_app_remove_l with (l := []). cbn.
    apply Permutation_NoDup with (l := p :: map promise (others p st)).
    + apply Permutation_cons_append.
    + constructor; [apply others_not_in|now apply others_NoDup].
  - intros t Hint. rewrite Hps. apply in_app_or in Hint.
    destruct Hint as [Hint|[<-|[]]].
    + apply in_others in Hint. apply Htask, Hint.
    + apply (Htask _ Hin).
  - intros q Hq. rewrite Hps in Hq. auto.
  - intros q Hq. rewrite Hps. destruct (Hall q Hq) as [[t [Hint Hp]]|Hsome]; auto.
    left. destruct (Nat.eq_dec q p) as [->|Hne].
    + exists (mkTask p v'). split; auto. apply in_or_app. right. now left.
    + exists t. split; auto. apply in_or_app. left. apply in_others. split; auto. congruence.
  - intros q Hq Hnf. unfold fulfilled in Hnf. rewrite Hps in Hnf.
    destruct (Htree q Hq Hnf) as [p0 [Hlt [[c [ps [Hj Hqps]]]|[e He]]]].
    + exists p0. split; auto. left. exists c, ps. split; auto.
      apply in_or_app. left. apply in_others. split; auto. cbn.
      intros ->. apply (Hv c ps).
      assert (E : mkTask p v = mkTask p (AwaitAll c ps))
        by (eapply task_unique; eauto).
      now injection E.
    + exists p0. split; auto. right. exists e. now rewrite Hps.
Qed.

Lemma consistent_settle (st st' : State W) (p : nat) (v : Visit) (o : Outcome unit) :
  promises_consistent st ->
  In (mkTask p v) (tasks st) ->
  (forall c ps, v = AwaitAll c ps ->
     forall x, o = Resolved x -> forall q, In q ps -> fulfilled st q = true) ->
  tasks st' = others p st ->
  settled st' = settled st ++ [(p, o)] ->
  fresh st' = fresh st ->
  promises_consistent st'.
Proof.
  intros (Hnd & Htask & Hset & Hall & Htree) Hin Hv Ht Hs Hf.
  assert (Hps : forall q, promise_state st' q =
                          match promise_state st q with
                          | Some x => Some x
                          | None => if Nat.eqb p q then Some o else None
                          end)
    by (intro q; now apply promise_state_settle).
  destruct (Htask _ Hin) as [Hp Hnone]. cbn [promise] in Hp, Hnone.
  unfold promises_consistent. rewrite Ht, Hf.
  split; [|split; [|split; [|split]]].
  - now apply others_NoDup.
  - intros t Hint. apply in_others in Hint. destruct Hint as [Hint Hne].
    destruct (Htask _ Hint) as [Hlt Hn]. split; auto.
    rewrite Hps, Hn. apply Nat.eqb_neq in Hne. rewrite Nat.eqb_sym in Hne.
    now rewrite Hne.
  - intros q Hq. rewrite Hps in Hq. destruct (promise_state st q) eqn:E.
    + apply Hset. congruence.
    + destruct (Nat.eqb_spec p q); [now subst|congruence].
  - intros q Hq. rewrite Hps.
    destruct (Hall q Hq) as [[t [Hint Hpt]]|Hsome].
    + destruct (Nat.eq_dec q p) as [->|Hne].
      * right. rewrite Hnone, Nat.eqb_refl. discriminate.
      * left. exists t. split; auto. apply in_others. split; auto. congruence.
    + right. destruct (promise_state st q); [discriminate|congruence].
  - intros q Hq Hnf.
    assert (Hnf0 : fulfilled st q = false).
    { destruct (fulfilled st q) eqn:E; auto.
      erewrite fulfilled_more in Hnf; eauto. }
    destruct (Htree q Hq Hnf0) as [p0 [Hlt [[c [ps [Hj Hqps]]]|Hrej]]].
    + exists p0. split; auto.
      destruct (Nat.eq_dec p0 p) as [->|Hne].
      * assert (E : mkTask p v = mkTask p (AwaitAll c ps))
          by (eapply task_unique; eauto).
        injection E as ->. right.
        destruct o as [x|e].
        -- rewrite (Hv c ps eq_refl x eq_refl q Hqps) in Hnf0. discriminate.
        -- exists e. now rewrite Hps, Hnone, Nat.eqb_refl.
      * left. exists c, ps. split; auto. apply in_others. split; auto.
    + exists p0. split; auto. right. eapply rejected_more; eauto.
Qed.

Lemma consistent_listed (st st' : State W) (p : nat) (v : Visit)
    (componentId : string) (ids : list string) nodes :
  promises_consistent st ->
  In (mkTask p v) (tasks st) ->
  (forall c ps, v <> AwaitAll c ps) ->
  tasks st' = (others p st ++ spawned (fresh st) nodes ids) ++
              [mkTask p (AwaitAll componentId (seq (fresh st) (length ids)))] ->
  settled st' = settled st ++ returned (fresh st) nodes ids ->
  fresh st' = fresh st + length ids ->
  promises_consistent st'.
Proof.
  intros (Hnd & Htask & Hset & Hall & Htree) Hin Hv Ht Hs Hf.
  assert (Hps : forall q, promise_state st' q =
                  match promise_state st q with
                  | Some o => Some o
                  | None => option_map snd
                              (find (fun s => Nat.eqb (fst s) q)
                                    (returned (fresh st) nodes ids))
                  end)
    by (intro q; now apply promise_state_more).
  destruct (Htask _ Hin) as [Hp Hnone]. cbn [promise] in Hp, Hnone.
  assert (Hold : forall q, q < fresh st -> promise_state st' q = promise_state st q).
  { intros q Hq. rewrite Hps. destruct (promise_state st q); auto.
    pose proof (returned_lookup ids nodes q (fresh st)) as R.
    destruct (option_map _ _); auto. lia. }
  unfold promises_consistent. rewrite Ht, Hf.
  split; [|split; [|split; [|split]]].
  - rewrite !map_app. cbn.
    apply Permutation_NoDup
      with (l := p :: map promise (others p st)
                   ++ map promise (spawned (fresh st) nodes ids)).
    { apply Permutation_cons_append. }
    constructor.
    + intro H. apply in_app_or in H. destruct H as [H|H].
      * now apply others_not_in in H.
      * apply in_map_iff in H. destruct H as [t [Hpt Hint]].
        apply in_spawned in Hint. destruct Hint as (d & _ & Hrange & _). lia.
    + apply NoDup_app; [now apply others_NoDup|apply spawned_NoDup|].
      intros q Hq1 Hq2. apply in_map_iff in Hq1, Hq2.
      destruct Hq1 as [t1 [<- H1]]. destruct Hq2 as [t2 [E H2]].
      apply in_others in H1. destruct H1 as [H1 _]. apply Htask in H1.
      apply in_spawned in H2. destruct H2 as (d & _ & Hrange & _). lia.
  - intros t Hint. apply in_app_or in Hint.
    destruct Hint as [Hint|[<-|[]]]; [apply in_app_or in Hint; destruct Hint as [Hint|Hint]|].
    + apply in_others in Hint. destruct Hint as [Hint _].
      destruct (Htask _ Hint) as [Hlt Hn]. split; [lia|]. now rewrite Hold.
    + pose proof (in_spawned _ _ _ _ Hint) as (d & _ & Hrange & _).
      split; [lia|]. rewrite Hps.
      destruct (promise_state st (promise t)) eqn:E.
      * assert (promise t < fresh st) by (apply Hset; congruence). lia.
      * pose proof (returned_lookup ids nodes (promise t) (fresh st)) as R.
        destruct (find _ _) as [[q' o']|] eqn:Hfind; auto. cbn in R |- *.
        apply find_some in Hfind. destruct Hfind as [Hfin Hq].
        apply Nat.eqb_eq in Hq. cbn in Hq. subst q'.
        exfalso. eapply spawned_returned_disjoint; eauto.
    + cbn [promise]. split; [lia|]. now rewrite Hold.
  - intros q Hq. rewrite Hps in Hq. destruct (promise_state st q) eqn:E.
    + assert (q < fresh st) by (apply Hset; congruence). lia.
    + pose proof (returned_lookup ids nodes q (fresh st)) as R.
      destruct (option_map _ _); [lia|congruence].
  - intros q Hq. destruct (Nat.lt_ge_cases q (fresh st)) as [Hlt|Hge].
    + rewrite Hold by auto.
      destruct (Hall q Hlt) as [[t [Hint Hpt]]|Hsome]; auto.
      left. destruct (Nat.eq_dec q p) as [->|Hne].
      * eexists. split; [apply in_or_app; right; left; reflexivity|reflexivity].
      * exists t. split; auto. apply in_or_app. left. apply in_or_app. left.
        apply in_others. split; auto. congruence.
    + destruct (spawned_or_returned ids nodes (fresh st) q) as [[d [c H]]|H]; [lia| |].
      * left. eexists. split; [apply in_or_app; left; apply in_or_app; right; exact H|].
        reflexivity.
      * right. eapply in_promise_state. rewrite Hs. apply in_or_app. right. exact H.
  - intros q Hq Hnf. destruct (Nat.lt_ge_cases q (fresh st)) as [Hlt|Hge].
    + assert (Hnf0 : fulfilled st q = false).
      { unfold fulfilled in *. now rewrite Hold in Hnf. }
      destruct (Htree q (conj (proj1 Hq) Hlt) Hnf0) as [p0 [Hlt0 [[c [ps [Hj Hqps]]]|Hrej]]].
      * exists p0. split; auto. left. exists c, ps. split; auto.
        apply in_or_app. left. apply in_or_app. left.
        apply in_others. split; auto. cbn. intros ->. apply (Hv c ps).
        assert (E : mkTask p v = mkTask p (AwaitAll c ps))
          by (eapply task_unique; eauto).
        now injection E.
      * exists p0. split; auto. right. eapply rejected_more; eauto.
    + exists p. split; [lia|]. left. eexists _, _. split.
      * apply in_or_app. right. left. reflexivity.
      * apply in_seq. lia.
Qed.

Lemma transition_promises (st st' : State W) :
  promises_consistent st -> transition get post random st st' -> promises_consistent st'.
Proof.
  intros Hc Htr.
  inversion Htr; subst;
    match goal with
    | Hin : In (mkTask ?p ?v) (tasks st)
      |- promises_consistent (mkState _ _ _ (others ?p st ++ [mkTask ?p ?v']) _ _ _) =>
        apply (consistent_replace st _ p v v' Hc Hin);
          [intros ? ? E; discriminate E|intros ? ? E; congruence|reflexivity..]
    | Hin : In (mkTask ?p ?v) (tasks st)
      |- promises_consistent (mkState _ _ _ (others ?p st) (_ ++ [(_, ?o)]) _ _) =>
        apply (consistent_settle st _ p v o Hc Hin); [|reflexivity..]
    | Hin : In (mkTask ?p ?v) (tasks st)
      |- promises_consistent (mkState _ _ _ ((others ?p st ++ _) ++ _) _ _ _) =>
        eapply (consistent_listed st _ p v _ _ _ Hc Hin);
          [intros ? ? E; discriminate E|reflexivity..]
    end.
  - intros ? ? [=].
  - intros ? ? [=].
  - intros c ps0 E x -> q Hq. injection E as <- <-.
    eapply promise_all_fulfilled; eauto.
Qed.

Lemma reachable_promises (rootId : string) (w : W) (st : State W) :
  reachable get post random rootId w st -> promises_consistent st.
Proof.
  apply reachable_transition_ind.
  - rewrite start_explicit. unfold promises_consistent. cbn.
    split; [|split; [|split; [|split]]].
    + repeat constructor. intros [].
    + intros t [<-|[]]. cbn. split; [lia|reflexivity].
    + intros q H. now elim H.
    + intros q Hq. left. eexists. split; [left; reflexivity|]. cbn. lia.
    + intros q Hq. lia.
  - intros st0 st1 _ IH _ Htr. eapply transition_promises; eauto.
Qed.

(** Once promise 0 is fulfilled, so is every promise: nothing is pending and
    nothing was rejected. *)
Lemma fulfilled_all (st : State W) :
  promises_consistent st -> fulfilled st 0 = true ->
  forall q, q < fresh st -> fulfilled st q = true.
Proof.
  intros (Hnd & Htask & Hset & Hall & Htree) H0 q.
  induction q as [q IH] using lt_wf_ind. intro Hq.
  destruct q as [|q]; [exact H0|].
  destruct (fulfilled st (S q)) eqn:E; [reflexivity|].
  destruct (Htree (S q)) as [p [Hlt [[c [ps [Hj Hin]]]|[e He]]]]; [lia|exact E| |].
  - specialize (IH p Hlt ltac:(lia)). unfold fulfilled in IH.
    destruct (Htask _ Hj) as [_ Hn]. cbn in Hn. now rewrite Hn in IH.
  - specialize (IH p Hlt ltac:(lia)). unfold fulfilled in IH. now rewrite He in IH.
Qed.

Lemma fulfilled_settled (rootId : string) (w : W) (st : State W) :
  reachable get post random rootId w st ->
  fulfilled st 0 = true ->
  tasks st = [] /\ forall p, ~ rejected st p.
Proof.
  intros Hr H0. pose proof (reachable_promises _ _ _ Hr) as Hc.
  pose proof (fulfilled_all _ Hc H0) as Hall.
  destruct Hc as (Hnd & Htask & Hset & _ & _). split.
  - destruct (tasks st) as [|t l] eqn:E; [reflexivity|].
    destruct (Htask t) as [Hlt Hn]; [now left|].
    specialize (Hall _ Hlt). unfold fulfilled in Hall. now rewrite Hn in Hall.
  - intros p [e He].
    assert (Hlt : p < fresh st) by (apply Hset; congruence).
    specialize (Hall _ Hlt). unfold fulfilled in Hall. now rewrite He in Hall.
Qed.

(** *** The map of nodes *)

Lemma map_has_keys {V} (k : string) (m : list (string * V)) :
  map_has k m = true <-> In k (map_keys m).
Proof.
  unfold map_has, map_keys. rewrite existsb_exists, in_map_iff. split.
  - intros [[k' v] [Hin Hk]]. apply String.eqb_eq in Hk. cbn in Hk. subst. now exists (k', v).
  - intros [[k' v] [Hk Hin]]. cbn in Hk. subst. exists (k, v). split; auto.
    apply String.eqb_refl.
Qed.

Lemma map_set_keys {V} (k : string) (v : V) (m : list (string * V)) :
  map_keys (map_set k v m) = if map_has k m then map_keys m else map_keys m ++ [k].
Proof.
  induction m as [|[k' v'] m IH]; cbn; [reflexivity|].
  destruct (String.eqb_spec k k') as [->|Hne]; cbn; [reflexivity|].
  unfold map_keys in IH. rewrite IH. unfold map_has.
  destruct (existsb _ m); reflexivity.
Qed.

Lemma in_map_set_keys {V} (k : string) (v : V) (m : list (string * V)) (x : string) :
  In x (map_keys (map_set k v m)) <-> x = k \/ In x (map_keys m).
Proof.
  rewrite map_set_keys. destruct (map_has k m) eqn:Hhas.
  - apply map_has_keys in Hhas. split; [tauto|]. intros [->|H]; auto.
  - rewrite in_app_iff. cbn. intuition.
Qed.

Lemma NoDup_map_set_keys {V} (k : string) (v : V) (m : list (string * V)) :
  NoDup (map_keys m) -> NoDup (map_keys (map_set k v m)).
Proof.
  intro H. rewrite map_set_keys. destruct (map_has k m) eqn:Hhas; [exact H|].
  apply NoDup_app; auto.
  - repeat constructor. intros [].
  - intros x Hx [<-|[]]. apply map_has_keys in Hx. congruence.
Qed.

(** *** The graph *)

Lemma resolved_ids_app (tr1 tr2 : list Event) :
  resolved_ids (tr1 ++ tr2) = resolved_ids tr1 ++ resolved_ids tr2.
Proof. apply flat_map_app. Qed.

Lemma recorded_app (tr1 tr2 : list Event) :
  recorded (tr1 ++ tr2) = recorded tr1 ++ recorded tr2.
Proof. apply flat_map_app. Qed.

Lemma resolved_ids_requested nodes ids : resolved_ids (requested nodes ids) = [].
Proof.
  induction ids as [|d l IH]; cbn [requested]; [reflexivity|].
  rewrite resolved_ids_app, IH. now destruct (map_has d nodes).
Qed.

Lemma recorded_requested nodes ids : recorded (requested nodes ids) = [].
Proof.
  induction ids as [|d l IH]; cbn [requested]; [reflexivity|].
  rewrite recorded_app, IH. now destruct (map_has d nodes).
Qed.

Lemma graph_quiet (st st' : State W) (more : list Event) :
  graph_consistent st ->
  nodesMap st' = nodesMap st ->
  (forall t, In t (tasks st') ->
     In t (tasks st) \/
     match visit t with
     | AwaitMetadata _ _ => True
     | AwaitDependencies c _ => In c (keys st)
     | AwaitAll c _ => In c (keys st)
     end) ->
  trace st' = trace st ++ more ->
  resolved_ids more = [] ->
  (forall q, In (ReferenceEvent (Sent q)) more ->
     In (QueryBody.parentComponentId q) (keys st)) ->
  edges st' = edges st ++ recorded more ->
  (forall e, In e (recorded more) -> In (Edge.source e) (keys st)) ->
  graph_consistent st'.
Proof.
  intros (Hnd & Htasks & Hsrc & Hres & Hsent & Hrec) Hn Ht Htr Hmore Hq He Hnew.
  assert (Hk : keys st' = keys st) by (unfold keys; now rewrite Hn).
  unfold graph_consistent. rewrite Hk, Htr, He.
  split; [|split; [|split; [|split; [|split]]]].
  - exact Hnd.
  - intros t Hin. destruct (Ht t Hin) as [Hold|Hfresh]; [now apply Htasks|exact Hfresh].
  - intros e Hin. apply in_app_or in Hin. destruct Hin; auto.
  - intro c. rewrite resolved_ids_app, Hmore, app_nil_r. apply Hres.
  - intros q Hin. apply in_app_or in Hin. destruct Hin; auto.
  - rewrite recorded_app. now rewrite Hrec.
Qed.

Ltac old_or_new Hin :=
  cbn [tasks] in Hin;
  repeat (apply in_app_or in Hin; destruct Hin as [Hin|Hin]);
  [left; apply in_others in Hin; apply Hin|..].

Ltac no_edges := cbn [edges recorded flat_map app]; now rewrite app_nil_r.

Ltac no_query Hq :=
  repeat (destruct Hq as [Hq|Hq]; [discriminate Hq|]); destruct Hq.

Lemma transition_graph (st st' : State W) :
  graph_consistent st -> transition get post random st st' -> graph_consistent st'.
Proof.
  intros Hg Htr.
  pose proof Hg as (Hnd & Htasks & Hsrc & Hres & Hsent & Hrec).
  inversion Htr as
      [p c r a status w1 x w2 Hin
      |p c r a ms Hin
      |p c r a data w1 Hin
      |p c r a e w1 Hin
      |p c r a e e' w1 Hin
      |p c version r a status w1 x w2 Hin
      |p c version r a ms Hin
      |p c version r a data ids w1 Hin Hpost Hflat
      |p c version r a o e w1 Hin Hpost Hbad
      |p c ps o Hin]; subst;
    pose proof (Htasks _ Hin) as Hkey; cbn [visit] in Hkey.
  - eapply (graph_quiet st _ [_; _] Hg);
      [reflexivity| |reflexivity|reflexivity| |no_edges|intros e0 []].
    + intros t Ht. old_or_new Ht. destruct Ht as [<-|[]]. right. exact I.
    + intros q Hq. no_query Hq.
  - eapply (graph_quiet st _ [_; _] Hg);
      [reflexivity| |reflexivity|reflexivity| |no_edges|intros e0 []].
    + intros t Ht. old_or_new Ht. destruct Ht as [<-|[]]. right. exact I.
    + intros q Hq. no_query Hq.
  - unfold graph_consistent, keys. cbn [nodesMap tasks edges trace].
    split; [|split; [|split; [|split; [|split]]]].
    + now apply NoDup_map_set_keys.
    + intros t Ht. apply in_app_or in Ht. destruct Ht as [Ht|[<-|[]]].
      * apply in_others in Ht. destruct Ht as [Ht _]. specialize (Htasks t Ht).
        destruct (visit t); auto; apply in_map_set_keys; now right.
      * cbn. apply in_map_set_keys. now left.
    + intros e He. apply in_map_set_keys. right. now apply Hsrc.
    + intro i. rewrite in_map_set_keys, resolved_ids_app, in_app_iff. cbn.
      rewrite <- (Hres i). unfold keys. intuition.
    + intros q Hq. apply in_map_set_keys. apply in_app_or in Hq.
      destruct Hq as [Hq|[Hq|[Hq|[]]]]; [right; now apply Hsent|discriminate Hq|].
      injection Hq as <-. now left.
    + rewrite recorded_app. cbn. now rewrite app_nil_r.
  - eapply (graph_quiet st _ [_; _] Hg);
      [reflexivity| |reflexivity|reflexivity| |no_edges|intros e0 []].
    + intros t Ht. left. apply in_others in Ht. apply Ht.
    + intros q Hq. no_query Hq.
  - eapply (graph_quiet st _ [_] Hg);
      [reflexivity| |reflexivity|reflexivity| |no_edges|intros e0 []].
    + intros t Ht. left. apply in_others in Ht. apply Ht.
    + intros q Hq. no_query Hq.
  - eapply (graph_quiet st _ [_; _] Hg);
      [reflexivity| |reflexivity|reflexivity| |no_edges|intros e0 []].
    + intros t Ht. old_or_new Ht. destruct Ht as [<-|[]]. right. exact Hkey.
    + intros q Hq. no_query Hq.
  - eapply (graph_quiet st _ [_; _] Hg);
      [reflexivity| |reflexivity|reflexivity| |no_edges|intros e0 []].
    + intros t Ht. old_or_new Ht. destruct Ht as [<-|[]]. right. exact Hkey.
    + intros q [Hq|[Hq|[]]]; [discriminate Hq|]. injection Hq as <-. exact Hkey.
  - assert (Hnew : recorded
                     (ReferenceEvent (Received (QueryBody.mk c version) (Resolved data))
                        :: requested (nodesMap st) ids) = map (Edge.mk c) ids).
    { cbn [recorded flat_map QueryBody.parentComponentId]. rewrite Hflat.
      fold (recorded (requested (nodesMap st) ids)).
      now rewrite recorded_requested, app_nil_r. }
    eapply (graph_quiet st _
              (ReferenceEvent (Received (QueryBody.mk c version) (Resolved data))
                 :: requested (nodesMap st) ids) Hg).
    + reflexivity.
    + intros t Ht. old_or_new Ht.
      * apply in_spawned in Ht. destruct Ht as [d [-> _]]. right. exact I.
      * destruct Ht as [<-|[]]. right. exact Hkey.
    + cbn [trace]. now rewrite <- app_assoc.
    + cbn. apply resolved_ids_requested.
    + intros q [Hq|Hq]; [discriminate Hq|].
      apply in_requested in Hq. destruct Hq as [d [Hq _]]. discriminate Hq.
    + now rewrite Hnew.
    + rewrite Hnew. intros e0 He0. apply in_map_iff in He0.
      destruct He0 as [d [<- _]]. exact Hkey.
  - assert (Hnone : recorded
                      [ReferenceEvent (Received (QueryBody.mk c version) o);
                       ReferenceEvent (Printed (DependenciesError c e))] = []).
    { cbn. destruct o as [data|]; auto. destruct (flatten data) eqn:E; auto.
      exfalso. eapply Hbad; eauto. }
    eapply (graph_quiet st _ [_; _] Hg);
      [reflexivity| |reflexivity|reflexivity| | |].
    + intros t Ht. old_or_new Ht. destruct Ht as [<-|[]]. right. exact Hkey.
    + intros q Hq. no_query Hq.
    + cbn [edges]. now rewrite Hnone, app_nil_r.
    + rewrite Hnone. intros e0 [].
  - eapply (graph_quiet st _ [] Hg);
      [reflexivity| | |reflexivity|intros q []| |intros e0 []].
    + intros t Ht. left. apply in_others in Ht. apply Ht.
    + cbn [trace]. now rewrite app_nil_r.
    + cbn [edges]. now rewrite app_nil_r.
Qed.

Lemma reachable_graph (rootId : string) (w : W) (st : State W) :
  reachable get post random rootId w st -> graph_consistent st.
Proof.
  apply reachable_transition_ind.
  - rewrite start_explicit. unfold graph_consistent, keys. cbn.
    split; [constructor|split; [|split; [|split; [|split]]]].
    + intros t [<-|[]]. exact I.
    + intros e [].
    + tauto.
    + intros q [[=]|[]].
    + reflexivity.
  - intros st0 st1 _ IH _ Htr. eapply transition_graph; eauto.
Qed.

(** *** What a turn never undoes *)

Lemma transition_grows (st st' : State W) :
  transition get post random st st' ->
  (exists more, trace st' = trace st ++ more) /\
  (exists more, settled st' = settled st ++ more) /\
  (exists more, edges st' = edges st ++ more) /\
  (forall x, In x (keys st) -> In x (keys st')).
Proof.
  intro Htr. inversion Htr; subst; unfold keys; cbn [trace settled edges nodesMap];
    (split; [|split; [|split]]);
    try (eexists; reflexivity);
    try (exists []; now rewrite app_nil_r);
    try (intros ? Hx; exact Hx).
  - intros y Hy. apply in_map_set_keys. now right.
  - eexists. rewrite <- app_assoc. reflexivity.
Qed.

Lemma not_found_in_app (tr more : list Event) (x : string) :
  not_found_in tr x -> not_found_in (tr ++ more) x.
Proof. intros [e [Hin He]]. exists e. split; auto. apply in_or_app. now left. Qed.

(** *** The targets of the edges *)

Lemma task_fate (st st' : State W) (p0 : nat) (x : string) c0 :
  promises_consistent st ->
  transition get post random st st' ->
  In (mkTask p0 (AwaitMetadata x c0)) (tasks st) ->
  (exists p' c', In (mkTask p' (AwaitMetadata x c')) (tasks st')) \/
  In x (keys st') \/ not_found_in (trace st') x \/ (exists p, rejected st' p).
Proof.
  intros Hc Htr Hin0. destruct Hc as (Hnd & Htask & _).
  assert (Hkeep : forall p, p0 <> p ->
            In (mkTask p0 (AwaitMetadata x c0)) (others p st))
    by (intros p Hne; apply in_others; split; auto).
  inversion Htr as
      [p c r a status w1 y w2 Hin
      |p c r a ms Hin
      |p c r a data w1 Hin
      |p c r a e w1 Hin Hget Htrans Hnf
      |p c r a e e' w1 Hin
      |p c version r a status w1 y w2 Hin
      |p c version r a ms Hin
      |p c version r a data ids w1 Hin
      |p c version r a o e w1 Hin
      |p c ps o Hin]; subst; cbn [tasks trace];
    (destruct (Nat.eq_dec p0 p) as [->|Hne];
     [assert (E : mkTask p (AwaitMetadata x c0) = _)
        by (eapply task_unique; [exact Hnd|exact Hin0|exact Hin|reflexivity]);
      try discriminate E; injection E as -> ->
     |left; exists p0, c0; repeat (apply in_or_app; left); now apply Hkeep]).
  - left. eexists _, _. apply in_or_app. right. left. reflexivity.
  - left. eexists _, _. apply in_or_app. right. left. reflexivity.
  - right. left. unfold keys. cbn. apply in_map_set_keys. now left.
  - right. right. left. exists e. split; auto. apply in_or_app. right. now left.
  - right. right. right. exists p, e'. cbn.
    destruct (Htask _ Hin) as [_ Hn]. cbn in Hn.
    erewrite promise_state_settle by reflexivity. now rewrite Hn, Nat.eqb_refl.
Qed.

Lemma transition_targets (st st' : State W) :
  promises_consistent st ->
  targets_accounted st ->
  transition get post random st st' ->
  targets_accounted st'.
Proof.
  intros Hc Ht Htr.
  destruct (transition_grows _ _ Htr) as ((tm & Htm) & (sm & Hsm) & _ & Hkeys).
  assert (Hold : forall e, In e (edges st) ->
            In (Edge.target e) (keys st') \/
            not_found_in (trace st') (Edge.target e) \/
            (exists p c, In (mkTask p (AwaitMetadata (Edge.target e) c)) (tasks st')) \/
            (exists p, rejected st' p)).
  { intros e He. destruct (Ht e He) as [H|[H|[(p0 & c0 & H)|(p0 & H)]]].
    - left. auto.
    - right. left. rewrite Htm. now apply not_found_in_app.
    - destruct (task_fate _ _ _ _ _ Hc Htr H) as [H'|[H'|[H'|H']]]; auto.
    - right. right. right. exists p0. eapply rejected_more; eauto. }
  intros e He.
  inversion Htr as
      [| | | | | |
       |p c version r a data ids w1 Hin Hpost Hflat
       | |]; subst; cbn [edges] in He; try (now apply Hold).
  apply in_app_or in He. destruct He as [He|He]; [now apply Hold|].
  apply in_map_iff in He. destruct He as [d [<- Hd]]. cbn [Edge.target].
  destruct (map_has d (nodesMap st)) eqn:Hhas.
  - left. unfold keys. cbn. now apply map_has_keys.
  - right. right. left.
    destruct (spawned_complete ids (nodesMap st) d Hd Hhas (fresh st)) as [q [c' H]].
    exists q, c'. cbn [tasks]. apply in_or_app. left. apply in_or_app. now right.
Qed.

Lemma reachable_targets (rootId : string) (w : W) (st : State W) :
  reachable get post random rootId w st -> targets_accounted st.
Proof.
  apply reachable_transition_ind.
  - rewrite start_explicit. intros e [].
  - intros st0 st1 Hr IH _ Htr. eapply transition_targets; eauto.
    eapply reachable_promises; eauto.
Qed.

(** *** Rejections *)

Lemma promise_state_none (st : State W) (p : nat) :
  promise_state st p = None <-> ~ In p (map fst (settled st)).
Proof.
  split.
  - intros Hn Hin. apply in_map_iff in Hin. destruct Hin as [[q o] [Hq Hin]].
    cbn in Hq. subst q. now apply in_promise_state in Hin.
  - intro Hnin. destruct (promise_state st p) as [o|] eqn:E; [|reflexivity].
    exfalso. apply Hnin. apply promise_state_in in E.
    apply in_map_iff. now exists (p, o).
Qed.

Lemma returned_NoDup (ids : list string) nodes :
  forall p, NoDup (map fst (returned p nodes ids)).
Proof.
  induction ids as [|depId rest IH]; intro p; cbn [returned]; [constructor|].
  destruct (map_has depId nodes); cbn; [|apply IH].
  constructor; [|apply IH]. intro H. apply in_map_iff in H.
  destruct H as [[q o] [Hq Hin]]. cbn in Hq. subst q.
  apply in_returned in Hin. lia.
Qed.

Lemma transition_settled_once (st st' : State W) :
  promises_consistent st -> settled_once st ->
  transition get post random st st' -> settled_once st'.
Proof.
  intros (_ & Htask & Hset & _) Hnd Htr. unfold settled_once in *.
  assert (Hadd : forall p v o, In (mkTask p v) (tasks st) ->
            NoDup (map fst (settled st ++ [(p, o)]))).
  { intros p v o Hin. rewrite map_app. apply NoDup_app; auto.
    - repeat constructor. intros [].
    - intros q Hq [<-|[]]. destruct (Htask _ Hin) as [_ Hn].
      apply promise_state_none in Hn. now apply Hn. }
  inversion Htr; subst; cbn [settled]; eauto.
  rewrite map_app. apply NoDup_app; auto; [apply returned_NoDup|].
  intros q Hq1 Hq2. apply in_map_iff in Hq2. destruct Hq2 as [[q' o] [E Hin]].
  cbn in E. subst q'. apply in_returned in Hin.
  assert (q < fresh st); [|lia].
  apply Hset. intro Hn. apply promise_state_none in Hn. now apply Hn.
Qed.

Lemma reachable_settled_once (rootId : string) (w : W) (st : State W) :
  reachable get post random rootId w st -> settled_once st.
Proof.
  apply reachable_transition_ind.
  - rewrite start_explicit. constructor.
  - intros st0 st1 Hr IH _ Htr. eapply transition_settled_once; eauto.
    eapply reachable_promises; eauto.
Qed.


Lemma metadata_failure_app (tr more : list Event) (e : Err) :
  metadata_failure tr e -> metadata_failure (tr ++ more) e.
Proof.
  intros (c & e0 & a & Hin & H). exists c, e0, a. split; auto.
  apply in_or_app. now left.
Qed.

Lemma thrown_transient (a : nat) (e e' : Err) :
  thrown a e e' -> transient e = false -> e' = e.
Proof.
  intros [[_ ->]|(status & -> & Hr & _)] Ht; [reflexivity|].
  cbn in Ht. congruence.
Qed.

Lemma transition_rejections (st st' : State W) :
  rejections_explained st ->
  transition get post random st st' ->
  rejections_explained st'.
Proof.
  intros [Hwhy Hall] Htr.
  destruct (transition_grows _ _ Htr) as ((tm & Htm) & (sm & Hsm) & _ & _).
  assert (Hold1 : forall p e, In (p, Rejected e) (settled st) ->
            metadata_failure (trace st') e).
  { intros p e H. rewrite Htm. apply metadata_failure_app. eauto. }
  assert (Hold2 : forall c e,
            In (MetadataEvent (Received c (Rejected e))) (trace st) ->
            transient e = false -> notFound e = false ->
            exists p, In (p, Rejected e) (settled st')).
  { intros c e H Ht Hn. destruct (Hall c e H Ht Hn) as [p Hp]. exists p.
    rewrite Hsm. apply in_or_app. now left. }
  split.
  - intros p0 e0 Hin0.
    inversion Htr as
      [| | |
       |p c r a e e' w1 Hin Hget Hthrown Hnf
       | |
       |p c version r a data ids w1 Hin
       |
       |p c ps o Hin Hall']; subst; cbn [settled] in Hin0;
      try (now apply (Hold1 p0));
      apply in_app_or in Hin0; destruct Hin0 as [Hin0|Hin0];
      try (now apply (Hold1 p0)).
    + destruct Hin0 as [[=]|[]].
    + destruct Hin0 as [[= <- <-]|[]].
      exists c, e, a. repeat split; auto. cbn [trace]. apply in_or_app. right. now left.
    + apply in_returned in Hin0. destruct Hin0 as [[=] _].
    + destruct Hin0 as [[= <- ->]|[]].
      apply promise_all_rejected in Hall'. destruct Hall' as [q [_ Hq]].
      now apply (Hold1 q).
  - intros c0 e0 Hin0 Ht Hn.
    inversion Htr as
      [p c r a status w1 x w2 Hin
      |p c r a ms Hin
      |p c r a data w1 Hin
      |p c r a e w1 Hin Hget Htrans Hnf
      |p c r a e e' w1 Hin Hget Hthrown Hnf
      |p c version r a status w1 x w2 Hin
      |p c version r a ms Hin
      |p c version r a data ids w1 Hin
      |p c version r a o e w1 Hin
      |p c ps o Hin]; subst; cbn [trace] in Hin0;
      try (now apply (Hold2 c0));
      repeat (apply in_app_or in Hin0; destruct Hin0 as [Hin0|Hin0]);
      try (now apply (Hold2 c0)).
    + destruct Hin0 as [[= <- <-]|[[=]|[]]]. cbn in Ht. congruence.
    + destruct Hin0 as [[=]|[[=]|[]]].
    + destruct Hin0 as [[=]|[[=]|[]]].
    + destruct Hin0 as [[= <- <-]|[[=]|[]]]. congruence.
    + destruct Hin0 as [[= <- <-]|[]].
      rewrite (thrown_transient _ _ _ Hthrown Ht). exists p. cbn.
      apply in_or_app. right. now left.
    + destruct Hin0 as [[=]|[[=]|[]]].
    + destruct Hin0 as [[=]|[[=]|[]]].
    + destruct Hin0 as [[=]|[]].
    + apply in_requested in Hin0. destruct Hin0 as [d [[=] _]].
    + destruct Hin0 as [[=]|[[=]|[]]].
Qed.

Lemma reachable_rejections (rootId : string) (w : W) (st : State W) :
  reachable get post random rootId w st -> rejections_explained st.
Proof.
  apply reachable_transition_ind.
  - rewrite start_explicit. split.
    + intros p e [].
    + intros c e [[=]|[]].
  - intros st0 st1 _ IH _ Htr. eapply transition_rejections; eauto.
Qed.
(** *** Responses come from the service *)

Lemma transition_answered (st st' : State W) :
  answered_by get (trace st) ->
  transition get post random st st' ->
  answered_by get (trace st').
Proof.
  intros Hans Htr c0 o0 Hin0.
  inversion Htr as
      [p c r a status w1 x w2 Hin _ _ Hget
      |p c r a ms Hin
      |p c r a data w1 Hin Hget
      |p c r a e w1 Hin Hget
      |p c r a e e' w1 Hin Hget
      |p c version r a status w1 x w2 Hin
      |p c version r a ms Hin
      |p c version r a data ids w1 Hin
      |p c version r a o e w1 Hin
      |p c ps o Hin]; subst; cbn [trace] in Hin0;
    repeat match type of Hin0 with
           | In _ (_ ++ _) => apply in_app_or in Hin0; destruct Hin0 as [Hin0|Hin0]
           end;
    try (now apply (Hans c0));
    try (apply in_requested in Hin0; destruct Hin0 as [d [Hin0 _]]; discriminate Hin0);
    cbn [In] in Hin0; decompose [or] Hin0; clear Hin0;
    try congruence; try contradiction;
    match goal with
    | H : MetadataEvent _ = MetadataEvent _ |- _ => injection H as <- <-
    end; exists (world st); now rewrite Hget.
Qed.

Lemma reachable_answered (rootId : string) (w : W) (st : State W) :
  reachable get post random rootId w st -> answered_by get (trace st).
Proof.
  revert st.
  apply (reachable_transition_ind rootId w (fun st => answered_by get (trace st))).
  - rewrite start_explicit. intros c o [H|[]]. discriminate H.
  - intros st0 st1 _ IH _ Htr. eapply transition_answered; eauto.
Qed.

(** *** Schedules give reachable states *)

Lemma run_schedule_reachable (rootId : string) (w : W) (schedule : list nat) :
  forall st st',
    reachable get post random rootId w st ->
    run_schedule get post random schedule st = Some st' ->
    reachable get post random rootId w st'.
Proof.
  induction schedule as [|p rest IH]; intros st st' Hr Hrun; cbn in Hrun.
  - now injection Hrun as <-.
  - destruct (step_at get post random p st) as [st1|] eqn:Hs; [|discriminate].
    eapply IH; [|exact Hrun]. econstructor; [exact Hr|]. now exists p.
Qed.

Lemma run_first_reachable (rootId : string) (w : W) (fuel : nat) :
  forall st,
    reachable get post random rootId w st ->
    reachable get post random rootId w (run_first get post random fuel st).
Proof.
  induction fuel as [|fuel IH]; intros st Hr; cbn [run_first]; [exact Hr|].
  destruct (flat_map _ (tasks st)) as [|st1 l] eqn:E; [exact Hr|].
  apply IH. econstructor; [exact Hr|].
  assert (Hin : In st1 (st1 :: l)) by now left.
  rewrite <- E in Hin. apply in_flat_map in Hin. destruct Hin as [t [_ Ht]].
  exists (promise t). destruct (step_at get post random (promise t) st); [|destruct Ht].
  destruct Ht as [->|[]]. reflexivity.
Qed.
End StepLemmas.

(** ** Edges and nodes *)

Lemma result_fulfilled {W} (st : State W) nodes es :
  result st = Some (Resolved (nodes, es)) ->
  fulfilled st 0 = true /\ nodes = nodesMap st /\ es = edges st.
Proof.
  unfold result, fulfilled. destruct (promise_state st 0) as [[x|e]|]; try discriminate.
  intros [= <- <-]. auto.
Qed.

(** C7. In every state of a run, the source of each edge is an identifier
    of the node map (the node is set before its references are looked up).
    In the graph a run returns, the target of an edge is a node or an
    identifier whose metadata request was answered 400/404.  No turn
    removes an edge. *)
Theorem edges_between_visited_nodes
    (W : Type) (get : string -> W -> Outcome Metadata.t * W)
    (post : QueryBody.t -> W -> Outcome QueryData * W) (random : W -> Q * W)
    (rootId : string) (w : W) (st : State W) :
  reachable get post random rootId w st ->
  (forall e, In e (edges st) -> In (Edge.source e) (keys st)) /\
  (forall nodes es,
     result st = Some (Resolved (nodes, es)) ->
     forall e, In e es ->
       In (Edge.target e) (map_keys nodes) \/ not_found_in (trace st) (Edge.target e)) /\
  (forall st', step get post random st st' -> exists more, edges st' = edges st ++ more).
Proof.
  intro Hr. split; [|split].
  - apply (reachable_graph _ _ _ _ _ _ _ Hr).
  - intros nodes es Hres e He.
    apply result_fulfilled in Hres. destruct Hres as [H0 [-> ->]].
    destruct (fulfilled_settled _ _ _ _ _ _ _ Hr H0) as [Hnone Hnorej].
    destruct (reachable_targets _ _ _ _ _ _ _ Hr e He) as [H|[H|[(p & c & H)|(p & H)]]].
    + now left.
    + now right.
    + rewrite Hnone in H. destruct H.
    + now apply Hnorej in H.
  - intros st' Hs. destruct (step_transition _ _ _ _ _ _ _ _ Hr Hs) as [_ Htr].
    apply (transition_grows _ _ _ _ _ _ Htr).
Qed.

Lemma scenario_reachable :
  Fixed.reachable Scenario.metadata Scenario.references "R" Scenario.final.
Proof.
  unfold Fixed.reachable, Scenario.final, Fixed.run_first.
  apply run_first_reachable. constructor.
Qed.

Lemma edges_between_visited_nodes_witness :
  Fixed.reachable Scenario.metadata Scenario.references "R" Scenario.final /\
  (forall e, In e (edges Scenario.final) -> In (Edge.source e) (keys Scenario.final)).
Proof.
  split; [exact scenario_reachable|].
  exact (proj1 (edges_between_visited_nodes _ _ _ _ _ _ _ scenario_reachable)).
Defined.

(** ** Identifiers that are not found *)

Lemma notFound_not_transient (e : Err) : notFound e = true -> transient e = false.
Proof.
  destruct e as [[status|]| | |]; cbn; try discriminate.
  unfold retryable. intro H. apply orb_true_iff in H.
  destruct H as [H|H]; apply Z.eqb_eq in H; subst; reflexivity.
Qed.

Lemma no_reference_request (X : string) (tr : list Event) :
  (forall q, In (ReferenceEvent (Sent q)) tr -> QueryBody.parentComponentId q <> X) ->
  requests_for_references X tr = 0.
Proof.
  unfold requests_for_references. induction tr as [|ev tr IH]; intro H; [reflexivity|].
  cbn [filter]. destruct ev as [ev|[q|q o|l|ms]];
    try (apply IH; intros q' Hq'; apply H; now right).
  destruct (String.eqb_spec (QueryBody.parentComponentId q) X) as [E|_].
  - exfalso. apply (H q); auto. now left.
  - apply IH. intros q' Hq'. apply H. now right.
Qed.

Lemma in_resolved_ids (c : string) (tr : list Event) :
  In c (resolved_ids tr) <-> exists data, In (MetadataEvent (Received c (Resolved data))) tr.
Proof.
  unfold resolved_ids. rewrite in_flat_map. split.
  - intros [ev [Hin Hc]]. destruct ev as [[?|c' [data|e]|?|?]|?]; try (now destruct Hc).
    destruct Hc as [<-|[]]. now exists data.
  - intros [data Hin]. eexists. split; [exact Hin|]. now left.
Qed.

Lemma in_recorded (tr : list Event) q data ids d :
  In (ReferenceEvent (Received q (Resolved data))) tr ->
  flatten data = Some ids -> In d ids ->
  In (Edge.mk (QueryBody.parentComponentId q) d) (recorded tr).
Proof.
  intros Hin Hf Hd. unfold recorded. apply in_flat_map.
  eexists. split; [exact Hin|]. cbn. rewrite Hf. now apply in_map.
Qed.

(** ** Witnesses for the retry client *)

Lemma requestWithRetry_retry_bound_witness :
  (forall i, i < 2 -> fails_transiently (Script.reply Flaky.script i)) /\
  exists tr,
    Script.exec Flaky.script (requestWithRetry tt) = (Resolved 7, tr) /\
    attempts tr = 2 + 1 /\ length (delays tr) = 2.
Proof.
  assert (H : forall i, i < 2 -> fails_transiently (Script.reply Flaky.script i)).
  { intros i Hi. exists 503%Z. split; [|reflexivity].
    destruct i as [|[|i]]; [reflexivity|reflexivity|lia]. }
  split; [exact H|].
  apply (proj1 (requestWithRetry_retry_bound unit nat tt Flaky.script 2 H) 7).
  - unfold MAX_RETRIES. lia.
  - reflexivity.
Defined.

Lemma requestWithRetry_no_retry_on_permanent_failure_witness :
  Script.reply Gone.script 0 = Rejected (AxiosError (Some 404%Z)) /\
  transient (AxiosError (Some 404%Z)) = false /\
  Script.exec Gone.script (requestWithRetry tt) =
    (Rejected (AxiosError (Some 404%Z)),
     [Sent tt; Received tt (Rejected (AxiosError (Some 404%Z)))]).
Proof.
  split; [reflexivity|split; [reflexivity|]].
  exact (proj1 (requestWithRetry_no_retry_on_permanent_failure
                  unit nat tt Gone.script (AxiosError (Some 404%Z)) eq_refl eq_refl)).
Defined.

(** ** The output document *)

Lemma read_map_set (path : string) (data : Json) (l : list (string * Json)) :
  option_map snd (find (fun kv => String.eqb path (fst kv)) (map_set path data l)) = Some data.
Proof.
  induction l as [|[k v] l IH]; cbn.
  - now rewrite String.eqb_refl.
  - destruct (String.eqb_spec path k) as [->|Hne]; cbn.
    + now rewrite String.eqb_refl.
    + apply String.eqb_neq in Hne. now rewrite Hne.
Qed.

Lemma traverse_map {A B} (f : A -> B) (g : B -> option A) (l : list A) :
  (forall a, g (f a) = Some a) -> traverse g (map f l) = Some l.
Proof.
  intro H. induction l as [|a l IH]; cbn; [reflexivity|]. now rewrite H, IH.
Qed.

Lemma parse_stringify (graphData : GraphData.t) :
  parse (stringify graphData) = Some graphData.
Proof.
  destruct graphData as [ns es]. unfold parse, stringify. cbn.
  rewrite (traverse_map stringify_node parse_node) by (now intros []).
  rewrite (traverse_map stringify_edge parse_edge) by (now intros []).
  reflexivity.
Qed.

Lemma distinct_count (l1 l2 : list string) :
  NoDup l1 -> (forall x, In x l1 <-> In x l2) ->
  length l1 = length (nodup string_dec l2).
Proof.
  intros Hnd Hiff. apply Permutation_length. apply NoDup_Permutation; auto.
  - apply NoDup_nodup.
  - intro x. rewrite nodup_In. apply Hiff.
Qed.

(** C8 (as amended: the third field of a node is [type]).  A run that
    resolves and can write its file exits with status 0 and leaves in
    [OUTPUT_FILE], whatever was there before, the one document
    [{nodes: [{id, name, type}], edges: [{source, target}]}].  Parsed back it
    is the graph of the run; it has as many nodes as distinct identifiers
    whose metadata request succeeded, and as many edges as identifiers in
    the reference lists received.  The summary line reports both counts. *)
Theorem graph_document
    (W : Type) (get : string -> W -> Outcome Metadata.t * W)
    (post : QueryBody.t -> W -> Outcome QueryData * W) (random : W -> Q * W)
    (rootId : string) (w : W) (st : State W) (fs : FileSystem)
    (nodes : list (string * Node.t)) (es : list Edge.t) :
  reachable get post random rootId w st ->
  result st = Some (Resolved (nodes, es)) ->
  writable fs OUTPUT_FILE = true ->
  let graphData := GraphData.mk (map_values nodes) es in
  let out := main (Resolved (nodes, es)) fs in
  status out = 0%Z /\
  read OUTPUT_FILE (disk out) = Some (stringify graphData) /\
  stringify graphData =
    JObject
      [("nodes",
        JArray (map (fun n => JObject [("id", JString (Node.id n));
                                       ("name", JString (Node.name n));
                                       ("type", JString (Node.type n))])
                    (map_values nodes)));
       ("edges",
        JArray (map (fun e => JObject [("source", JString (Edge.source e));
                                       ("target", JString (Edge.target e))]) es))] /\
  parse (stringify graphData) = Some graphData /\
  length (GraphData.nodes graphData) =
    length (nodup string_dec (resolved_ids (trace st))) /\
  length (GraphData.edges graphData) = length (recorded (trace st)) /\
  console out =
    [ExtractionComplete (length (GraphData.nodes graphData))
                        (length (GraphData.edges graphData));
     DataWritten OUTPUT_FILE].
Proof.
  intros Hr Hres Hw graphData out.
  apply result_fulfilled in Hres. destruct Hres as [_ [-> ->]].
  pose proof (reachable_graph _ _ _ _ _ _ _ Hr) as (Hnd & _ & _ & Hids & _ & Hrec).
  subst out graphData. unfold main, writeFile. rewrite Hw. cbn [status disk console].
  split; [reflexivity|split; [|split; [reflexivity|split; [|split; [|split]]]]].
  - unfold read. cbn [files]. apply read_map_set.
  - apply parse_stringify.
  - cbn [GraphData.nodes]. unfold map_values. rewrite length_map.
    rewrite <- (length_map fst). now apply distinct_count.
  - cbn [GraphData.edges]. now rewrite Hrec.
  - reflexivity.
Qed.

Lemma graph_document_witness :
  Fixed.reachable Scenario.metadata Scenario.references "R" Scenario.final /\
  result Scenario.final = Some (Resolved (nodesMap Scenario.final, edges Scenario.final)) /\
  writable used_disk OUTPUT_FILE = true /\
  read OUTPUT_FILE
       (disk (main (Resolved (nodesMap Scenario.final, edges Scenario.final)) used_disk)) =
    Some (stringify (GraphData.mk (map_values (nodesMap Scenario.final))
                                  (edges Scenario.final))).
Proof.
  split; [exact scenario_reachable|split; [reflexivity|split; [reflexivity|]]].
  exact (proj1 (proj2 (graph_document unit _ _ _ "R" tt Scenario.final used_disk
                         (nodesMap Scenario.final) (edges Scenario.final)
                         scenario_reachable eq_refl eq_refl))).
Defined.

(** C8 as stated fails on the field name: the node objects of the written
    document have a member [type] and no member [category]. *)
Lemma graph_document_has_no_category :
  exists doc node rest,
    read OUTPUT_FILE
         (disk (main (Resolved (nodesMap Scenario.final, edges Scenario.final)) used_disk))
      = Some doc /\
    items "nodes" doc = Some (node :: rest) /\
    member "category" node = None /\
    member "type" node = Some (JString "Process") /\
    member "name" node = Some (JString "Root") /\
    member "id" node = Some (JString "R").
Proof.
  eexists _, _, _. repeat split; reflexivity.
Qed.

(** ** When a run is fatal *)





(** ** A run that has not settled can go on *)

Section Progress.
Variable W : Type.
Variable get : string -> W -> Outcome Metadata.t * W.
Variable post : QueryBody.t -> W -> Outcome QueryData * W.
Variable random : W -> Q * W.

Lemma transition_children (st st' : State W) :
  promises_consistent st -> children_bounded st ->
  transition get post random st st' -> children_bounded st'.
Proof.
  intros (_ & Htask & _) [Hpos Hb] Htr.
  assert (Hold : forall p p0 c ps (more : nat),
            In (mkTask p0 (AwaitAll c ps)) (others p st) ->
            forall q, In q ps -> p0 < q < fresh st + more).
  { intros p p0 c ps more Hin q Hq. apply in_others in Hin.
    destruct (Hb _ _ _ (proj1 Hin) q Hq). lia. }
  inversion Htr; subst; split; cbn [fresh tasks]; try lia;
    intros p0 c0 ps0 Hin0 q Hq;
    repeat match type of Hin0 with
           | In _ (_ ++ _) => apply in_app_or in Hin0; destruct Hin0 as [Hin0|Hin0]
           end;
    try (specialize (Hold _ _ _ _ 0 Hin0 q Hq); lia);
    try (apply in_spawned in Hin0; destruct Hin0 as [d [Hin0 _]]; discriminate Hin0);
    try (destruct Hin0 as [Hin0|[]]; try discriminate Hin0).
  - injection Hin0 as <- <- <-. apply in_seq in Hq.
    match goal with H : In (mkTask p _) (tasks st) |- _ => destruct (Htask _ H) end.
    cbn in *. lia.
  - injection Hin0 as <- <- <-. destruct Hq.
Qed.

Lemma reachable_children (rootId : string) (w : W) (st : State W) :
  reachable get post random rootId w st -> children_bounded st.
Proof.
  apply reachable_transition_ind.
  - rewrite start_explicit. split; cbn; [lia|].
    intros p c ps [H|[]]. discriminate H.
  - intros st0 st1 Hr IH _ Htr. eapply transition_children; eauto.
    eapply reachable_promises; eauto.
Qed.

Lemma find_task_in (st : State W) (t : Task) :
  NoDup (map promise (tasks st)) -> In t (tasks st) ->
  find_task (promise t) (tasks st) = Some t.
Proof.
  intros Hnd Hin. unfold find_task.
  destruct (find _ (tasks st)) as [t'|] eqn:E.
  - apply find_some in E. destruct E as [Hin' Hp]. apply Nat.eqb_eq in Hp.
    f_equal. eapply task_unique; eauto.
  - apply (find_none _ _ E) in Hin. now rewrite Nat.eqb_refl in Hin.
Qed.

Lemma forallb_false {A} (f : A -> bool) (l : list A) :
  forallb f l = false -> exists x, In x l /\ f x = false.
Proof.
  induction l as [|a l IH]; cbn; [discriminate|].
  destruct (f a) eqn:E; cbn.
  - intro H. destruct (IH H) as [x [Hx Hf]]. exists x. auto.
  - intros _. exists a. auto.
Qed.

Lemma latest_task (l : list Task) :
  l <> [] -> exists t, In t l /\ forall t', In t' l -> promise t' <= promise t.
Proof.
  induction l as [|a l IH]; [congruence|]. intros _.
  destruct l as [|b l'].
  - exists a. split; [now left|]. intros t' [<-|[]]. lia.
  - destruct IH as [t [Hin Hmax]]; [discriminate|].
    destruct (Nat.le_gt_cases (promise a) (promise t)).
    + exists t. split; [now right|]. intros t' [<-|Ht']; auto.
    + exists a. split; [now left|]. intros t' [<-|Ht']; [lia|].
      specialize (Hmax _ Ht'). lia.
Qed.

Lemma resume_waiting {Rq T R} (respond : Rq -> W -> Outcome T * W)
    (rq : Rq) (f : T -> Prog Rq T R) (h : Err -> Prog Rq T R) (c : Paused Rq T R) (w0 : W) :
  retrying (retryFrom rq f h) c ->
  exists p, c = Waiting p /\ exists res, resume respond random p w0 = Some res.
Proof.
  intro Hc. inversion Hc as [r a Hra|r a ms Hra]; subst; eexists; (split; [reflexivity|]).
  - unfold resume, retryFrom. cbn [retryLoop bind try_catch wake].
    destruct (respond rq w0) as [o w1].
    destruct (advance random _ w1) as [[c' w2] evs]. eauto.
  - rewrite resume_timer. eauto.
Qed.

(** Deadlock freedom: as long as promise 0 has not settled, some suspended
    call can take a turn. *)
Theorem progress (rootId : string) (w : W) (st : State W) :
  reachable get post random rootId w st ->
  promise_state st 0 = None ->
  exists st', step get post random st st'.
Proof.
  intros Hr H0.
  pose proof (reachable_shaped _ _ _ _ _ _ _ Hr) as Hsh.
  pose proof (reachable_promises _ _ _ _ _ _ _ Hr) as Hc.
  pose proof (reachable_children _ _ _ Hr) as [Hpos Hb].
  destruct Hc as (Hnd & Htask & Hset & Hall & Htree).
  destruct (existsb (microtask st) (tasks st)) eqn:Hmicro.
  - apply existsb_exists in Hmicro. destruct Hmicro as [t [Hin Hm]].
    specialize (Hsh t Hin). unfold microtask in Hm.
    destruct t as [p v]. cbn [visit] in Hsh, Hm.
    destruct v as [c cst|c cst|c ps].
    + inversion Hsh; subst; discriminate.
    + destruct Hsh as [version Hsh]. inversion Hsh; subst; discriminate.
    + destruct (promise_all st ps) as [o|] eqn:Hpa; [|discriminate].
      eexists. exists p. unfold step_at. rewrite H0.
      pose proof (find_task_in st _ Hnd Hin) as Hf. cbn [promise] in Hf.
      rewrite Hf. cbn [visit]. rewrite Hpa. reflexivity.
  - destruct (find (fun t => match visit t with AwaitAll _ _ => false | _ => true end)
                   (tasks st)) as [t|] eqn:Hfind.
    + apply find_some in Hfind. destruct Hfind as [Hin Hv].
      specialize (Hsh t Hin). destruct t as [p v]. cbn [visit] in Hsh, Hv.
      destruct v as [c cst|c cst|c ps]; [| |discriminate].
      * destruct (resume_waiting get c _ _ cst (world st) Hsh)
          as (pr & -> & [[c' w1] evs] & Hres).
        assert (Hs : exists st', step_at get post random p st = Some st').
        { unfold step_at. rewrite H0.
          pose proof (find_task_in st _ Hnd Hin) as Hf. cbn [promise] in Hf.
          rewrite Hf. cbn [visit promise].
          rewrite Hmicro, Hres. destruct c'; eexists; reflexivity. }
        destruct Hs as [st' Hs]. exists st', p. exact Hs.
      * destruct Hsh as [version Hsh].
        destruct (resume_waiting post _ _ _ cst (world st) Hsh)
          as (pr & -> & [[c' w1] evs] & Hres).
        assert (Hs : exists st', step_at get post random p st = Some st').
        { unfold step_at. rewrite H0.
          pose proof (find_task_in st _ Hnd Hin) as Hf. cbn [promise] in Hf.
          rewrite Hf. cbn [visit promise].
          rewrite Hmicro, Hres. destruct c'; eexists; reflexivity. }
        destruct Hs as [st' Hs]. exists st', p. exact Hs.
    + exfalso.
      destruct (tasks st) as [|t0 l] eqn:Hts.
      * destruct (Hall 0 Hpos) as [[t [[] _]]|Hs]. now apply Hs.
      * destruct (latest_task (t0 :: l)) as [t [Hin Hmax]]; [discriminate|].
        pose proof (find_none _ _ Hfind t Hin) as Hv.
        destruct t as [p v]. cbn [visit promise] in Hv, Hmax.
        destruct v as [c cst|c cst|c ps]; try discriminate.
        assert (Hpa : promise_all st ps = None).
        { destruct (promise_all st ps) eqn:E; [|reflexivity].
          assert (Hex : existsb (microtask st) (t0 :: l) = true).
          { apply existsb_exists. eexists. split; [exact Hin|].
            unfold microtask. cbn [visit]. now rewrite E. }
          congruence. }
        unfold promise_all in Hpa.
        destruct (find _ (settled st)) as [[q o]|] eqn:Hrej; [discriminate|].
        destruct (forallb (fulfilled st) ps) eqn:Hful; [discriminate|].
        apply forallb_false in Hful. destruct Hful as [q [Hq Hnf]].
        destruct (Hb _ _ _ Hin q Hq) as [Hlt Hfresh].
        destruct (Hall q Hfresh) as [[t' [Hin' Hp']]|Hs].
        -- specialize (Hmax _ Hin'). lia.
        -- unfold fulfilled in Hnf.
           destruct (promise_state st q) as [[x|e]|] eqn:E; try congruence.
           apply promise_state_in in E.
           pose proof (find_none _ _ Hrej _ E) as Hfalse. cbn in Hfalse.
           assert (Hex : existsb (Nat.eqb q) ps = true).
           { apply existsb_exists. exists q. split; auto. apply Nat.eqb_refl. }
           congruence.
Qed.

(** A bound on the turns left that every turn lowers: all runs end. *)
Lemma ranked_terminates (rootId : string) (w : W) (P : nat -> State W -> Prop) :
  (forall n st st',
      P n st -> transition get post random st st' -> exists m, m < n /\ P m st') ->
  forall n st,
    P n st -> reachable get post random rootId w st ->
    Acc (fun s' s => step get post random s s') st.
Proof.
  intros Hstep n. induction n as [n IH] using lt_wf_ind. intros st Hn Hr.
  constructor. intros st' Hs.
  destruct (step_transition _ _ _ _ _ _ _ _ Hr Hs) as [_ Htr].
  destruct (Hstep n st st' Hn Htr) as [m [Hlt Hm]].
  apply (IH m Hlt st' Hm). econstructor; eauto.
Qed.

Lemma ranked_reachable (rootId : string) (w : W) (P : nat -> State W -> Prop) (n0 : nat) :
  (forall n st st',
      P n st -> transition get post random st st' -> exists m, m < n /\ P m st') ->
  P n0 (start random rootId w) ->
  forall st, reachable get post random rootId w st -> exists n, P n st.
Proof.
  intros Hstep H0.
  apply (reachable_transition_ind _ get post random rootId w (fun st => exists n, P n st)).
  - now exists n0.
  - intros st st' _ [n Hn] _ Htr.
    destruct (Hstep n st st' Hn Htr) as [m [_ Hm]]. now exists m.
Qed.

(** A run that cannot go on has settled. *)
Lemma stuck_settled (rootId : string) (w : W) (st : State W) :
  reachable get post random rootId w st ->
  (forall st', ~ step get post random st st') ->
  exists r, result st = Some r.
Proof.
  intros Hr Hstuck. destruct (promise_state st 0) as [o|] eqn:E.
  - unfold result. rewrite E. destruct o; eauto.
  - destruct (progress _ _ _ Hr E) as [st' Hs]. now apply Hstuck in Hs.
Qed.
End Progress.

(** ** A resolver is determined by its attempt *)

Lemma retryFrom_inj {Rq T R} (rq rq' : Rq) (f : T -> Prog Rq T R) (h : Err -> Prog Rq T R)
    (r a r' a' : nat) :
  (forall e k, h e <> Random k) ->
  retryFrom rq f h (S r) a = retryFrom rq' f h (S r') a' ->
  a + r = MAX_RETRIES -> a' + r' = MAX_RETRIES ->
  rq = rq' /\ a = a' /\ r = r'.
Proof.
  intros Hh E Ha Ha'. unfold retryFrom in E. cbn [retryLoop bind try_catch] in E.
  injection E as Hrq Hk. split; [exact Hrq|].
  apply (f_equal (fun k => k (Rejected (AxiosError (Some 503%Z))))) in Hk.
  cbn in Hk.
  destruct (Nat.eqb_spec a MAX_RETRIES) as [Hm|Hm];
    destruct (Nat.eqb_spec a' MAX_RETRIES) as [Hm'|Hm']; cbn in Hk.
  - split; lia.
  - exfalso. eapply Hh; eauto.
  - exfalso. eapply Hh; eauto.
  - injection Hk as Hk.
    apply (f_equal (fun k => k 0%Q)) in Hk. cbn in Hk. injection Hk as _ Hattempt _.
    split; lia.
Qed.

(** ** A component without a version whose reference query fails *)

Section VersionlessRun.
Variables (rootId name type : string) (failure : Err).

Let get := Fixed.get (Versionless.metadata name type).
Let post := Fixed.post (Versionless.references failure).
Let stands := Versionless.stands rootId name type.

Ltac only_task Hts :=
  match goal with
  | H : In _ (tasks _) |- _ =>
      rewrite Hts in H; cbn [In] in H; first [destruct H as [H|[]]|destruct H]
  end.

Ltac expose H :=
  unfold metadataFrom, dependenciesFrom, retryFrom in H;
  cbn [retryLoop bind try_catch MAX_RETRIES] in H.

Lemma dependenciesFrom_inj (c : string) (v v' : option Z) (r a r' a' : nat) :
  dependenciesFrom c v (S r) a = dependenciesFrom c v' (S r') a' ->
  a + r = MAX_RETRIES -> a' + r' = MAX_RETRIES ->
  v = v' /\ a = a' /\ r = r'.
Proof.
  intros E Ha Ha'. unfold dependenciesFrom in E.
  apply retryFrom_inj in E; auto.
  - destruct E as [Hq E]. now injection Hq as ->.
  - intros e k. discriminate.
Qed.

Lemma stands_step (n : nat) (st st' : State unit) :
  stands n st ->
  transition get post Fixed.random st st' ->
  exists m, m < n /\ stands m st'.
Proof.
  intros (He & Hf & Hph) Htr.
  destruct Hph as [(-> & Hn & Hs & Hts)
                  |[(r0 & a0 & -> & Ha0 & Hn & Hs & Hts)
                   |[(r0 & a0 & ms0 & -> & Ha0 & Hn & Hs & Hts)
                    |[(-> & Hn & Hs & Hts)
                     |(-> & Hn & Hs & Hts)]]]];
    inversion Htr; subst; only_task Hts; try discriminate;
    unfold stands, Versionless.stands, others;
    cbn [edges fresh nodesMap settled tasks]; rewrite ?Hts, ?Hn, ?Hs.
  - (* the metadata arrives: the node is set and the query is sent *)
    assert (Hp : p = 0) by congruence.
    assert (Hc : componentId = rootId) by congruence. subst p componentId.
    unfold get, Fixed.get, Versionless.metadata in H0. injection H0 as <- <-.
    exists 11. split; [lia|]. split; [exact He|split; [exact Hf|]].
    right. left. exists 4, 1. repeat split; reflexivity.
  - (* the query fails with 503/504 and is retried *)
    assert (Hp : p = 0) by congruence.
    assert (Hc : componentId = rootId) by congruence. subst p componentId.
    assert (Hprog : dependenciesFrom rootId None (S r0) a0 =
                    dependenciesFrom rootId version (S r) a) by congruence.
    apply dependenciesFrom_inj in Hprog; auto. destruct Hprog as (<- & <- & <-).
    destruct r0 as [|r']; [lia|].
    exists (2 * r' + 4). split; [lia|]. split; [exact He|split; [exact Hf|]].
    right. right. left. exists r', (S a0), (backoff a0 x).
    repeat split; try reflexivity; auto; lia.
  - (* the query fails for good: no reference *)
    assert (Hp : p = 0) by congruence.
    assert (Hc : componentId = rootId) by congruence. subst p componentId.
    exists 2. split; [lia|]. split; [exact He|split; [exact Hf|]].
    right. right. right. left. repeat split; reflexivity.
  - (* the timer fires and the query is sent again *)
    assert (Hp : p = 0) by congruence.
    assert (Hc : componentId = rootId) by congruence. subst p componentId.
    assert (Hprog : dependenciesFrom rootId None (S r0) a0 =
                    dependenciesFrom rootId version (S r) a) by congruence.
    apply dependenciesFrom_inj in Hprog; auto. destruct Hprog as (<- & <- & <-).
    exists (2 * r0 + 3). split; [lia|]. split; [exact He|split; [exact Hf|]].
    right. left. exists r0, a0. repeat split; try reflexivity; auto.
  - (* Promise.all of no promise *)
    assert (Hp : ps = []) by congruence.
    assert (Hp0 : p = 0) by congruence.
    assert (Hc : componentId = rootId) by congruence. subst ps p componentId.
    unfold promise_all in H0. rewrite Hs in H0. cbn in H0. injection H0 as <-.
    exists 1. split; [lia|]. split; [exact He|split; [exact Hf|]].
    right. right. right. right. repeat split; reflexivity.
Qed.

Lemma start_stands : stands 12 (Fixed.start rootId).
Proof.
  unfold Fixed.start. rewrite start_explicit.
  split; [reflexivity|split; [reflexivity|]]. left. repeat split; reflexivity.
Qed.

Lemma stands_result (n : nat) (st : State unit) r :
  stands n st -> result st = Some r ->
  r = Resolved (Versionless.leaf rootId name type, []).
Proof.
  intros (He & Hf & Hph) Hres. unfold result, promise_state in Hres.
  destruct Hph as [(-> & Hn & Hs & Hts)
                  |[(r0 & a0 & -> & Ha0 & Hn & Hs & Hts)
                   |[(r0 & a0 & ms0 & -> & Ha0 & Hn & Hs & Hts)
                    |[(-> & Hn & Hs & Hts)
                     |(-> & Hn & Hs & Hts)]]]];
    rewrite Hs in Hres; cbn in Hres; try discriminate.
  injection Hres as <-. now rewrite Hn, He.
Qed.

(** The run from a root whose metadata has no version and whose reference
    query fails, however it fails: the first turn sets the node and sends the
    query with the absent version, every run ends, and ends with the root as
    a node without edges. *)
Theorem versionless_root_is_a_leaf :
  (exists st1,
     step_at get post Fixed.random 0 (Fixed.start rootId) = Some st1 /\
     nodesMap st1 = Versionless.leaf rootId name type /\
     trace st1 =
       [MetadataEvent (Sent rootId);
        MetadataEvent (Received rootId (Resolved (Metadata.mk name type None)));
        ReferenceEvent (Sent (QueryBody.mk rootId None))]) /\
  Acc (fun s' s => step get post Fixed.random s s') (Fixed.start rootId) /\
  (forall st,
     reachable get post Fixed.random rootId tt st ->
     (forall st', ~ step get post Fixed.random st st') ->
     result st = Some (Resolved (Versionless.leaf rootId name type, []))) /\
  (forall st r,
     reachable get post Fixed.random rootId tt st ->
     result st = Some r ->
     r = Resolved (Versionless.leaf rootId name type, [])).
Proof.
  assert (Hlast : forall st r,
             reachable get post Fixed.random rootId tt st ->
             result st = Some r ->
             r = Resolved (Versionless.leaf rootId name type, [])).
  { intros st r Hr Hres.
    destruct (ranked_reachable _ get post Fixed.random rootId tt stands 12
                stands_step start_stands st Hr) as [n Hn].
    eapply stands_result; eauto. }
  split; [|split; [|split]].
  - unfold Fixed.start. rewrite start_explicit. eexists. split; [reflexivity|].
    split; reflexivity.
  - apply (ranked_terminates _ get post Fixed.random rootId tt stands stands_step 12);
      [exact start_stands|constructor].
  - intros st Hr Hstuck.
    destruct (stuck_settled _ _ _ _ _ _ _ Hr Hstuck) as [r Hres].
    rewrite Hres. f_equal. eapply Hlast; eauto.
  - exact Hlast.
Qed.
End VersionlessRun.

(** ** Two components that refer to each other *)

Ltac which_task Hts :=
  match goal with
  | H : In _ (tasks _) |- _ =>
      rewrite Hts in H; cbn [In] in H;
      repeat (destruct H as [H|H]); try (now destruct H)
  end.

Ltac same_task :=
  match goal with
  | H : mkTask ?a (AwaitAll ?c ?l) = mkTask ?p (AwaitAll ?c' ?l') |- _ =>
      assert (p = a) by congruence; assert (c' = c) by congruence;
      assert (l' = l) by congruence; subst p c' l'; clear H
  | H : mkTask ?a (_ ?c _) = mkTask ?p (_ ?c' _) |- _ =>
      assert (p = a) by congruence; assert (c' = c) by congruence;
      subst p c'
  end.

Section CycleRun.
Variables (A B : string) (mA mB : Metadata.t).

Let get := Fixed.get (Cycle.metadata A B mA mB).
Let post := Fixed.post (Cycle.references A B).

Ltac answer H HAB HBA :=
  unfold get, post, Fixed.get, Fixed.post, Cycle.metadata, Cycle.references in H;
  cbn [QueryBody.parentComponentId] in H;
  rewrite ?String.eqb_refl, ?HAB, ?HBA in H;
  try discriminate H.

Lemma two_step (n : nat) (st st' : State unit) :
  String.eqb A B = false ->
  Cycle.two A B mA mB n st ->
  transition get post Fixed.random st st' ->
  exists m, n = S m /\ Cycle.two A B mA mB m st'.
Proof.
  intros HAB Hn Htr.
  assert (HBA : String.eqb B A = false) by (now rewrite String.eqb_sym).
  do 7 (try destruct n as [|n]); try (now destruct Hn);
    unfold Cycle.two, Cycle.summary in Hn;
    injection Hn as Hnodes Hedges Hts Hsettled Hfresh;
    inversion Htr; subst; which_task Hts;
    unfold Cycle.visitA, Cycle.visitB, Cycle.expandA, Cycle.expandB in *;
    try discriminate; same_task;
    try match goal with
        | H : get _ _ = _ |- _ => answer H HAB HBA
        | H : post _ _ = _ |- _ => answer H HAB HBA
        | H : promise_all _ _ = _ |- _ =>
            unfold promise_all, fulfilled, promise_state in H;
            rewrite Hsettled in H; cbn in H; try discriminate H
        end;
    try match goal with H : Some _ = Some _ |- _ => injection H as <- end;
    try match goal with H : (_, _) = (_, _) |- _ => injection H as <- <- end;
    try match goal with
        | H : flatten _ = Some _ |- _ => cbn in H; injection H as <-
        end;
    try (exfalso;
         match goal with
         | Hbad : forall data ids, _ = _ -> _ -> False |- _ => eapply Hbad; reflexivity
         end);
    (eexists; split; [reflexivity|]);
    unfold Cycle.two, Cycle.summary, others;
    cbn [nodesMap edges tasks settled fresh];
    rewrite ?Hnodes, ?Hedges, ?Hts, ?Hsettled, ?Hfresh;
    repeat (cbn -[metadataFrom dependenciesFrom String.eqb];
            rewrite ?String.eqb_refl, ?HAB, ?HBA);
    reflexivity.
Qed.

Lemma two_result (n : nat) (st : State unit) r :
  Cycle.two A B mA mB n st -> result st = Some r ->
  r = Resolved ([(A, Cycle.nodeA A mA); (B, Cycle.nodeB B mB)],
                [Edge.mk A B; Edge.mk B A]).
Proof.
  intros Hn Hres. unfold result, promise_state in Hres.
  do 7 (try destruct n as [|n]); try (now destruct Hn);
    unfold Cycle.two, Cycle.summary in Hn;
    injection Hn as Hnodes Hedges Hts Hsettled Hfresh;
    rewrite Hsettled in Hres; cbn in Hres; try discriminate.
  injection Hres as <-. now rewrite Hnodes, Hedges.
Qed.
End CycleRun.

Section SelfReference.
Variables (A : string) (mA mB : Metadata.t).

Let get := Fixed.get (Cycle.metadata A A mA mB).
Let post := Fixed.post (Cycle.references A A).

Ltac answer H :=
  unfold get, post, Fixed.get, Fixed.post, Cycle.metadata, Cycle.references in H;
  cbn [QueryBody.parentComponentId] in H;
  rewrite ?String.eqb_refl in H;
  try discriminate H.

Lemma one_step (n : nat) (st st' : State unit) :
  Cycle.one A mA n st ->
  transition get post Fixed.random st st' ->
  exists m, n = S m /\ Cycle.one A mA m st'.
Proof.
  intros Hn Htr.
  do 4 (try destruct n as [|n]); try (now destruct Hn);
    unfold Cycle.one, Cycle.summary in Hn;
    injection Hn as Hnodes Hedges Hts Hsettled Hfresh;
    inversion Htr; subst; which_task Hts;
    unfold Cycle.visitA, Cycle.expandA in *;
    try discriminate; same_task;
    try match goal with
        | H : get _ _ = _ |- _ => answer H
        | H : post _ _ = _ |- _ => answer H
        | H : promise_all _ _ = _ |- _ =>
            unfold promise_all, fulfilled, promise_state in H;
            rewrite Hsettled in H; cbn in H; try discriminate H
        end;
    try match goal with H : Some _ = Some _ |- _ => injection H as <- end;
    try match goal with H : (_, _) = (_, _) |- _ => injection H as <- <- end;
    try match goal with
        | H : flatten _ = Some _ |- _ => cbn in H; injection H as <-
        end;
    try (exfalso;
         match goal with
         | Hbad : forall data ids, _ = _ -> _ -> False |- _ => eapply Hbad; reflexivity
         end);
    (eexists; split; [reflexivity|]);
    unfold Cycle.one, Cycle.summary, others;
    cbn [nodesMap edges tasks settled fresh];
    rewrite ?Hnodes, ?Hedges, ?Hts, ?Hsettled, ?Hfresh;
    repeat (cbn -[metadataFrom dependenciesFrom String.eqb];
            rewrite ?String.eqb_refl);
    reflexivity.
Qed.

Lemma one_result (n : nat) (st : State unit) r :
  Cycle.one A mA n st -> result st = Some r ->
  r = Resolved ([(A, Cycle.nodeA A mA)], [Edge.mk A A]).
Proof.
  intros Hn Hres. unfold result, promise_state in Hres.
  do 4 (try destruct n as [|n]); try (now destruct Hn);
    unfold Cycle.one, Cycle.summary in Hn;
    injection Hn as Hnodes Hedges Hts Hsettled Hfresh;
    rewrite Hsettled in Hres; cbn in Hres; try discriminate.
  injection Hres as <-. now rewrite Hnodes, Hedges.
Qed.
End SelfReference.

(** C2. With [A] referring to [B] and [B] to [A] (also when [B] is [A]):
    every run from [A] ends, and ends with the nodes [A], [B] and the edges
    [A -> B], [B -> A], each once (one node and the edge [A -> A] when [B]
    is [A]).  In every state of a run, a call that is looking up or visiting
    the references of an identifier has that identifier in the node map. *)
Theorem cycle_safety (A B : string) (mA mB : Metadata.t) :
  let get := Fixed.get (Cycle.metadata A B mA mB) in
  let post := Fixed.post (Cycle.references A B) in
  Acc (fun s' s => step get post Fixed.random s s') (Fixed.start A) /\
  (forall st,
     reachable get post Fixed.random A tt st ->
     (forall st', ~ step get post Fixed.random st st') ->
     result st = Some (Resolved (Cycle.graph A B mA mB))) /\
  (forall st r,
     reachable get post Fixed.random A tt st ->
     result st = Some r ->
     r = Resolved (Cycle.graph A B mA mB)) /\
  (forall st,
     reachable get post Fixed.random A tt st ->
     forall t, In t (tasks st) ->
       match visit t with
       | AwaitMetadata _ _ => True
       | AwaitDependencies componentId _ => In componentId (keys st)
       | AwaitAll componentId _ => In componentId (keys st)
       end).
Proof.
  intros get post.
  assert (Hgraph : exists (P : nat -> State unit -> Prop) (n0 : nat),
             (forall n st st',
                 P n st -> transition get post Fixed.random st st' ->
                 exists m, m < n /\ P m st') /\
             P n0 (Fixed.start A) /\
             (forall n st r, P n st -> result st = Some r ->
                             r = Resolved (Cycle.graph A B mA mB))).
  { unfold Cycle.graph. destruct (String.eqb_spec A B) as [E|E].
    - subst B. exists (Cycle.one A mA), 3. split; [|split].
      + intros n st st' Hn Htr.
        destruct (one_step A mA mB n st st' Hn Htr) as [m [-> Hm]].
        exists m. split; [lia|exact Hm].
      + unfold Fixed.start. rewrite start_explicit. reflexivity.
      + intros n st r. apply one_result.
    - apply String.eqb_neq in E. exists (Cycle.two A B mA mB), 6. split; [|split].
      + intros n st st' Hn Htr.
        destruct (two_step A B mA mB n st st' E Hn Htr) as [m [-> Hm]].
        exists m. split; [lia|exact Hm].
      + unfold Fixed.start. rewrite start_explicit. reflexivity.
      + intros n st r. apply two_result. }
  destruct Hgraph as (P & n0 & Hstep & Hstart & Hresult).
  assert (Hlast : forall st r,
             reachable get post Fixed.random A tt st ->
             result st = Some r -> r = Resolved (Cycle.graph A B mA mB)).
  { intros st r Hr Hres.
    destruct (ranked_reachable _ get post Fixed.random A tt P n0 Hstep Hstart st Hr)
      as [n Hn].
    eapply Hresult; eauto. }
  split; [|split; [|split]].
  - apply (ranked_terminates _ get post Fixed.random A tt P Hstep n0);
      [exact Hstart|constructor].
  - intros st Hr Hstuck.
    destruct (stuck_settled _ _ _ _ _ _ _ Hr Hstuck) as [r Hres].
    rewrite Hres. f_equal. eapply Hlast; eauto.
  - exact Hlast.
  - intros st Hr. apply (reachable_graph _ _ _ _ _ _ _ Hr).
Qed.

(** ** A node reached twice *)

Lemma fulfilled_result {W} (st : State W) :
  fulfilled st 0 = true -> result st = Some (Resolved (nodesMap st, edges st)).
Proof.
  unfold result, fulfilled.
  destruct (promise_state st 0) as [[x|e]|]; try discriminate. reflexivity.
Qed.


Lemma option_map_some {A B} (f : A -> B) (o : option A) (b : B) :
  option_map f o = Some b -> exists a, o = Some a /\ f a = b.
Proof.
  destruct o as [a|]; cbn; [|discriminate]. intros [= <-]. now exists a.
Qed.

Lemma fixed_run_schedule_reachable metadata references rootId schedule st :
  Fixed.run_schedule metadata references schedule (Fixed.start rootId) = Some st ->
  Fixed.reachable metadata references rootId st.
Proof.
  intro E. unfold Fixed.reachable.
  apply (run_schedule_reachable unit (Fixed.get metadata) (Fixed.post references)
           Fixed.random rootId tt schedule (Fixed.start rootId) st).
  - constructor.
  - exact E.
Qed.

Lemma diamond_final_unfold :
  Diamond.final =
  Fixed.run_schedule Diamond.metadata Diamond.references Diamond.schedule (Fixed.start "R").
Proof. reflexivity. Qed.

Lemma diamond_observed :
  option_map (observation "D") Diamond.final =
  Some (true, ["R"; "A"; "B"; "D"],
        [Edge.mk "R" "A"; Edge.mk "R" "B"; Edge.mk "A" "D"; Edge.mk "B" "D"],
        2, 2).
Proof. vm_compute. reflexivity. Qed.

(** C1, on the diamond: "D" is one node of the returned graph, but the two
    visits that reach it while it is not yet in the map each send a metadata
    request and a reference request for it. *)
Theorem diamond_looks_up_shared_node_twice :
  exists st,
    Diamond.final = Some st /\
    Fixed.reachable Diamond.metadata Diamond.references "R" st /\
    result st = Some (Resolved (nodesMap st, edges st)) /\
    keys st = ["R"; "A"; "B"; "D"] /\
    edges st = [Edge.mk "R" "A"; Edge.mk "R" "B"; Edge.mk "A" "D"; Edge.mk "B" "D"] /\
    requests_for_metadata "D" (trace st) = 2 /\
    requests_for_references "D" (trace st) = 2.
Proof.
  destruct (option_map_some (observation "D") Diamond.final _ diamond_observed)
    as [st [E Hobs]].
  unfold observation in Hobs. injection Hobs as H0 Hkeys Hedges Hmeta Hrefs.
  exists st. split; [exact E|]. split; [|split].
  - rewrite diamond_final_unfold in E.
    exact (fixed_run_schedule_reachable _ _ _ _ _ E).
  - now apply fulfilled_result.
  - auto.
Qed.

(** * Further properties of the code *)

From Stdlib Require Import Lqa.

(** ** The retry client in any environment *)

Section RetryAnywhere.
Variables (W Rq T : Type).
Variable respond : Rq -> W -> Outcome T * W.
Variable random : W -> Q * W.
Variable requestFn : Rq.

Lemma attempts_cons_sent (rq : Rq) (tr : list (Ev Rq T)) :
  attempts (Sent rq :: tr) = S (attempts tr).
Proof. reflexivity. Qed.

Lemma run_retryLoop_resolved (remaining a : nat) (w : W) v w1 :
  respond requestFn w = (Resolved v, w1) ->
  run respond random (retryLoop requestFn (S remaining) a) w =
  (Resolved v, w1, [Sent requestFn; Received requestFn (Resolved v)]).
Proof. intro H. cbn. now rewrite H. Qed.

Lemma run_retryLoop_permanent (remaining a : nat) (w : W) e w1 :
  respond requestFn w = (Rejected e, w1) -> transient e = false ->
  run respond random (retryLoop requestFn (S remaining) a) w =
  (Rejected e, w1, [Sent requestFn; Received requestFn (Rejected e)]).
Proof.
  intros H Ht. cbn. rewrite H.
  destruct e as [[status|]|m s at_| |m]; cbn in Ht |- *; try rewrite Ht; reflexivity.
Qed.

Lemma run_retryLoop_exhausted (remaining : nat) (w : W) status w1 :
  respond requestFn w = (Rejected (AxiosError (Some status)), w1) ->
  retryable status = true ->
  run respond random (retryLoop requestFn (S remaining) MAX_RETRIES) w =
  (Rejected (ApiError (FailedAfter MAX_RETRIES status) (Some status) (Some MAX_RETRIES)), w1,
   [Sent requestFn; Received requestFn (Rejected (AxiosError (Some status)))]).
Proof. intros H Hr. cbn. rewrite H, Hr. reflexivity. Qed.

Lemma run_retryLoop_retry (remaining a : nat) (w : W) status w1 x w2 :
  respond requestFn w = (Rejected (AxiosError (Some status)), w1) ->
  retryable status = true ->
  a <> MAX_RETRIES ->
  random w1 = (x, w2) ->
  run respond random (retryLoop requestFn (S remaining) a) w =
  let '(res, w3, tr) := run respond random (retryLoop requestFn remaining (S a)) w2 in
  (res, w3,
   Sent requestFn :: Received requestFn (Rejected (AxiosError (Some status)))
   :: Printed (RetryWarning status (backoff a x) a) :: Slept (backoff a x) :: tr).
Proof.
  intros H Hr Ha Hx. apply Nat.eqb_neq in Ha. cbn. rewrite H, Hr, Ha. cbn. rewrite Hx.
  destruct (run respond random (retryLoop requestFn remaining (S a)) w2) as [[res w3] tr].
  reflexivity.
Qed.

Lemma transient_inv (e : Err) :
  transient e = true -> exists status, e = AxiosError (Some status) /\ retryable status = true.
Proof. destruct e as [[status|]|m s at_| |m]; cbn; try discriminate. eauto. Qed.

(** The loop entered at attempt [a]: what it sends, how often, and what it
    settles with. *)
Lemma retryLoop_anywhere (r : nat) :
  forall a w, a + r = MAX_RETRIES ->
    let '(res, w', tr) := run respond random (retryLoop requestFn (S r) a) w in
    1 <= attempts tr <= S r /\
    length (delays tr) = attempts tr - 1 /\
    (forall rq, In (Sent rq) tr -> rq = requestFn) /\
    exists tr0 o,
      tr = tr0 ++ [Received requestFn o] /\
      (forall rq o', In (Received rq o') tr0 -> fails_transiently o') /\
      match o with
      | Resolved v => res = Resolved v
      | Rejected e0 => exists e, res = Rejected e /\ thrown (a + attempts tr - 1) e0 e
      end.
Proof.
  assert (Hone : forall (o : Outcome T),
             (forall rq, In (Sent rq) [Sent requestFn; Received requestFn o] -> rq = requestFn) /\
             (forall rq o', In (Received rq o') [Sent (T:=T) requestFn] -> fails_transiently o')).
  { intro o. split.
    - intros rq [[= <-]|[[=]|[]]]. reflexivity.
    - intros rq o' [[=]|[]]. }
  induction r as [|r IH]; intros a w Ha;
    destruct (respond requestFn w) as [[v|e0] w1] eqn:Hresp.
  - rewrite (run_retryLoop_resolved _ _ _ _ _ Hresp).
    cbn. repeat split; try lia; try apply (Hone (Resolved v)).
    exists [Sent requestFn], (Resolved v). repeat split; auto. apply (Hone (Resolved v)).
  - destruct (transient e0) eqn:Ht.
    + apply transient_inv in Ht. destruct Ht as (status & -> & Hretry).
      replace a with MAX_RETRIES by lia.
      rewrite (run_retryLoop_exhausted _ _ _ _ Hresp Hretry).
      cbn. repeat split; try lia; try apply (Hone (Rejected (AxiosError (Some status)))).
      exists [Sent requestFn], (Rejected (AxiosError (Some status))).
      repeat split; auto; [apply (Hone (Rejected (AxiosError (Some status))))|].
      eexists. split; [reflexivity|]. right. exists status. repeat split; auto.
    + rewrite (run_retryLoop_permanent _ _ _ _ _ Hresp Ht).
      cbn. repeat split; try lia; try apply (Hone (Rejected e0)).
      exists [Sent requestFn], (Rejected e0). repeat split; auto; [apply (Hone (Rejected e0))|].
      exists e0. split; auto. now left.
  - rewrite (run_retryLoop_resolved _ _ _ _ _ Hresp).
    cbn. repeat split; try lia; try apply (Hone (Resolved v)).
    exists [Sent requestFn], (Resolved v). repeat split; auto. apply (Hone (Resolved v)).
  - destruct (transient e0) eqn:Ht.
    + apply transient_inv in Ht. destruct Ht as (status & -> & Hretry).
      destruct (random w1) as [x w2] eqn:Hx.
      assert (Hne : a <> MAX_RETRIES) by lia.
      rewrite (run_retryLoop_retry _ _ _ _ _ _ _ Hresp Hretry Hne Hx).
      specialize (IH (S a) w2).
      destruct (run respond random (retryLoop requestFn (S r) (S a)) w2) as [[res w3] tr].
      destruct IH as (Hn & Hd & Hs & tr0 & o & -> & Hearlier & Hres); [lia|].
      rewrite !attempts_cons_sent.
      assert (Hatt : attempts
                (Received requestFn (Rejected (AxiosError (Some status)))
                 :: Printed (RetryWarning status (backoff a x) a)
                 :: Slept (backoff a x) :: tr0 ++ [Received requestFn o]) =
              attempts (tr0 ++ [Received requestFn o])) by reflexivity.
      rewrite Hatt. split; [lia|split; [|split]].
      * unfold delays in *. cbn. rewrite Hd. lia.
      * intros rq [[= <-]|[[=]|[[=]|[[=]|Hin]]]]; auto.
      * exists (Sent requestFn :: Received requestFn (Rejected (AxiosError (Some status)))
                :: Printed (RetryWarning status (backoff a x) a)
                :: Slept (backoff a x) :: tr0), o.
        split; [reflexivity|split].
        -- intros rq o' [[=]|[[= <- <-]|[[=]|[[=]|Hin]]]]; eauto.
           exists status. auto.
        -- destruct o as [v|e1]; auto.
           destruct Hres as (e & -> & Hth). exists e. split; auto.
           replace (a + S (attempts (tr0 ++ [Received requestFn (Rejected e1)])) - 1)
             with (S a + attempts (tr0 ++ [Received requestFn (Rejected e1)]) - 1) by lia.
           exact Hth.
    + rewrite (run_retryLoop_permanent _ _ _ _ _ Hresp Ht).
      cbn. repeat split; try lia; try apply (Hone (Rejected e0)).
      exists [Sent requestFn], (Rejected e0). repeat split; auto; [apply (Hone (Rejected e0))|].
      exists e0. split; auto. now left.
Qed.

(** X1. Whatever the operation and the environment do, [requestWithRetry]
    settles with its last response: a success is returned, a failure that is
    not a 503/504 response is thrown as it is, and a 503/504 ends the call
    only as the fifth attempt, as the [ApiError] that carries its status and
    the attempt count 5.  Every response before the last is a 503/504.  The
    error constructed after the loop is never thrown by the loop itself. *)
Theorem requestWithRetry_settles_with_last_response (w : W) :
  let '(res, _, tr) := run respond random (requestWithRetry requestFn) w in
  exists tr0 o,
    tr = tr0 ++ [Received requestFn o] /\
    (forall rq o', In (Received rq o') tr0 -> fails_transiently o') /\
    match o with
    | Resolved v => res = Resolved v
    | Rejected e0 =>
        (transient e0 = false /\ res = Rejected e0) \/
        (exists status,
           e0 = AxiosError (Some status) /\ retryable status = true /\
           attempts tr = MAX_RETRIES /\
           res = Rejected (ApiError (FailedAfter MAX_RETRIES status)
                                    (Some status) (Some MAX_RETRIES)))
    end /\
    (res = Rejected (ApiError LoopCompleted None (Some MAX_RETRIES)) -> o = res).
Proof.
  unfold requestWithRetry.
  pose proof (retryLoop_anywhere 4 1 w eq_refl) as H.
  change MAX_RETRIES with 5 at 1.
  destruct (run respond random (retryLoop requestFn 5 1) w) as [[res w'] tr].
  destruct H as (Hn & _ & _ & tr0 & o & Htr & Hearlier & Hres).
  exists tr0, o. split; [exact Htr|split; [exact Hearlier|]].
  destruct o as [v|e0].
  - split; [exact Hres|]. intro E. congruence.
  - destruct Hres as (e & -> & [[Ht ->]|(status & -> & Hretry & Ha & ->)]).
    + split; [now left|reflexivity].
    + split; [|discriminate]. right. exists status. rewrite Ha.
      repeat split; auto. lia.
Qed.

(** X2. In every environment [requestWithRetry] calls the operation at
    least once and at most five times, waits exactly once between two
    consecutive attempts and never after the last one, and sends nothing but
    the request it was given. *)
Theorem requestWithRetry_attempts_bounded (w : W) :
  let '(_, _, tr) := run respond random (requestWithRetry requestFn) w in
  1 <= attempts tr <= MAX_RETRIES /\
  length (delays tr) = attempts tr - 1 /\
  (forall rq, In (Sent rq) tr -> rq = requestFn).
Proof.
  unfold requestWithRetry.
  pose proof (retryLoop_anywhere 4 1 w eq_refl) as H.
  change MAX_RETRIES with 5 at 1.
  destruct (run respond random (retryLoop requestFn 5 1) w) as [[res w'] tr].
  destruct H as (Hn & Hd & Hs & _). auto.
Qed.
End RetryAnywhere.

(** ** The delays between attempts *)

Section RetrySchedule.
Variables (Rq T : Type) (requestFn : Rq) (s : Script.t T).

Lemma retryLoop_delays (r : nat) :
  forall a calls draws, a + r = MAX_RETRIES ->
    let '(_, _, tr) :=
      run (Script.respond (Rq:=Rq) s) (Script.random s)
          (retryLoop requestFn (S r) a) (calls, draws) in
    1 <= attempts tr <= S r /\
    delays tr =
      map (fun i => backoff (a + i) (Script.jitter s (draws + i))) (seq 0 (attempts tr - 1)).
Proof.
  induction r as [|r IH]; intros a calls draws Ha;
    destruct (Script.reply s calls) as [v|e0] eqn:Hreply;
    assert (Hresp : Script.respond (Rq:=Rq) s requestFn (calls, draws) =
                    (Script.reply s calls, (S calls, draws))) by reflexivity;
    rewrite Hreply in Hresp.
  - rewrite (run_retryLoop_resolved _ _ _ _ _ _ _ _ _ _ _ Hresp). cbn. split; [lia|reflexivity].
  - destruct (transient e0) eqn:Ht.
    + apply transient_inv in Ht. destruct Ht as (status & -> & Hretry).
      replace a with MAX_RETRIES by lia.
      rewrite (run_retryLoop_exhausted _ _ _ _ _ _ _ _ _ _ Hresp Hretry).
      cbn. split; [lia|reflexivity].
    + rewrite (run_retryLoop_permanent _ _ _ _ _ _ _ _ _ _ _ Hresp Ht).
      cbn. split; [lia|reflexivity].
  - rewrite (run_retryLoop_resolved _ _ _ _ _ _ _ _ _ _ _ Hresp). cbn. split; [lia|reflexivity].
  - destruct (transient e0) eqn:Ht.
    + apply transient_inv in Ht. destruct Ht as (status & -> & Hretry).
      assert (Hne : a <> MAX_RETRIES) by lia.
      assert (Hx : Script.random s (S calls, draws) =
                   (Script.jitter s draws, (S calls, S draws))) by reflexivity.
      rewrite (run_retryLoop_retry _ _ _ _ _ _ _ _ _ _ _ _ _ Hresp Hretry Hne Hx).
      specialize (IH (S a) (S calls) (S draws)).
      destruct (run (Script.respond s) (Script.random s)
                    (retryLoop requestFn (S r) (S a)) (S calls, S draws)) as [[res w3] tr].
      destruct IH as (Hn & Hd); [lia|].
      rewrite attempts_cons_sent.
      assert (Hatt : attempts
                (Received requestFn (Rejected (AxiosError (Some status)))
                 :: Printed (RetryWarning status (backoff a (Script.jitter s draws)) a)
                 :: Slept (backoff a (Script.jitter s draws)) :: tr) =
              attempts tr) by reflexivity.
      rewrite Hatt. split; [lia|].
      change (delays (Sent requestFn
                :: Received requestFn (Rejected (AxiosError (Some status)))
                :: Printed (RetryWarning status (backoff a (Script.jitter s draws)) a)
                :: Slept (backoff a (Script.jitter s draws)) :: tr))
        with (backoff a (Script.jitter s draws) :: delays tr).
      rewrite Hd.
      replace (S (attempts tr) - 1) with (S (attempts tr - 1)) by lia.
      cbn [seq map]. rewrite !Nat.add_0_r. f_equal.
      rewrite <- seq_shift, map_map. apply map_ext. intro i.
      now rewrite <- !plus_n_Sm.
    + rewrite (run_retryLoop_permanent _ _ _ _ _ _ _ _ _ _ _ Hresp Ht).
      cbn. split; [lia|reflexivity].
Qed.

Lemma backoff_bounds (i : nat) (x : Q) :
  (0 <= x)%Q -> (x < 1)%Q ->
  (inject_Z (INITIAL_DELAY_MS * 2 ^ Z.of_nat i) <= backoff (S i) x)%Q /\
  (backoff (S i) x < inject_Z (INITIAL_DELAY_MS * 2 ^ Z.of_nat i) + 1000)%Q.
Proof.
  intros H0 H1. unfold backoff. cbn [Nat.sub]. rewrite Nat.sub_0_r.
  split; lra.
Qed.

(** X3. The delays of a call follow the exponential schedule.  With jitter
    in [[0, 1)], as [Math.random] gives it, a call waits once between two
    attempts, the wait after attempt [i] is at least [1000 * 2^(i-1)]
    milliseconds and at most a second more, and a call waits at most 19
    seconds in all.  The bounds are not strict: line 91 adds in floating
    point, where a jitter just below 1 can round the sum up to the bound. *)
Theorem requestWithRetry_backoff_schedule :
  (forall i, (0 <= Script.jitter s i)%Q /\ (Script.jitter s i < 1)%Q) ->
  let '(_, tr) := Script.exec s (requestWithRetry requestFn) in
  length (delays tr) = attempts tr - 1 /\
  (forall i d, nth_error (delays tr) i = Some d ->
     (inject_Z (INITIAL_DELAY_MS * 2 ^ Z.of_nat i) <= d)%Q /\
     (d <= inject_Z (INITIAL_DELAY_MS * 2 ^ Z.of_nat i) + 1000)%Q) /\
  (total (delays tr) <= 19000)%Q.
Proof.
  intro Hj. unfold Script.exec, requestWithRetry.
  pose proof (retryLoop_delays 4 1 0 0 eq_refl) as H.
  change MAX_RETRIES with 5 at 1.
  destruct (run (Script.respond s) (Script.random s) (retryLoop requestFn 5 1) (0, 0))
    as [[res w'] tr].
  destruct H as (Hn & Hd). cbn [Nat.add] in Hd.
  rewrite Hd. split; [now rewrite length_map, length_seq|split].
  - intros i d Hnth.
    assert (Hi : i < attempts tr - 1).
    { assert (Hsome : nth_error
                (map (fun i => backoff (S i) (Script.jitter s i)) (seq 0 (attempts tr - 1))) i
                <> None) by (rewrite Hnth; discriminate).
      apply nth_error_Some in Hsome. now rewrite length_map, length_seq in Hsome. }
    rewrite nth_error_map, nth_error_seq in Hnth.
    destruct (Nat.ltb_spec i (attempts tr - 1)) as [_|Hge]; [|lia].
    cbn in Hnth. injection Hnth as <-.
    destruct (backoff_bounds i (Script.jitter s i)) as [Hlow Hhigh]; [apply Hj..|].
    split; [exact Hlow|now apply Qlt_le_weak].
  - destruct (attempts tr - 1) as [|[|[|[|[|n]]]]] eqn:E; [..|lia];
      pose proof (Hj 0) as [? ?]; pose proof (Hj 1) as [? ?];
      pose proof (Hj 2) as [? ?]; pose proof (Hj 3) as [? ?];
      unfold total, backoff, INITIAL_DELAY_MS; cbn; unfold inject_Z; lra.
Qed.

(** X4. A failure that is not a 503/504 response ends the call at once also
    after retries: when the first [K < 5] attempts fail with 503/504 and
    attempt [K + 1] fails otherwise, that failure is thrown as it is after
    [K + 1] attempts and [K] delays; the remaining attempts are not used. *)
Theorem requestWithRetry_stops_at_permanent_failure (K : nat) (e : Err) :
  K < MAX_RETRIES ->
  (forall i, i < K -> fails_transiently (Script.reply s i)) ->
  Script.reply s K = Rejected e ->
  transient e = false ->
  exists tr0,
    Script.exec s (requestWithRetry requestFn) =
      (Rejected e, tr0 ++ [Sent requestFn; Received requestFn (Rejected e)]) /\
    attempts tr0 = K /\ length (delays tr0) = K /\
    attempts (tr0 ++ [Sent requestFn; Received requestFn (Rejected (T:=T) e)]) = K + 1.
Proof.
  intros HK Hfail Hreply Hperm.
  destruct (MAX_RETRIES - K) as [|rem] eqn:Hrem; [lia|].
  destruct (retryLoop_transient_prefix Rq T requestFn s K (S rem) 1 0 0)
    as [tr0 [Ha [Hd Hrun]]].
  - lia.
  - intros i Hi. now apply Hfail.
  - exists tr0. split; [|split; [exact Ha|split; [exact Hd|]]].
    + unfold Script.exec, requestWithRetry.
      replace MAX_RETRIES with (K + S rem) at 1 by lia.
      rewrite Hrun. cbn [Nat.add].
      assert (Hresp : Script.respond (Rq:=Rq) s requestFn (K, K) = (Rejected e, (S K, K))).
      { unfold Script.respond. cbn [fst snd]. now rewrite Hreply. }
      rewrite (run_retryLoop_permanent _ _ _ _ _ _ _ _ _ _ _ Hresp Hperm).
      reflexivity.
    + rewrite attempts_app, Ha. reflexivity.
Qed.
End RetrySchedule.

Lemma requestWithRetry_backoff_schedule_witness :
  (forall i, (0 <= Script.jitter Flaky.script i)%Q /\ (Script.jitter Flaky.script i < 1)%Q) /\
  let '(_, tr) := Script.exec Flaky.script (requestWithRetry tt) in
  length (delays tr) = attempts tr - 1 /\
  (forall i d, nth_error (delays tr) i = Some d ->
     (inject_Z (INITIAL_DELAY_MS * 2 ^ Z.of_nat i) <= d)%Q /\
     (d <= inject_Z (INITIAL_DELAY_MS * 2 ^ Z.of_nat i) + 1000)%Q) /\
  (total (delays tr) <= 19000)%Q.
Proof.
  assert (H : forall i, (0 <= Script.jitter Flaky.script i)%Q /\
                        (Script.jitter Flaky.script i < 1)%Q).
  { intro i. split; [apply Qle_refl|reflexivity]. }
  split; [exact H|].
  exact (requestWithRetry_backoff_schedule unit nat tt Flaky.script H).
Defined.

Lemma requestWithRetry_stops_at_permanent_failure_witness :
  1 < MAX_RETRIES /\
  (forall i, i < 1 -> fails_transiently (Script.reply Broken.script i)) /\
  Script.reply Broken.script 1 = Rejected (AxiosError (Some 500%Z)) /\
  transient (AxiosError (Some 500%Z)) = false /\
  exists tr0,
    Script.exec Broken.script (requestWithRetry tt) =
      (Rejected (AxiosError (Some 500%Z)),
       tr0 ++ [Sent tt; Received tt (Rejected (AxiosError (Some 500%Z)))]) /\
    attempts tr0 = 1 /\ length (delays tr0) = 1 /\
    attempts (tr0 ++ [Sent tt; Received tt (Rejected (T:=nat) (AxiosError (Some 500%Z)))]) = 1 + 1.
Proof.
  assert (HK : 1 < MAX_RETRIES) by (unfold MAX_RETRIES; lia).
  assert (H : forall i, i < 1 -> fails_transiently (Script.reply Broken.script i)).
  { intros i Hi. exists 504%Z. split; [|reflexivity].
    destruct i as [|i]; [reflexivity|lia]. }
  split; [exact HK|split; [exact H|split; [reflexivity|split; [reflexivity|]]]].
  exact (requestWithRetry_stops_at_permanent_failure unit nat tt Broken.script 1
           (AxiosError (Some 500%Z)) HK H eq_refl eq_refl).
Defined.

(** ** The metadata resolver in any environment *)

Section MetadataAnywhere.
Variables (W : Type) (get : string -> W -> Outcome Metadata.t * W) (random : W -> Q * W).

Lemma run_getComponentMetadata (componentId : string) (w : W) :
  run get random (getComponentMetadata componentId) w =
  let '(r, w', tr) := run get random (requestWithRetry componentId) w in
  match r with
  | Resolved data =>
      (Resolved (Some (ComponentInfo.mk componentId (Metadata.name data)
                         (Metadata.type data) (Metadata.version data))), w', tr)
  | Rejected e =>
      if notFound e then (Resolved None, w', tr ++ [Printed (NotFoundWarning componentId)])
      else (Rejected e, w', tr)
  end.
Proof.
  unfold getComponentMetadata. rewrite run_try_catch, run_bind.
  destruct (run get random (requestWithRetry componentId) w) as [[[data|e] w'] tr]; cbn.
  - now rewrite app_nil_r.
  - destruct (notFound e); cbn; [reflexivity|now rewrite app_nil_r].
Qed.

Lemma notFound_inv (e : Err) :
  notFound e = true ->
  exists status, e = AxiosError (Some status) /\ (status = 400 \/ status = 404)%Z.
Proof.
  destruct e as [[status|]|m s at_| |m]; cbn; try discriminate.
  intro H. exists status. split; [reflexivity|].
  apply orb_true_iff in H. destruct H as [H|H]; apply Z.eqb_eq in H; auto.
Qed.

(** X5. Whatever the service does, [getComponentMetadata] settles in one
    of three ways.  It returns a [ComponentInfo] whose [id] is the identifier
    it was called with and whose other fields are those of the last response;
    or it returns [null], and then the last response was a 400 or a 404 and
    the warning was printed after it (exhausted retries never count as not
    found); or it throws what [requestWithRetry] threw, which is not a
    400/404.  It sends at most five requests. *)
Theorem getComponentMetadata_outcome (componentId : string) (w : W) :
  let '(res, _, tr) := run get random (getComponentMetadata componentId) w in
  attempts tr <= MAX_RETRIES /\
  match res with
  | Resolved (Some info) =>
      exists data tr0,
        tr = tr0 ++ [Received componentId (Resolved data)] /\
        info = ComponentInfo.mk componentId (Metadata.name data) (Metadata.type data)
                                (Metadata.version data)
  | Resolved None =>
      exists status tr0,
        (status = 400 \/ status = 404)%Z /\
        tr = tr0 ++ [Received componentId (Rejected (AxiosError (Some status)));
                     Printed (NotFoundWarning componentId)]
  | Rejected e =>
      notFound e = false /\
      exists e0 tr0,
        tr = tr0 ++ [Received componentId (Rejected e0)] /\ thrown (attempts tr) e0 e
  end.
Proof.
  rewrite run_getComponentMetadata. unfold requestWithRetry.
  pose proof (retryLoop_anywhere W string Metadata.t get random componentId 4 1 w eq_refl) as H.
  change MAX_RETRIES with 5 at 1.
  destruct (run get random (retryLoop componentId 5 1) w) as [[res w'] tr].
  destruct H as (Hn & _ & _ & tr0 & o & -> & _ & Hres).
  destruct o as [data|e0].
  - subst res. split; [unfold MAX_RETRIES; lia|]. eauto.
  - destruct Hres as (e & -> & Hth).
    replace (1 + attempts (tr0 ++ [Received componentId (Rejected e0)]) - 1)
      with (attempts (tr0 ++ [Received componentId (Rejected e0)])) in Hth by lia.
    destruct (notFound e) eqn:Hnf.
    + split.
      * rewrite attempts_app. cbn. unfold MAX_RETRIES. lia.
      * apply notFound_inv in Hnf. destruct Hnf as (status & -> & Hst).
        destruct Hth as [[_ <-]|(status' & _ & _ & _ & [=])].
        exists status, tr0. split; [exact Hst|]. now rewrite <- app_assoc.
    + split; [unfold MAX_RETRIES; lia|]. split; [exact Hnf|]. eauto.
Qed.
End MetadataAnywhere.

(** X6. When all five attempts of a metadata request are answered 503 or
    504, [getComponentMetadata] does not return [null]: it throws the
    [ApiError] of [requestWithRetry], with the last status and the attempt
    count 5, after exactly five requests. *)
Theorem getComponentMetadata_throws_when_retries_are_exhausted
    (s : Script.t Metadata.t) (componentId : string) :
  (forall i, i < MAX_RETRIES -> fails_transiently (Script.reply s i)) ->
  exists last tr,
    Script.reply s (MAX_RETRIES - 1) = Rejected (AxiosError (Some last)) /\
    Script.exec s (getComponentMetadata componentId) =
      (Rejected (ApiError (FailedAfter MAX_RETRIES last) (Some last) (Some MAX_RETRIES)), tr) /\
    attempts tr = MAX_RETRIES /\ length (delays tr) = MAX_RETRIES - 1.
Proof.
  intro Hfail.
  destruct (Hfail 4) as [last [Hlast Hretry]]; [unfold MAX_RETRIES; lia|].
  destruct (retryLoop_transient_prefix string Metadata.t componentId s 4 1 1 0 0)
    as [tr0 [Ha [Hd Hrun]]].
  - unfold MAX_RETRIES; lia.
  - intros i Hi. apply Hfail. unfold MAX_RETRIES; lia.
  - exists last,
      (tr0 ++ [Sent componentId; Received componentId (Rejected (AxiosError (Some last)))]).
    split; [exact Hlast|split; [|split]].
    + unfold Script.exec. rewrite run_getComponentMetadata. unfold requestWithRetry.
      change MAX_RETRIES with (4 + 1) at 1. rewrite Hrun. cbn [Nat.add].
      assert (Hresp : Script.respond (Rq:=string) s componentId (4, 4) =
                      (Rejected (AxiosError (Some last)), (5, 4))).
      { unfold Script.respond. cbn [fst snd]. now rewrite Hlast. }
      change 5 with MAX_RETRIES at 1.
      rewrite (run_retryLoop_exhausted _ _ _ _ _ _ _ _ _ _ Hresp Hretry).
      reflexivity.
    + rewrite attempts_app, Ha. reflexivity.
    + rewrite delays_app, length_app, Hd. reflexivity.
Qed.

Lemma getComponentMetadata_throws_when_retries_are_exhausted_witness :
  (forall i, i < MAX_RETRIES -> fails_transiently (Script.reply Down.script i)) /\
  exists last tr,
    Script.reply Down.script (MAX_RETRIES - 1) = Rejected (AxiosError (Some last)) /\
    Script.exec Down.script (getComponentMetadata "X") =
      (Rejected (ApiError (FailedAfter MAX_RETRIES last) (Some last) (Some MAX_RETRIES)), tr) /\
    attempts tr = MAX_RETRIES /\ length (delays tr) = MAX_RETRIES - 1.
Proof.
  assert (H : forall i, i < MAX_RETRIES -> fails_transiently (Script.reply Down.script i)).
  { intros i _. exists 503%Z. split; reflexivity. }
  split; [exact H|].
  exact (getComponentMetadata_throws_when_retries_are_exhausted Down.script "X" H).
Defined.

(** ** The traversal in any environment *)

Section TraversalAnywhere.
Variable W : Type.
Variable get : string -> W -> Outcome Metadata.t * W.
Variable post : QueryBody.t -> W -> Outcome QueryData * W.
Variable random : W -> Q * W.

Lemma settled_no_step (st st' : State W) (p : nat) :
  promise_state st 0 <> None -> step_at get post random p st = Some st' -> False.
Proof.
  intros Hs H. unfold step_at in H. destruct (promise_state st 0); [discriminate|].
  now apply Hs.
Qed.

(** X7. The traversal never comes to a halt before the promise of the root
    visit settles, and does nothing after: a state of a run has a next turn
    exactly when [findAllDependenciesRecursive] has not returned or thrown
    yet. *)
Theorem traversal_runs_until_root_settles (rootId : string) (w : W) (st : State W) :
  reachable get post random rootId w st ->
  ((exists st', step get post random st st') <-> result st = None).
Proof.
  intro Hr. split.
  - intros [st' [p Hp]]. unfold result.
    destruct (promise_state st 0) as [o|] eqn:E; [|reflexivity].
    exfalso. eapply settled_no_step; eauto. rewrite E. discriminate.
  - intro Hres. eapply progress; eauto.
    unfold result in Hres. destruct (promise_state st 0) as [[x|e]|]; auto; discriminate.
Qed.

Lemma settled_iff (st : State W) (q : nat) :
  In q (map fst (settled st)) <-> promise_state st q <> None.
Proof.
  split.
  - intros Hin Hn. apply promise_state_none in Hn. contradiction.
  - intro Hs. destruct (in_dec Nat.eq_dec q (map fst (settled st))) as [Hin|Hout]; auto.
    apply promise_state_none in Hout. contradiction.
Qed.

Lemma NoDup_below_length (l : list nat) (n : nat) :
  NoDup l -> (forall x, In x l <-> x < n) -> length l = n.
Proof.
  intros Hnd Hin. transitivity (length (seq 0 n)); [|apply length_seq].
  apply Permutation_length.
  apply NoDup_Permutation; auto using seq_NoDup.
  intro x. rewrite Hin, in_seq. lia.
Qed.

(** X8. When the traversal returns a graph, nothing is left behind: no
    call of [_recursiveHelper] is still suspended, every promise that was
    handed out is fulfilled, none is rejected, and there are exactly as many
    settlements as promises. *)
Theorem returned_graph_is_complete (rootId : string) (w : W) (st : State W)
    (nodes : list (string * Node.t)) (es : list Edge.t) :
  reachable get post random rootId w st ->
  result st = Some (Resolved (nodes, es)) ->
  tasks st = [] /\
  (forall q, q < fresh st -> fulfilled st q = true) /\
  (forall p, ~ rejected st p) /\
  length (settled st) = fresh st.
Proof.
  intros Hr Hres. apply result_fulfilled in Hres. destruct Hres as [H0 _].
  destruct (fulfilled_settled _ _ _ _ _ _ _ Hr H0) as [Hnone Hnorej].
  pose proof (reachable_promises _ _ _ _ _ _ _ Hr) as Hc.
  pose proof (fulfilled_all _ _ Hc H0) as Hall.
  split; [exact Hnone|split; [exact Hall|split; [exact Hnorej|]]].
  rewrite <- (length_map fst). apply NoDup_below_length.
  - apply (reachable_settled_once _ _ _ _ _ _ _ Hr).
  - intro q. destruct Hc as (_ & _ & Hlt & _). split.
    + intro Hin. apply Hlt. now apply settled_iff.
    + intro Hq. specialize (Hall q Hq). unfold fulfilled in Hall.
      destruct (promise_state st q) as [o|] eqn:E; [|discriminate].
      apply promise_state_in in E. apply in_map_iff. now exists (q, o).
Qed.

(** X9. In every state of a run a promise is either that of exactly one
    suspended call or settled exactly once, never both and never neither, and
    a turn neither withdraws a settlement nor changes its outcome. *)
Theorem promises_settle_once (rootId : string) (w : W) (st : State W) :
  reachable get post random rootId w st ->
  NoDup (map promise (tasks st)) /\
  NoDup (map fst (settled st)) /\
  (forall q, q < fresh st <->
     In q (map promise (tasks st)) \/ In q (map fst (settled st))) /\
  (forall q, In q (map promise (tasks st)) -> In q (map fst (settled st)) -> False) /\
  (forall st' q o,
     step get post random st st' ->
     promise_state st q = Some o -> promise_state st' q = Some o).
Proof.
  intro Hr.
  pose proof (reachable_promises _ _ _ _ _ _ _ Hr) as (Hnd & Htask & Hlt & Hcover & _).
  split; [exact Hnd|split; [apply (reachable_settled_once _ _ _ _ _ _ _ Hr)|]].
  split; [|split].
  - intro q. split.
    + intro Hq. destruct (Hcover q Hq) as [[t [Hin <-]]|Hs].
      * left. now apply in_map.
      * right. now apply settled_iff.
    + intros [Hin|Hin].
      * apply in_map_iff in Hin. destruct Hin as [t [<- Hin]]. now apply Htask.
      * apply Hlt. now apply settled_iff.
  - intros q Hin Hs. apply in_map_iff in Hin. destruct Hin as [t [<- Hin]].
    destruct (Htask t Hin) as [_ Hnone]. apply settled_iff in Hs. contradiction.
  - intros st' q o Hs Hq.
    destruct (step_transition _ _ _ _ _ _ _ _ Hr Hs) as [_ Htr].
    destruct (transition_grows _ _ _ _ _ _ Htr) as (_ & [more Hmore] & _).
    rewrite (promise_state_more _ _ _ _ _ Hmore), Hq. reflexivity.
Qed.

Lemma in_recorded_inv (tr : list Event) (e : Edge.t) :
  In e (recorded tr) ->
  exists q data ids,
    In (ReferenceEvent (Received q (Resolved data))) tr /\
    flatten data = Some ids /\ In (Edge.target e) ids /\
    Edge.source e = QueryBody.parentComponentId q.
Proof.
  unfold recorded. rewrite in_flat_map. intros [ev [Hin He]].
  destruct ev as [ev|[q|q [data|err]|l|ms]]; try destruct He.
  destruct (flatten data) as [ids|] eqn:Hf; [|destruct He].
  apply in_map_iff in He. destruct He as [d [<- Hd]].
  exists q, data, ids. auto.
Qed.

Lemma in_map_set (k : string) (v : Node.t) (m : list (string * Node.t)) (k' : string) (n : Node.t) :
  In (k', n) (map_set k v m) -> (k' = k /\ n = v) \/ In (k', n) m.
Proof.
  induction m as [|[k0 v0] m IH]; cbn.
  - intros [[= <- <-]|[]]. now left.
  - destruct (String.eqb_spec k k0) as [->|Hne].
    + intros [[= <- <-]|Hin]; [now left|right; now right].
    + intros [Hin|Hin]; [right; now left|].
      destruct (IH Hin) as [H|H]; [now left|right; now right].
Qed.

Lemma transition_nodes (st st' : State W) :
  nodes_from_responses st -> transition get post random st st' -> nodes_from_responses st'.
Proof.
  intros Hn Htr k n Hin.
  destruct (transition_grows _ _ _ _ _ _ Htr) as ([more Hmore] & _).
  assert (Hold : In (k, n) (nodesMap st) ->
                 exists data,
                   In (MetadataEvent (Received k (Resolved data))) (trace st') /\
                   n = Node.mk k (Metadata.name data) (Metadata.type data)).
  { intro H. destruct (Hn k n H) as (data & Hd & ->). exists data. split; auto.
    rewrite Hmore. apply in_or_app. now left. }
  inversion Htr; subst; cbn [nodesMap] in Hin; auto.
  apply in_map_set in Hin. destruct Hin as [[-> ->]|Hin]; auto.
  exists data. split; [|reflexivity]. cbn [trace]. apply in_or_app. right. now left.
Qed.

Lemma reachable_nodes (rootId : string) (w : W) (st : State W) :
  reachable get post random rootId w st -> nodes_from_responses st.
Proof.
  apply reachable_transition_ind.
  - rewrite start_explicit. intros k n [].
  - intros st0 st1 _ IH _ Htr. eapply transition_nodes; eauto.
Qed.

Lemma reachable_node_ids (rootId : string) (w : W) (st : State W) :
  reachable get post random rootId w st ->
  map Node.id (map_values (nodesMap st)) = keys st.
Proof.
  intro Hr. pose proof (reachable_nodes _ _ _ Hr) as Hn.
  unfold keys, map_keys, map_values. rewrite map_map. apply map_ext_in.
  intros [k n] Hin. cbn. destruct (Hn k n Hin) as (data & _ & ->). reflexivity.
Qed.

(** X11. In every state of a run each node of the map has its key as
    [id], and its [name] and [type] are those of a successful metadata
    response for that identifier; so the [id]s of the nodes written out are
    pairwise distinct.  No turn removes a key from the map. *)
Theorem nodes_are_keyed_by_id (rootId : string) (w : W) (st : State W) :
  reachable get post random rootId w st ->
  (forall k n, In (k, n) (nodesMap st) ->
     Node.id n = k /\
     exists data,
       In (MetadataEvent (Received k (Resolved data))) (trace st) /\
       Node.name n = Metadata.name data /\ Node.type n = Metadata.type data) /\
  NoDup (map Node.id (map_values (nodesMap st))) /\
  (forall st', step get post random st st' ->
     forall k, In k (keys st) -> In k (keys st')).
Proof.
  intro Hr. pose proof (reachable_nodes _ _ _ Hr) as Hn.
  assert (Hid : forall k n, In (k, n) (nodesMap st) -> Node.id n = k).
  { intros k n Hin. destruct (Hn k n Hin) as (data & _ & ->). reflexivity. }
  split; [|split].
  - intros k n Hin. split; [now apply Hid|].
    destruct (Hn k n Hin) as (data & Hd & ->). exists data. auto.
  - rewrite (reachable_node_ids _ _ _ Hr).
    apply (reachable_graph _ _ _ _ _ _ _ Hr).
  - intros st' Hs. destruct (step_transition _ _ _ _ _ _ _ _ Hr Hs) as [_ Htr].
    apply (transition_grows _ _ _ _ _ _ Htr).
Qed.

Lemma transition_keys (st st' : State W) :
  transition get post random st st' -> exists more, keys st' = keys st ++ more.
Proof.
  intro Htr. inversion Htr; subst; unfold keys; cbn [nodesMap];
    try (exists []; now rewrite app_nil_r).
  rewrite map_set_keys. destruct (map_has componentId (nodesMap st)).
  - exists []. now rewrite app_nil_r.
  - eexists. reflexivity.
Qed.

Lemma not_found_more (tr more : list Event) (x : string) :
  ~ not_found_in tr x ->
  (forall e, In (MetadataEvent (Received x (Rejected e))) more -> notFound e = false) ->
  ~ not_found_in (tr ++ more) x.
Proof.
  intros Hold Hnew (e & Hin & He). apply in_app_or in Hin. destruct Hin as [Hin|Hin].
  - apply Hold. now exists e.
  - rewrite (Hnew e Hin) in He. discriminate.
Qed.

Lemma retryable_not_found (status : Z) :
  retryable status = true -> notFound (AxiosError (Some status)) = false.
Proof.
  intro H. destruct (notFound (AxiosError (Some status))) eqn:E; [|reflexivity].
  apply notFound_not_transient in E. cbn in E. congruence.
Qed.

Lemma no_others (p : nat) (st : State W) :
  (forall t, In t (tasks st) -> promise t = p) -> others p st = [].
Proof.
  intro H. destruct (others p st) as [|t l] eqn:E; [reflexivity|].
  assert (Hin : In t (others p st)) by (rewrite E; now left).
  apply in_others in Hin. destruct Hin as [Hin Hne]. now apply H in Hin.
Qed.

Ltac new_event Hin :=
  lazymatch type of Hin with
  | In _ [] => destruct Hin
  | In _ (_ :: _) => destruct Hin as [Hin|Hin]; [try discriminate Hin|new_event Hin]
  | _ => idtac
  end.

Lemma transition_rooted (rootId : string) (st st' : State W) :
  promises_consistent st -> rooted rootId st ->
  transition get post random st st' -> rooted rootId st'.
Proof.
  intros Hc [(Hk & He & Hform & Hlive)|((rest & Hk) & Hnone & Hnf)] Htr.
  - assert (Hall : forall t, In t (tasks st) -> promise t = 0).
    { intros t Ht. destruct (Hform t Ht) as [c ->]. reflexivity. }
    assert (Hm : nodesMap st = []).
    { unfold keys, map_keys in Hk. now apply map_eq_nil in Hk. }
    inversion Htr as
      [p c r a status w1 x w2 Hin
      |p c r a ms Hin
      |p c r a data w1 Hin
      |p c r a e w1 Hin Hget Htrans Hnot
      |p c r a e e' w1 Hin Hget Hth Hnot
      |p c version r a status w1 x w2 Hin
      |p c version r a ms Hin
      |p c version r a data ids w1 Hin
      |p c version r a o e w1 Hin
      |p c ps o Hin]; subst;
      destruct (Hform _ Hin) as [c0 E]; try discriminate E;
      injection E as -> -> <-;
      assert (Hlive' : ~ not_found_in (trace st) rootId)
        by (destruct Hlive as [[_ Hl]|[Hl _]]; [exact Hl|rewrite Hl in Hin; destruct Hin]).
    + left. unfold keys. cbn [nodesMap edges tasks trace].
      split; [exact Hk|split; [exact He|split]].
      * intros t Ht. apply in_app_or in Ht. destruct Ht as [Ht|[<-|[]]]; [|eauto].
        apply in_others in Ht. now apply Hform.
      * left. split; [intro Hnil; apply app_eq_nil in Hnil; destruct Hnil; discriminate|].
        apply not_found_more; auto. intros e Hev. new_event Hev.
        injection Hev as <-. now apply retryable_not_found.
    + left. unfold keys. cbn [nodesMap edges tasks trace].
      split; [exact Hk|split; [exact He|split]].
      * intros t Ht. apply in_app_or in Ht. destruct Ht as [Ht|[<-|[]]]; [|eauto].
        apply in_others in Ht. now apply Hform.
      * left. split; [intro Hnil; apply app_eq_nil in Hnil; destruct Hnil; discriminate|].
        apply not_found_more; auto. intros e Hev. new_event Hev.
    + right. unfold keys. cbn [nodesMap edges tasks trace]. rewrite Hm.
      split; [exists []; reflexivity|split].
      * intros p c Ht. apply in_app_or in Ht. destruct Ht as [Ht|[[=]|[]]].
        apply in_others in Ht. destruct Ht as [Ht Hne]. now apply Hall in Ht.
      * apply not_found_more; auto. intros e Hev. new_event Hev.
    + left. unfold keys. cbn [nodesMap edges tasks trace].
      split; [exact Hk|split; [exact He|split]].
      * intros t Ht. apply in_others in Ht. now apply Hform.
      * right. split; [now apply no_others|]. left.
        exists e. split; [|exact Hnot]. apply in_or_app. right. now left.
    + left. unfold keys. cbn [nodesMap edges tasks trace].
      split; [exact Hk|split; [exact He|split]].
      * intros t Ht. apply in_others in Ht. now apply Hform.
      * right. split; [now apply no_others|]. right.
        exists e'. unfold promise_state. cbn [settled].
        destruct Hc as (_ & Htask & _). destruct (Htask _ Hin) as [_ H0]. cbn in H0.
        unfold promise_state in H0. rewrite find_append.
        destruct (find _ (settled st)); [discriminate H0|reflexivity].
  - destruct (transition_keys _ _ Htr) as [more Hmore].
    right. split; [exists (rest ++ more); now rewrite Hmore, Hk|].
    assert (Hroot : map_has rootId (nodesMap st) = true).
    { apply map_has_keys. fold (keys st). rewrite Hk. now left. }
    inversion Htr as
      [p c r a status w1 x w2 Hin
      |p c r a ms Hin
      |p c r a data w1 Hin
      |p c r a e w1 Hin Hget Htrans Hnot
      |p c r a e e' w1 Hin Hget Hth Hnot
      |p c version r a status w1 x w2 Hin
      |p c version r a ms Hin
      |p c version r a data ids w1 Hin
      |p c version r a o e w1 Hin
      |p c ps o Hin]; subst; cbn [tasks trace];
      (split;
       [intros p0 c0 Ht;
        repeat (apply in_app_or in Ht; destruct Ht as [Ht|Ht]);
        [apply in_others in Ht; destruct Ht as [Ht _]; now apply Hnone in Ht|..]
       |try (apply not_found_more; auto; intros e0 Hev; new_event Hev)]).
    all: try (destruct Ht as [Ht|[]]; try discriminate Ht;
              injection Ht as <- <-; now apply Hnone in Hin).
    all: try (injection Hev as <- <-; now apply Hnone in Hin).
    all: try (injection Hev as <-; now apply Hnone in Hin).
    + apply in_spawned in Ht. destruct Ht as (d & E & _ & _ & Hhas).
      injection E as <-. congruence.
    + rewrite <- app_assoc. apply not_found_more; auto. intros e0 Hev.
      destruct Hev as [Hev|Hev]; [discriminate Hev|].
      apply in_requested in Hev. destruct Hev as (d & Hev & _). discriminate Hev.
    + exact Hnf.
Qed.

Lemma reachable_rooted (rootId : string) (w : W) (st : State W) :
  reachable get post random rootId w st -> rooted rootId st.
Proof.
  revert st. apply (reachable_transition_ind _ get post random rootId w (rooted rootId)).
  - rewrite start_explicit. left. unfold keys. cbn.
    split; [reflexivity|split; [reflexivity|split]].
    + intros t [<-|[]]. eauto.
    + left. split; [discriminate|]. intros (e & [Hin|[]] & _). discriminate Hin.
  - intros st0 st1 Hr0 IH _ Htr. eapply transition_rooted; eauto.
    apply (reachable_promises _ _ _ _ _ _ _ Hr0).
Qed.

(** X12. The root comes first: in every state of a run the map of nodes
    is empty or its first key is the root identifier, and while it is empty
    there is no edge.  The graph a run returns is empty exactly when the
    metadata request of the root was answered 400 or 404. *)
Theorem root_is_first_node (rootId : string) (w : W) (st : State W) :
  reachable get post random rootId w st ->
  (keys st = [] \/ exists rest, keys st = rootId :: rest) /\
  (keys st = [] -> edges st = []) /\
  (forall nodes es,
     result st = Some (Resolved (nodes, es)) ->
     (nodes = [] <-> not_found_in (trace st) rootId)).
Proof.
  intro Hr. pose proof (reachable_rooted _ _ _ Hr) as Hroot.
  split; [|split].
  - destruct Hroot as [(Hk & _)|(Hk & _)]; auto.
  - intro Hk. destruct Hroot as [(_ & He & _)|((rest & Hk') & _)]; [exact He|].
    rewrite Hk in Hk'. discriminate.
  - intros nodes es Hres. apply result_fulfilled in Hres. destruct Hres as (H0 & -> & _).
    destruct (fulfilled_settled _ _ _ _ _ _ _ Hr H0) as [Hnone Hnorej].
    destruct Hroot as [(Hk & _ & _ & Hlive)|((rest & Hk) & _ & Hnf)].
    + assert (Hm : nodesMap st = []).
      { unfold keys, map_keys in Hk. now apply map_eq_nil in Hk. }
      split; [intros _|intros _; exact Hm].
      destruct Hlive as [[Hne _]|[_ [Hnf|Hrej]]]; [contradiction|exact Hnf|].
      now apply Hnorej in Hrej.
    + split; [|intro Hnf'; contradiction].
      intro Hm. unfold keys in Hk. rewrite Hm in Hk. discriminate.
Qed.

Lemma built_from_app (tr more : list Event) (q : QueryBody.t) :
  built_from tr q -> built_from (tr ++ more) q.
Proof. intros (data & Hin & Hv). exists data. split; auto. apply in_or_app. now left. Qed.

Lemma transition_queries (st st' : State W) :
  queries_follow_metadata st -> transition get post random st st' ->
  queries_follow_metadata st'.
Proof.
  intros (Hsent & Hcall & Hsleep) Htr.
  destruct (transition_grows _ _ _ _ _ _ Htr) as ([more Hmore] & _).
  assert (Hold : forall q, built_from (trace st) q -> built_from (trace st') q).
  { intros q Hq. rewrite Hmore. now apply built_from_app. }
  inversion Htr as
    [p c r a status w1 x w2 Hin
    |p c r a ms Hin
    |p c r a data w1 Hin
    |p c r a e w1 Hin Hget Htrans Hnot
    |p c r a e e' w1 Hin Hget Hth Hnot
    |p c version r a status w1 x w2 Hin Har Hne
    |p c version r a ms Hin Har
    |p c version r a data ids w1 Hin
    |p c version r a o e w1 Hin
    |p c ps o Hin]; subst;
    (split;
     [intros q Hq; cbn [trace] in Hq |- *;
      repeat (apply in_app_or in Hq; destruct Hq as [Hq|Hq]);
      [repeat apply built_from_app; now apply Hsent|..]
     |split;
      [intros p0 c0 v0 r0 a0 Ha0 Ht; cbn [tasks] in Ht;
       repeat (apply in_app_or in Ht; destruct Ht as [Ht|Ht]);
       [apply Hold; apply in_others in Ht; destruct Ht as [Ht _]; eauto|..]
      |intros p0 c0 v0 r0 a0 ms0 Ha0 Ht; cbn [tasks] in Ht;
       repeat (apply in_app_or in Ht; destruct Ht as [Ht|Ht]);
       [apply Hold; apply in_others in Ht; destruct Ht as [Ht _]; eauto|..]]]).
  all: try (new_event Hq; fail).
  all: try (destruct Ht as [Ht|[]]; discriminate Ht).
  all: try (apply in_requested in Hq; destruct Hq as (d & Hq & _); discriminate Hq).
  all: try (apply in_spawned in Ht; destruct Ht as (d & Ht & _); discriminate Ht).
  - (* metadata_found: the query sent *)
    new_event Hq. injection Hq as <-.
    exists data. split; [|reflexivity]. cbn. apply in_or_app. right. now left.
  - (* metadata_found: the new call *)
    destruct Ht as [Ht|[]].
    assert (E : dependenciesFrom c (Metadata.version data) MAX_RETRIES 1 =
                dependenciesFrom c0 v0 (S r0) a0) by congruence.
    assert (Ec : c = c0) by congruence. subst c0.
    change MAX_RETRIES with (S 4) in E at 1.
    apply dependenciesFrom_inj in E; [|reflexivity|exact Ha0]. destruct E as (<- & _).
    exists data. split; [|reflexivity]. cbn. apply in_or_app. right. now left.
  - (* dependencies_retry: the timer *)
    destruct Ht as [Ht|[]].
    assert (E : dependenciesFrom c version r (S a) = dependenciesFrom c0 v0 (S r0) a0)
      by congruence.
    assert (Ec : c = c0) by congruence. subst c0.
    destruct r as [|r]; [lia|].
    apply dependenciesFrom_inj in E; [|lia|exact Ha0]. destruct E as (<- & _).
    apply Hold. eapply Hcall; [|exact Hin]. exact Har.
  - (* dependencies_timer: the query sent again *)
    new_event Hq. injection Hq as <-.
    apply Hold. eapply Hsleep; [|exact Hin]. exact Har.
  - (* dependencies_timer: the call *)
    destruct Ht as [Ht|[]].
    assert (E : dependenciesFrom c version (S r) a = dependenciesFrom c0 v0 (S r0) a0)
      by congruence.
    assert (Ec : c = c0) by congruence. subst c0.
    apply dependenciesFrom_inj in E; [|exact Har|exact Ha0]. destruct E as (<- & _).
    apply Hold. eapply Hsleep; [|exact Hin]. exact Har.
Qed.

Lemma reachable_queries (rootId : string) (w : W) (st : State W) :
  reachable get post random rootId w st -> queries_follow_metadata st.
Proof.
  revert st. apply (reachable_transition_ind _ get post random rootId w (@queries_follow_metadata W)).
  - rewrite start_explicit. split; [|split]; cbn.
    + intros q [Hq|[]]. discriminate Hq.
    + intros p c v r a _ [Ht|[]]. discriminate Ht.
    + intros p c v r a ms _ [Ht|[]]. discriminate Ht.
  - intros st0 st1 _ IH _ Htr. eapply transition_queries; eauto.
Qed.

(** X13. A reference query is sent only for a component that is in the map
    of nodes, and the [parentVersion] it carries is the [version] of a
    successful metadata response for that component, retries included. *)
Theorem reference_queries_follow_metadata (rootId : string) (w : W) (st : State W) :
  reachable get post random rootId w st ->
  forall q, In (ReferenceEvent (Sent q)) (trace st) ->
    In (QueryBody.parentComponentId q) (keys st) /\
    exists data,
      In (MetadataEvent (Received (QueryBody.parentComponentId q) (Resolved data)))
         (trace st) /\
      QueryBody.parentVersion q = Metadata.version data.
Proof.
  intros Hr q Hq. split.
  - pose proof (reachable_graph _ _ _ _ _ _ _ Hr) as (_ & _ & _ & _ & Hsent & _).
    now apply Hsent.
  - now apply (reachable_queries _ _ _ Hr).
Qed.

Lemma transition_visits (st st' : State W) :
  fresh st = S (length (edges st)) -> transition get post random st st' ->
  fresh st' = S (length (edges st')).
Proof.
  intros H Htr. inversion Htr; subst; cbn [fresh edges]; auto.
  rewrite length_app, length_map. lia.
Qed.

Lemma reachable_visits (rootId : string) (w : W) (st : State W) :
  reachable get post random rootId w st -> fresh st = S (length (edges st)).
Proof.
  revert st.
  apply (reachable_transition_ind _ get post random rootId w
           (fun st => fresh st = S (length (edges st)))).
  - rewrite start_explicit. reflexivity.
  - intros st0 st1 _ IH _ Htr. eapply transition_visits; eauto.
Qed.

(** X10. The edges are exactly the references received: in every state of
    a run the array of edges is, in order and with repetitions, what the
    successful reference responses listed so far, each identifier under the
    component the query was about.  An edge is pushed for an identifier
    whether or not it was visited before. *)
Theorem edges_are_the_received_references (rootId : string) (w : W) (st : State W) :
  reachable get post random rootId w st ->
  edges st = recorded (trace st) /\
  fresh st = S (length (edges st)) /\
  (forall e, In e (edges st) <->
     exists q data ids,
       In (ReferenceEvent (Received q (Resolved data))) (trace st) /\
       flatten data = Some ids /\ In (Edge.target e) ids /\
       Edge.source e = QueryBody.parentComponentId q).
Proof.
  intro Hr. pose proof (reachable_graph _ _ _ _ _ _ _ Hr) as (_ & _ & _ & _ & _ & Hrec).
  split; [exact Hrec|split; [now apply (reachable_visits _ _ _ Hr)|]].
  intro e. rewrite Hrec. split.
  - apply in_recorded_inv.
  - intros (q & data & ids & Hin & Hf & Hd & Hsrc).
    destruct e as [s t]. cbn in *. subst s. eapply in_recorded; eauto.
Qed.
End TraversalAnywhere.

(** ** Witnesses for the traversal *)

Lemma traversal_runs_until_root_settles_witness :
  Fixed.reachable Scenario.metadata Scenario.references "R" (Fixed.start "R") /\
  ((exists st', Fixed.step Scenario.metadata Scenario.references (Fixed.start "R") st') <->
   result (Fixed.start "R") = None).
Proof.
  assert (H : Fixed.reachable Scenario.metadata Scenario.references "R" (Fixed.start "R"))
    by constructor.
  split; [exact H|].
  exact (traversal_runs_until_root_settles unit _ _ _ "R" tt (Fixed.start "R") H).
Defined.

Lemma returned_graph_is_complete_witness :
  Fixed.reachable Scenario.metadata Scenario.references "R" Scenario.final /\
  result Scenario.final = Some (Resolved (nodesMap Scenario.final, edges Scenario.final)) /\
  tasks Scenario.final = [] /\
  length (settled Scenario.final) = fresh Scenario.final.
Proof.
  split; [exact scenario_reachable|split; [reflexivity|]].
  destruct (returned_graph_is_complete unit _ _ _ "R" tt Scenario.final
              (nodesMap Scenario.final) (edges Scenario.final)
              scenario_reachable eq_refl) as (H1 & _ & _ & H4).
  split; [exact H1|exact H4].
Defined.

Lemma promises_settle_once_witness :
  Fixed.reachable Scenario.metadata Scenario.references "R" Scenario.final /\
  NoDup (map promise (tasks Scenario.final)) /\
  NoDup (map fst (settled Scenario.final)).
Proof.
  split; [exact scenario_reachable|].
  destruct (promises_settle_once unit _ _ _ "R" tt Scenario.final scenario_reachable)
    as (H1 & H2 & _).
  split; [exact H1|exact H2].
Defined.

Lemma edges_are_the_received_references_witness :
  Fixed.reachable Scenario.metadata Scenario.references "R" Scenario.final /\
  edges Scenario.final = recorded (trace Scenario.final) /\
  fresh Scenario.final = S (length (edges Scenario.final)).
Proof.
  split; [exact scenario_reachable|].
  destruct (edges_are_the_received_references unit _ _ _ "R" tt Scenario.final
              scenario_reachable) as (H1 & H2 & _).
  split; [exact H1|exact H2].
Defined.

Lemma nodes_are_keyed_by_id_witness :
  Fixed.reachable Scenario.metadata Scenario.references "R" Scenario.final /\
  NoDup (map Node.id (map_values (nodesMap Scenario.final))).
Proof.
  split; [exact scenario_reachable|].
  exact (proj1 (proj2 (nodes_are_keyed_by_id unit _ _ _ "R" tt Scenario.final
                         scenario_reachable))).
Defined.

Lemma root_is_first_node_witness :
  Fixed.reachable Missing.metadata Missing.references "R" Missing.final /\
  (keys Missing.final = [] \/ exists rest, keys Missing.final = "R" :: rest) /\
  (forall nodes es,
     result Missing.final = Some (Resolved (nodes, es)) ->
     (nodes = [] <-> not_found_in (trace Missing.final) "R")).
Proof.
  assert (H : Fixed.reachable Missing.metadata Missing.references "R" Missing.final).
  { unfold Fixed.reachable, Missing.final, Fixed.run_first.
    apply run_first_reachable. constructor. }
  split; [exact H|].
  destruct (root_is_first_node unit _ _ _ "R" tt Missing.final H) as (H1 & _ & H3).
  split; [exact H1|exact H3].
Defined.

Lemma reference_queries_follow_metadata_witness :
  Fixed.reachable Scenario.metadata Scenario.references "R" Scenario.final /\
  forall q, In (ReferenceEvent (Sent q)) (trace Scenario.final) ->
    In (QueryBody.parentComponentId q) (keys Scenario.final) /\
    exists data,
      In (MetadataEvent (Received (QueryBody.parentComponentId q) (Resolved data)))
         (trace Scenario.final) /\
      QueryBody.parentVersion q = Metadata.version data.
Proof.
  split; [exact scenario_reachable|].
  exact (reference_queries_follow_metadata unit _ _ _ "R" tt Scenario.final
           scenario_reachable).
Defined.

(** ** The fan-out over a reference list *)

Lemma spawned_length (ids : list string) (nodes : list (string * Node.t)) :
  forall p,
    length (spawned p nodes ids) =
    length (filter (fun d => negb (map_has d nodes)) ids).
Proof.
  induction ids as [|d l IH]; intro p; cbn [spawned filter]; [reflexivity|].
  rewrite length_app, IH. now destruct (map_has d nodes).
Qed.



(** ** What the main block does to the disk *)

Lemma read_map_set_other (path path' : string) (data : Json) (l : list (string * Json)) :
  path' <> path ->
  option_map snd (find (fun kv => String.eqb path' (fst kv)) (map_set path data l)) =
  option_map snd (find (fun kv => String.eqb path' (fst kv)) l).
Proof.
  intro Hne. induction l as [|[k v] l IH]; cbn.
  - apply String.eqb_neq in Hne. now rewrite Hne.
  - destruct (String.eqb_spec path k) as [->|Hk]; cbn.
    + apply String.eqb_neq in Hne. now rewrite Hne.
    + destruct (String.eqb path' k); [reflexivity|exact IH].
Qed.

(** X14. The main block touches one file.  When the traversal threw, the
    run ends with status 1 without writing: the disk is as it was, an earlier
    [graph.json] included.  A run that ends with status 0 had a graph returned
    and has replaced the content of the output file by the serialised graph.
    No run changes any other file. *)
Theorem main_writes_only_the_output_file
    (r : Outcome (list (string * Node.t) * list Edge.t)) (fs : FileSystem) :
  (forall error, r = Rejected error ->
     status (main r fs) = 1%Z /\ disk (main r fs) = fs) /\
  (status (main r fs) = 0%Z ->
     exists nodes es,
       r = Resolved (nodes, es) /\
       read OUTPUT_FILE (disk (main r fs)) =
         Some (stringify (GraphData.mk (map_values nodes) es))) /\
  (forall path, path <> OUTPUT_FILE -> read path (disk (main r fs)) = read path fs) /\
  (forall path, writable (disk (main r fs)) path = writable fs path).
Proof.
  destruct r as [[nodes es]|e]; cbn [main]; unfold writeFile.
  - destruct (writable fs OUTPUT_FILE) eqn:Hw; cbn [status disk].
    + split; [discriminate|split; [|split]].
      * intros _. exists nodes, es. split; [reflexivity|]. apply read_map_set.
      * intros path Hne. unfold read. cbn [files]. now apply read_map_set_other.
      * reflexivity.
    + split; [discriminate|split; [discriminate|split; reflexivity]].
  - cbn [status disk]. split; [auto|split; [discriminate|split; reflexivity]].
Qed.

(** ** The reference resolver in any environment *)

(** X16. Whatever the service does, every request of [getDependencies]
    carries the same query body, with the identifier and the version it was
    called with, and there are at most five.  The call ends either with the
    flattened list of the last response and nothing logged after it, or with
    the empty list and the error line as the last thing it does. *)
Theorem getDependencies_requests
    (W : Type) (post : QueryBody.t -> W -> Outcome QueryData * W) (random : W -> Q * W)
    (componentId : string) (version : option Z) (w : W) :
  let '(res, _, tr) := run post random (getDependencies componentId version) w in
  attempts tr <= MAX_RETRIES /\
  (forall q, In (Sent q) tr ->
     QueryBody.parentComponentId q = componentId /\ QueryBody.parentVersion q = version) /\
  ((exists data ids tr0,
      res = Resolved ids /\ flatten data = Some ids /\
      tr = tr0 ++ [Received (QueryBody.mk componentId version) (Resolved data)]) \/
   (exists e tr0,
      res = Resolved [] /\ tr = tr0 ++ [Printed (DependenciesError componentId e)])).
Proof.
  unfold getDependencies. rewrite run_try_catch, run_bind. unfold requestWithRetry.
  pose proof (retryLoop_anywhere W QueryBody.t QueryData post random
                (QueryBody.mk componentId version) 4 1 w eq_refl) as H.
  change MAX_RETRIES with 5 at 1.
  destruct (run post random (retryLoop (QueryBody.mk componentId version) 5 1) w)
    as [[res w'] tr].
  destruct H as (Hn & _ & Hs & tr0 & o & Htr & _ & Hres).
  assert (Hsent : forall more q,
             (forall q', In (Sent q') more -> False) ->
             In (Sent q) (tr ++ more) ->
             QueryBody.parentComponentId q = componentId /\
             QueryBody.parentVersion q = version).
  { intros more q Hmore Hin. apply in_app_or in Hin. destruct Hin as [Hin|Hin].
    - now rewrite (Hs q Hin).
    - now apply Hmore in Hin. }
  destruct o as [data|e0].
  - subst res. destruct (flatten data) as [ids|] eqn:Hf; cbn.
    + rewrite app_nil_r. split; [unfold MAX_RETRIES; lia|split].
      * intros q Hq. apply (Hsent [] q); [intros q' []|now rewrite app_nil_r].
      * left. exists data, ids, tr0. auto.
    + rewrite app_nil_r. split; [|split].
      * rewrite attempts_app. cbn. unfold MAX_RETRIES. lia.
      * intros q Hq. apply (Hsent _ q) in Hq; auto. intros q' [[=]|[]].
      * right. exists TypeError, tr. auto.
  - destruct Hres as (e & -> & _). cbn. split; [|split].
    + rewrite attempts_app. cbn. unfold MAX_RETRIES. lia.
    + intros q Hq. apply (Hsent _ q) in Hq; auto. intros q' [[=]|[]].
    + right. exists e, tr. auto.
Qed.

(** ** The number of requests of a run *)

Lemma metadataFrom_inj (c : string) (r a r' a' : nat) :
  metadataFrom c (S r) a = metadataFrom c (S r') a' ->
  a + r = MAX_RETRIES -> a' + r' = MAX_RETRIES -> a = a' /\ r = r'.
Proof.
  intros E Ha Ha'. unfold metadataFrom in E.
  apply retryFrom_inj in E; auto; [tauto|].
  intros e k. destruct (notFound e); discriminate.
Qed.

Lemma metadataFrom_call (c : string) (r a : nat) ms
    (k : Prog string Metadata.t (option ComponentInfo.t)) :
  metadataFrom c (S r) a <> Sleep ms k.
Proof.
  intro H. unfold metadataFrom, retryFrom in H.
  cbn [retryLoop bind try_catch] in H. discriminate H.
Qed.

Lemma dependenciesFrom_call (c : string) (v : option Z) (r a : nat) ms
    (k : Prog QueryBody.t QueryData (list string)) :
  dependenciesFrom c v (S r) a <> Sleep ms k.
Proof.
  intro H. unfold dependenciesFrom, retryFrom in H.
  cbn [retryLoop bind try_catch] in H. discriminate H.
Qed.

Lemma budget_metadata_request p c r a b :
  a + r = MAX_RETRIES ->
  (budget (mkTask p (AwaitMetadata c (Waiting (metadataFrom c (S r) a)))) b <->
   b = r + MAX_RETRIES).
Proof.
  intro Ha. unfold budget. cbn [visit]. split.
  - intros (r' & a' & Ha' & [[E ->]|(ms & E & _)]).
    + apply metadataFrom_inj in E; auto. destruct E as [_ ->]. reflexivity.
    + now apply metadataFrom_call in E.
  - intros ->. exists r, a. auto.
Qed.

Lemma budget_metadata_delay p c r a ms b :
  a + r = MAX_RETRIES ->
  (budget (mkTask p (AwaitMetadata c (Waiting (Sleep ms (metadataFrom c (S r) a))))) b <->
   b = S r + MAX_RETRIES).
Proof.
  intro Ha. unfold budget. cbn [visit]. split.
  - intros (r' & a' & Ha' & [[E ->]|(ms' & E & ->)]).
    + symmetry in E. now apply metadataFrom_call in E.
    + assert (E' : metadataFrom c (S r) a = metadataFrom c (S r') a') by congruence.
      apply metadataFrom_inj in E'; auto. destruct E' as [_ ->]. reflexivity.
  - intros ->. exists r, a. split; auto. right. eauto.
Qed.

Lemma budget_dependencies_request p c v r a b :
  a + r = MAX_RETRIES ->
  (budget (mkTask p (AwaitDependencies c (Waiting (dependenciesFrom c v (S r) a)))) b <->
   b = r).
Proof.
  intro Ha. unfold budget. cbn [visit]. split.
  - intros (v' & r' & a' & Ha' & [[E ->]|(ms & E & _)]).
    + apply dependenciesFrom_inj in E; auto. destruct E as (_ & _ & ->). reflexivity.
    + now apply dependenciesFrom_call in E.
  - intros ->. exists v, r, a. auto.
Qed.

Lemma budget_dependencies_delay p c v r a ms b :
  a + r = MAX_RETRIES ->
  (budget (mkTask p (AwaitDependencies c
                       (Waiting (Sleep ms (dependenciesFrom c v (S r) a))))) b <->
   b = S r).
Proof.
  intro Ha. unfold budget. cbn [visit]. split.
  - intros (v' & r' & a' & Ha' & [[E ->]|(ms' & E & ->)]).
    + symmetry in E. now apply dependenciesFrom_call in E.
    + assert (E' : dependenciesFrom c v (S r) a = dependenciesFrom c v' (S r') a')
        by congruence.
      apply dependenciesFrom_inj in E'; auto. destruct E' as (_ & _ & ->). reflexivity.
  - intros ->. exists v, r, a. split; auto. right. eauto.
Qed.

Lemma budgets_app (l1 l2 : list Task) (B1 B2 : nat) :
  budgets l1 B1 -> budgets l2 B2 -> budgets (l1 ++ l2) (B1 + B2).
Proof.
  revert B1. induction l1 as [|t l IH]; intros B1 H1 H2; cbn in *.
  - now subst.
  - destruct H1 as (b & B' & Hb & Hl & ->). exists b, (B' + B2).
    split; [exact Hb|split; [now apply IH|lia]].
Qed.

Lemma budgets_one (t : Task) (b : nat) : budget t b -> budgets [t] b.
Proof. intro H. exists b, 0. cbn. split; [exact H|split; [reflexivity|lia]]. Qed.

Lemma filter_all {A} (f : A -> bool) (l : list A) :
  (forall x, In x l -> f x = true) -> filter f l = l.
Proof.
  induction l as [|x l IH]; intro H; cbn; [reflexivity|].
  rewrite (H x) by now left. f_equal. apply IH. intros y Hy. apply H. now right.
Qed.

(** Taking a suspended call out of the list takes its budget out of the sum. *)
Lemma budgets_without (ts : list Task) (t : Task) :
  forall B,
    NoDup (map promise ts) -> In t ts -> budgets ts B ->
    exists b B0,
      budget t b /\
      budgets (filter (fun t' => negb (Nat.eqb (promise t') (promise t))) ts) B0 /\
      B = b + B0.
Proof.
  induction ts as [|t0 l IH]; intros B Hnd Hin HB; [destruct Hin|].
  cbn [map] in Hnd. apply NoDup_cons_iff in Hnd. destruct Hnd as [Hfresh Hnd].
  cbn [budgets] in HB. destruct HB as (b0 & B' & Hb0 & Hl & ->).
  cbn [filter]. destruct Hin as [->|Hin].
  - rewrite Nat.eqb_refl. cbn [negb]. exists b0, B'. split; [exact Hb0|split; [|reflexivity]].
    rewrite filter_all; [exact Hl|].
    intros t' Ht'. apply negb_true_iff, Nat.eqb_neq. intro E.
    apply Hfresh. rewrite <- E. now apply in_map.
  - destruct (Nat.eqb_spec (promise t0) (promise t)) as [E|Hne].
    + exfalso. apply Hfresh. rewrite E. now apply in_map.
    + cbn [negb]. destruct (IH B' Hnd Hin Hl) as (b & B0 & Hb & Hrest & ->).
      exists b, (b0 + B0). split; [exact Hb|split; [|lia]].
      cbn [budgets]. exists b0, B0. auto.
Qed.

Lemma sent_total_app (tr1 tr2 : list Event) :
  sent_total (tr1 ++ tr2) = sent_total tr1 + sent_total tr2.
Proof. unfold sent_total. now rewrite filter_app, length_app. Qed.

Lemma fan_out_budget (ids : list string) (nodes : list (string * Node.t)) :
  forall p, exists B,
    budgets (spawned p nodes ids) B /\
    sent_total (requested nodes ids) + B <= 2 * MAX_RETRIES * length ids.
Proof.
  induction ids as [|d l IH]; intro p; cbn [spawned requested length].
  - exists 0. cbn. split; [reflexivity|lia].
  - destruct (IH (S p)) as (B & HB & Hle). destruct (map_has d nodes); cbn [app].
    + exists B. split; [exact HB|]. unfold MAX_RETRIES in *. lia.
    + exists (4 + MAX_RETRIES + B). split.
      * cbn [budgets]. exists (4 + MAX_RETRIES), B. split; [|auto].
        change MAX_RETRIES with (S 4) at 1.
        now apply budget_metadata_request.
      * change (MetadataEvent (Sent d) :: requested nodes l)
          with ([MetadataEvent (Sent d)] ++ requested nodes l).
        rewrite sent_total_app. cbn [sent_total filter length app].
        unfold MAX_RETRIES in *. lia.
Qed.

Lemma requests_le_sent_total (c : string) (tr : list Event) :
  requests_for_metadata c tr + requests_for_references c tr <= sent_total tr.
Proof.
  unfold requests_for_metadata, requests_for_references, sent_total.
  induction tr as [|ev tr IH]; [reflexivity|].
  destruct ev as [[c0| | |]|[q| | |]]; cbn [filter length]; try lia.
  - destruct (String.eqb c0 c); cbn [length]; lia.
  - destruct (String.eqb (QueryBody.parentComponentId q) c); cbn [length]; lia.
Qed.

Section RequestCount.
Variable W : Type.
Variable get : string -> W -> Outcome Metadata.t * W.
Variable post : QueryBody.t -> W -> Outcome QueryData * W.
Variable random : W -> Q * W.

Ltac count_sent :=
  cbn [trace fresh]; rewrite ?sent_total_app; unfold sent_total;
  cbn [filter length]; unfold MAX_RETRIES in *; try lia.

Lemma transition_requests (st st' : State W) :
  NoDup (map promise (tasks st)) -> requests_bounded st ->
  transition get post random st st' -> requests_bounded st'.
Proof.
  intros Hnd (B & HB & Hle) Htr.
  inversion Htr as
    [p c r a status w1 x w2 Hin Har Hne
    |p c r a ms Hin Har
    |p c r a data w1 Hin
    |p c r a e w1 Hin Hget Htrans Hnot
    |p c r a e e' w1 Hin Hget Hth Hnot
    |p c version r a status w1 x w2 Hin Har Hne
    |p c version r a ms Hin Har
    |p c version r a data ids w1 Hin
    |p c version r a o e w1 Hin
    |p c ps o Hin]; subst;
    destruct (budgets_without _ _ B Hnd Hin HB) as (b & B0 & Hb & Hrest & ->);
    cbn [promise] in Hrest; fold (others p st) in Hrest; unfold requests_bounded;
    cbn [tasks].
  - apply budget_metadata_request in Hb; [subst b|exact Har].
    destruct r as [|r]; [lia|].
    exists (B0 + (S r + MAX_RETRIES)). split.
    + apply budgets_app; [exact Hrest|]. apply budgets_one.
      apply budget_metadata_delay; [lia|reflexivity].
    + revert Hle. count_sent.
  - apply budget_metadata_delay in Hb; [subst b|exact Har].
    exists (B0 + (r + MAX_RETRIES)). split.
    + apply budgets_app; [exact Hrest|]. apply budgets_one.
      apply budget_metadata_request; [exact Har|reflexivity].
    + revert Hle. count_sent.
  - assert (Hb' : exists r' a', a' + r' = MAX_RETRIES /\ b = r' + MAX_RETRIES).
    { unfold budget in Hb. cbn [visit] in Hb.
      destruct Hb as (r' & a' & Ha' & [[E ->]|(ms & E & _)]); [eauto|].
      now apply metadataFrom_call in E. }
    destruct Hb' as (r' & a' & Ha' & ->).
    exists (B0 + 4). split.
    + apply budgets_app; [exact Hrest|]. apply budgets_one.
      change MAX_RETRIES with (S 4) at 1.
      apply budget_dependencies_request; reflexivity.
    + revert Hle. count_sent.
  - exists B0. split; [exact Hrest|]. revert Hle. count_sent.
  - exists B0. split; [exact Hrest|]. revert Hle. count_sent.
  - apply budget_dependencies_request in Hb; [subst b|exact Har].
    destruct r as [|r]; [lia|].
    exists (B0 + S r). split.
    + apply budgets_app; [exact Hrest|]. apply budgets_one.
      apply budget_dependencies_delay; [lia|reflexivity].
    + revert Hle. count_sent.
  - apply budget_dependencies_delay in Hb; [subst b|exact Har].
    exists (B0 + r). split.
    + apply budgets_app; [exact Hrest|]. apply budgets_one.
      apply budget_dependencies_request; [exact Har|reflexivity].
    + revert Hle. count_sent.
  - destruct (fan_out_budget ids (nodesMap st) (fresh st)) as (Bs & HBs & Hfan).
    exists ((B0 + Bs) + 0). split.
    + apply budgets_app; [now apply budgets_app|]. now apply budgets_one.
    + revert Hle Hfan. count_sent.
  - exists (B0 + 0). split.
    + apply budgets_app; [exact Hrest|]. now apply budgets_one.
    + revert Hle. count_sent.
  - exists B0. split; [exact Hrest|]. revert Hle. count_sent.
Qed.

Lemma reachable_requests (rootId : string) (w : W) (st : State W) :
  reachable get post random rootId w st -> requests_bounded st.
Proof.
  revert st.
  apply (reachable_transition_ind _ get post random rootId w (@requests_bounded W)).
  - rewrite start_explicit. exists (4 + MAX_RETRIES). split.
    + apply budgets_one. change MAX_RETRIES with (S 4) at 1.
      now apply budget_metadata_request.
    + reflexivity.
  - intros st0 st1 Hr0 IH _ Htr. eapply transition_requests; eauto.
    apply (reachable_promises _ _ _ _ _ _ _ Hr0).
Qed.

(** X17. A run sends at most ten requests per call of [_recursiveHelper]
    (five attempts for the metadata, five for the references), and there is
    one call per edge and one for the root: at every point of a run, under
    every service and every order of responses, the number of requests sent
    so far is at most [10 * (1 + number of edges)]; so is the number of
    requests about any one component. *)
Theorem requests_are_bounded_by_edges (rootId : string) (w : W) (st : State W) :
  reachable get post random rootId w st ->
  sent_total (trace st) <= 2 * MAX_RETRIES * fresh st /\
  sent_total (trace st) <= 10 * (1 + length (edges st)) /\
  (forall componentId,
     requests_for_metadata componentId (trace st) +
     requests_for_references componentId (trace st) <= 10 * (1 + length (edges st))).
Proof.
  intro Hr. destruct (reachable_requests _ _ _ Hr) as (B & _ & Hle).
  pose proof (reachable_visits _ _ _ _ _ _ _ Hr) as Hv.
  assert (Hall : sent_total (trace st) <= 10 * (1 + length (edges st))).
  { rewrite Hv in Hle. unfold MAX_RETRIES in Hle. lia. }
  split; [lia|split; [exact Hall|]].
  intro c. eapply Nat.le_trans; [apply requests_le_sent_total|exact Hall].
Qed.
End RequestCount.

Lemma requests_are_bounded_by_edges_witness :
  Fixed.reachable Scenario.metadata Scenario.references "R" Scenario.final /\
  sent_total (trace Scenario.final) <= 10 * (1 + length (edges Scenario.final)).
Proof.
  split; [exact scenario_reachable|].
  exact (proj1 (proj2 (requests_are_bounded_by_edges unit _ _ _ "R" tt Scenario.final
                         scenario_reachable))).
Defined.

(** ** The written document and the renderer *)

Lemma elements_stringify (graphData : GraphData.t) :
  Renderer.elements (stringify graphData) =
  Some (map Renderer.wrap (map stringify_node (GraphData.nodes graphData)),
        map Renderer.wrap (map stringify_edge (GraphData.edges graphData))).
Proof. reflexivity. Qed.

Lemma data_of_nodes (key : string) (field : Node.t -> string) (ns : list Node.t) :
  (forall n, Renderer.data key (Renderer.wrap (stringify_node n)) = Some (field n)) ->
  map (Renderer.data key) (map Renderer.wrap (map stringify_node ns)) =
  map (fun n => Some (field n)) ns.
Proof. intro H. rewrite !map_map. apply map_ext. exact H. Qed.

Lemma data_of_edges (key : string) (field : Edge.t -> string) (es : list Edge.t) :
  (forall e, Renderer.data key (Renderer.wrap (stringify_edge e)) = Some (field e)) ->
  map (Renderer.data key) (map Renderer.wrap (map stringify_edge es)) =
  map (fun e => Some (field e)) es.
Proof. intro H. rewrite !map_map. apply map_ext. exact H. Qed.

(** X18. The renderer can take what the extractor writes.  For the graph a
    run returns and a writable output file, the document on disk has both
    arrays, so the page's mapping to Cytoscape elements does not throw; it
    yields one element per node and per edge, in order, whose [data] carries
    [id], [name], [type] and [source], [target] as written; and the [source]
    of every edge element is the [id] of a node element. *)
Theorem renderer_takes_written_document
    (W : Type) (get : string -> W -> Outcome Metadata.t * W)
    (post : QueryBody.t -> W -> Outcome QueryData * W) (random : W -> Q * W)
    (rootId : string) (w : W) (st : State W) (fs : FileSystem)
    (nodes : list (string * Node.t)) (es : list Edge.t) :
  reachable get post random rootId w st ->
  result st = Some (Resolved (nodes, es)) ->
  writable fs OUTPUT_FILE = true ->
  exists doc nodeElements edgeElements,
    read OUTPUT_FILE (disk (main (Resolved (nodes, es)) fs)) = Some doc /\
    Renderer.elements doc = Some (nodeElements, edgeElements) /\
    map (Renderer.data "id") nodeElements = map (fun n => Some (Node.id n)) (map_values nodes) /\
    map (Renderer.data "name") nodeElements =
      map (fun n => Some (Node.name n)) (map_values nodes) /\
    map (Renderer.data "type") nodeElements =
      map (fun n => Some (Node.type n)) (map_values nodes) /\
    map (Renderer.data "source") edgeElements = map (fun e => Some (Edge.source e)) es /\
    map (Renderer.data "target") edgeElements = map (fun e => Some (Edge.target e)) es /\
    (forall e, In e edgeElements ->
       exists n, In n nodeElements /\ Renderer.data "source" e = Renderer.data "id" n).
Proof.
  intros Hr Hres Hw.
  apply result_fulfilled in Hres. destruct Hres as (_ & -> & ->).
  exists (stringify (GraphData.mk (map_values (nodesMap st)) (edges st))).
  eexists. eexists.
  split; [|split; [apply elements_stringify|]].
  - unfold main, writeFile. rewrite Hw. cbn [disk]. unfold read. cbn [files].
    apply read_map_set.
  - cbn [GraphData.nodes GraphData.edges].
    repeat (split; [first [apply data_of_nodes|apply data_of_edges]; reflexivity|]).
    intros e He. apply in_map_iff in He. destruct He as (j & <- & Hj).
    apply in_map_iff in Hj. destruct Hj as (ed & <- & Hed).
    pose proof (reachable_graph _ _ _ _ _ _ _ Hr) as (_ & _ & Hsrc & _).
    specialize (Hsrc ed Hed). rewrite <- (reachable_node_ids _ _ _ _ _ _ _ Hr) in Hsrc.
    apply in_map_iff in Hsrc. destruct Hsrc as (n & Hid & Hn).
    exists (Renderer.wrap (stringify_node n)). split.
    + apply in_map, in_map. exact Hn.
    + cbn. now rewrite Hid.
Qed.

Lemma renderer_takes_written_document_witness :
  Fixed.reachable Scenario.metadata Scenario.references "R" Scenario.final /\
  result Scenario.final = Some (Resolved (nodesMap Scenario.final, edges Scenario.final)) /\
  writable used_disk OUTPUT_FILE = true /\
  exists doc nodeElements edgeElements,
    read OUTPUT_FILE
         (disk (main (Resolved (nodesMap Scenario.final, edges Scenario.final)) used_disk))
      = Some doc /\
    Renderer.elements doc = Some (nodeElements, edgeElements) /\
    map (Renderer.data "type") nodeElements =
      map (fun n => Some (Node.type n)) (map_values (nodesMap Scenario.final)).
Proof.
  split; [exact scenario_reachable|split; [reflexivity|split; [reflexivity|]]].
  destruct (renderer_takes_written_document unit _ _ _ "R" tt Scenario.final used_disk
              (nodesMap Scenario.final) (edges Scenario.final)
              scenario_reachable eq_refl eq_refl)
    as (doc & ns & es & H1 & H2 & _ & _ & H5 & _).
  exists doc, ns, es. split; [exact H1|split; [exact H2|exact H5]].
Defined.

(** ** Termination on a finite set of identifiers *)

Section Ranks.
Variables (N L : nat) (anc : nat -> list string).

Lemma rank_metadata_request p c r a b :
  a + r = MAX_RETRIES ->
  (rank N L anc (mkTask p (AwaitMetadata c (Waiting (metadataFrom c (S r) a)))) b <->
   b = 2 * r + 11 + L * visit_cost L (pred (N - length (anc p)))).
Proof.
  intro Ha. unfold rank. cbn [visit promise]. split.
  - intros (r' & a' & Ha' & [[E ->]|(ms & E & _)]).
    + apply metadataFrom_inj in E; auto. destruct E as [_ ->]. reflexivity.
    + now apply metadataFrom_call in E.
  - intros ->. exists r, a. auto.
Qed.

Lemma rank_metadata_delay p c r a ms b :
  a + r = MAX_RETRIES ->
  (rank N L anc (mkTask p (AwaitMetadata c (Waiting (Sleep ms (metadataFrom c (S r) a))))) b <->
   b = 2 * r + 12 + L * visit_cost L (pred (N - length (anc p)))).
Proof.
  intro Ha. unfold rank. cbn [visit promise]. split.
  - intros (r' & a' & Ha' & [[E ->]|(ms' & E & ->)]).
    + symmetry in E. now apply metadataFrom_call in E.
    + assert (E' : metadataFrom c (S r) a = metadataFrom c (S r') a') by congruence.
      apply metadataFrom_inj in E'; auto. destruct E' as [_ ->]. reflexivity.
  - intros ->. exists r, a. split; auto. right. eauto.
Qed.

Lemma rank_dependencies_request p c v r a b :
  a + r = MAX_RETRIES ->
  (rank N L anc (mkTask p (AwaitDependencies c (Waiting (dependenciesFrom c v (S r) a)))) b <->
   b = 2 * r + 2 + L * visit_cost L (pred (N - length (anc p)))).
Proof.
  intro Ha. unfold rank. cbn [visit promise]. split.
  - intros (v' & r' & a' & Ha' & [[E ->]|(ms & E & _)]).
    + apply dependenciesFrom_inj in E; auto. destruct E as (_ & _ & ->). reflexivity.
    + now apply dependenciesFrom_call in E.
  - intros ->. exists v, r, a. auto.
Qed.

Lemma rank_dependencies_delay p c v r a ms b :
  a + r = MAX_RETRIES ->
  (rank N L anc (mkTask p (AwaitDependencies c
                             (Waiting (Sleep ms (dependenciesFrom c v (S r) a))))) b <->
   b = 2 * r + 3 + L * visit_cost L (pred (N - length (anc p)))).
Proof.
  intro Ha. unfold rank. cbn [visit promise]. split.
  - intros (v' & r' & a' & Ha' & [[E ->]|(ms' & E & ->)]).
    + symmetry in E. now apply dependenciesFrom_call in E.
    + assert (E' : dependenciesFrom c v (S r) a = dependenciesFrom c v' (S r') a')
        by congruence.
      apply dependenciesFrom_inj in E'; auto. destruct E' as (_ & _ & ->). reflexivity.
  - intros ->. exists v, r, a. split; auto. right. eauto.
Qed.

Lemma ranks_app (l1 l2 : list Task) (B1 B2 : nat) :
  ranks N L anc l1 B1 -> ranks N L anc l2 B2 -> ranks N L anc (l1 ++ l2) (B1 + B2).
Proof.
  revert B1. induction l1 as [|t l IH]; intros B1 H1 H2; cbn in *.
  - now subst.
  - destruct H1 as (b & B' & Hb & Hl & ->). exists b, (B' + B2).
    split; [exact Hb|split; [now apply IH|lia]].
Qed.

Lemma ranks_one (t : Task) (b : nat) : rank N L anc t b -> ranks N L anc [t] b.
Proof. intro H. exists b, 0. cbn. split; [exact H|split; [reflexivity|lia]]. Qed.

Lemma ranks_without (ts : list Task) (t : Task) :
  forall B,
    NoDup (map promise ts) -> In t ts -> ranks N L anc ts B ->
    exists b B0,
      rank N L anc t b /\
      ranks N L anc (filter (fun t' => negb (Nat.eqb (promise t') (promise t))) ts) B0 /\
      B = b + B0.
Proof.
  induction ts as [|t0 l IH]; intros B Hnd Hin HB; [destruct Hin|].
  cbn [map] in Hnd. apply NoDup_cons_iff in Hnd. destruct Hnd as [Hfresh Hnd].
  cbn [ranks] in HB. destruct HB as (b0 & B' & Hb0 & Hl & ->).
  cbn [filter]. destruct Hin as [->|Hin].
  - rewrite Nat.eqb_refl. cbn [negb]. exists b0, B'. split; [exact Hb0|split; [|reflexivity]].
    rewrite filter_all; [exact Hl|].
    intros t' Ht'. apply negb_true_iff, Nat.eqb_neq. intro E.
    apply Hfresh. rewrite <- E. now apply in_map.
  - destruct (Nat.eqb_spec (promise t0) (promise t)) as [E|Hne].
    + exfalso. apply Hfresh. rewrite E. now apply in_map.
    + cbn [negb]. destruct (IH B' Hnd Hin Hl) as (b & B0 & Hb & Hrest & ->).
      exists b, (b0 + B0). split; [exact Hb|split; [|lia]].
      cbn [ranks]. exists b0, B0. auto.
Qed.
End Ranks.

Lemma ranks_ext (N L : nat) (anc anc' : nat -> list string) (ts : list Task) :
  forall B,
    (forall t, In t ts -> anc' (promise t) = anc (promise t)) ->
    ranks N L anc ts B -> ranks N L anc' ts B.
Proof.
  induction ts as [|t l IH]; intros B Hsame HB; cbn in *; [exact HB|].
  destruct HB as (b & B' & Hb & Hl & ->). exists b, B'.
  split; [|split; [apply IH; auto|reflexivity]].
  unfold rank in *. rewrite (Hsame t) by now left. exact Hb.
Qed.

Lemma pigeonhole (U A : list string) (c : string) :
  In c U -> ~ In c A -> NoDup A -> incl A U -> S (length A) <= length U.
Proof.
  intros Hc Hn Hnd Hincl. change (S (length A)) with (length (c :: A)).
  apply NoDup_incl_length.
  - now constructor.
  - intros x [<-|Hx]; auto.
Qed.

Lemma ranks_all (N L : nat) (anc : nat -> list string) (V : nat) (ts : list Task) :
  (forall t, In t ts -> rank N L anc t V) -> ranks N L anc ts (length ts * V).
Proof.
  induction ts as [|t l IH]; intro H; cbn [ranks length]; [reflexivity|].
  exists V, (length l * V). split; [apply H; now left|split; [|reflexivity]].
  apply IH. intros t' Ht'. apply H. now right.
Qed.

Lemma rank_metadata_lower (N L : nat) (anc : nat -> list string) p c prog b :
  rank N L anc (mkTask p (AwaitMetadata c (Waiting prog))) b ->
  11 + L * visit_cost L (pred (N - length (anc p))) <= b.
Proof.
  unfold rank. cbn [visit promise].
  intros (r & a & _ & [[_ ->]|(ms & _ & ->)]); lia.
Qed.

Lemma rank_dependencies_lower (N L : nat) (anc : nat -> list string) p c prog b :
  rank N L anc (mkTask p (AwaitDependencies c (Waiting prog))) b ->
  2 + L * visit_cost L (pred (N - length (anc p))) <= b.
Proof.
  unfold rank. cbn [visit promise].
  intros (v & r & a & _ & [[_ ->]|(ms & _ & ->)]); lia.
Qed.

Section Termination.
Variable W : Type.
Variable get : string -> W -> Outcome Metadata.t * W.
Variable post : QueryBody.t -> W -> Outcome QueryData * W.
Variable random : W -> Q * W.
Variables (U : list string) (L : nat).
Hypothesis Hlists : lists_within post U L.

Lemma placed_replace (anc : nat -> list string) (st st' : State W) (p : nat) (v v' : Visit) :
  placed U anc st ->
  In (mkTask p v) (tasks st) ->
  (forall x, In x (keys st) -> In x (keys st')) ->
  (forall t, In t (tasks st') -> In t (others p st) \/ t = mkTask p v') ->
  (forall c, subject v' = Some c -> subject v = Some c) ->
  placed U anc st'.
Proof.
  intros Hpl Hin Hk Hts Hsub t c Ht Hc.
  destruct (Hts t Ht) as [Hold| ->].
  - apply in_others in Hold. destruct Hold as [Hold _].
    destruct (Hpl t c Hold Hc) as (H1 & H2 & H3 & H4 & H5). repeat split; auto.
    intros x Hx. apply Hk, H5, Hx.
  - cbn [visit promise] in *. apply Hsub in Hc.
    destruct (Hpl (mkTask p v) c Hin Hc) as (H1 & H2 & H3 & H4 & H5).
    cbn [promise] in *. repeat split; auto.
    intros x Hx. apply Hk, H5, Hx.
Qed.

Ltac replaced :=
  let t := fresh "t" in
  let Ht := fresh "Ht" in
  intros t Ht; cbn [tasks] in Ht;
  first [apply in_app_or in Ht; destruct Ht as [Ht|[<-|[]]]; [now left|now right]
        |now left].

Lemma transition_ranked (n : nat) (st st' : State W) :
  ranked U L n st -> transition get post random st st' ->
  exists m, m < n /\ ranked U L m st'.
Proof.
  intros (Hc & Hg & anc & B & Hpl & HB & Hle) Htr.
  pose proof (transition_promises _ _ _ _ _ _ Hc Htr) as Hc'.
  pose proof (transition_graph _ _ _ _ _ _ Hg Htr) as Hg'.
  destruct (transition_grows _ _ _ _ _ _ Htr) as (_ & _ & _ & Hk).
  pose proof Hc as (Hnd & Hbelow & _).
  inversion Htr as
    [p c r a status w1 x w2 Hin Har Hne
    |p c r a ms Hin Har
    |p c r a data w1 Hin
    |p c r a e w1 Hin Hget Htrans Hnot
    |p c r a e e' w1 Hin Hget Hth Hnot
    |p c version r a status w1 x w2 Hin Har Hne
    |p c version r a ms Hin Har
    |p c version r a data ids w1 Hin Hpost Hflat
    |p c version r a o e w1 Hin
    |p c ps o Hin]; subst;
    destruct (ranks_without _ _ _ _ _ B Hnd Hin HB) as (b & B0 & Hb & Hrest & ->);
    cbn [promise] in Hrest; fold (others p st) in Hrest.
  - apply rank_metadata_request in Hb; [subst b|exact Har].
    destruct r as [|r]; [lia|].
    eexists. split; [|split; [exact Hc'|split; [exact Hg'|]]].
    2:{ exists anc. eexists. split; [|split; [|reflexivity]].
        - eapply placed_replace; [exact Hpl|exact Hin|exact Hk|replaced|auto].
        - cbn [tasks]. apply ranks_app; [exact Hrest|]. apply ranks_one.
          apply rank_metadata_delay; [lia|reflexivity]. }
    lia.
  - apply rank_metadata_delay in Hb; [subst b|exact Har].
    eexists. split; [|split; [exact Hc'|split; [exact Hg'|]]].
    2:{ exists anc. eexists. split; [|split; [|reflexivity]].
        - eapply placed_replace; [exact Hpl|exact Hin|exact Hk|replaced|auto].
        - cbn [tasks]. apply ranks_app; [exact Hrest|]. apply ranks_one.
          apply rank_metadata_request; [exact Har|reflexivity]. }
    lia.
  - apply rank_metadata_lower in Hb.
    eexists. split; [|split; [exact Hc'|split; [exact Hg'|]]].
    2:{ exists anc. eexists. split; [|split; [|reflexivity]].
        - eapply placed_replace; [exact Hpl|exact Hin|exact Hk|replaced|auto].
        - cbn [tasks]. apply ranks_app; [exact Hrest|]. apply ranks_one.
          change MAX_RETRIES with (S 4) at 1.
          apply rank_dependencies_request; reflexivity. }
    lia.
  - apply rank_metadata_lower in Hb.
    exists B0. split; [lia|split; [exact Hc'|split; [exact Hg'|]]].
    exists anc, B0. split; [|split; [exact Hrest|lia]].
    eapply (placed_replace anc _ _ p _ (AwaitAll c []));
      [exact Hpl|exact Hin|exact Hk|replaced|discriminate].
  - apply rank_metadata_lower in Hb.
    exists B0. split; [lia|split; [exact Hc'|split; [exact Hg'|]]].
    exists anc, B0. split; [|split; [exact Hrest|lia]].
    eapply (placed_replace anc _ _ p _ (AwaitAll c []));
      [exact Hpl|exact Hin|exact Hk|replaced|discriminate].
  - apply rank_dependencies_request in Hb; [subst b|exact Har].
    destruct r as [|r]; [lia|].
    eexists. split; [|split; [exact Hc'|split; [exact Hg'|]]].
    2:{ exists anc. eexists. split; [|split; [|reflexivity]].
        - eapply placed_replace; [exact Hpl|exact Hin|exact Hk|replaced|auto].
        - cbn [tasks]. apply ranks_app; [exact Hrest|]. apply ranks_one.
          apply rank_dependencies_delay; [lia|reflexivity]. }
    lia.
  - apply rank_dependencies_delay in Hb; [subst b|exact Har].
    eexists. split; [|split; [exact Hc'|split; [exact Hg'|]]].
    2:{ exists anc. eexists. split; [|split; [|reflexivity]].
        - eapply placed_replace; [exact Hpl|exact Hin|exact Hk|replaced|auto].
        - cbn [tasks]. apply ranks_app; [exact Hrest|]. apply ranks_one.
          apply rank_dependencies_request; [exact Har|reflexivity]. }
    lia.
  - (* the fan-out *)
    apply rank_dependencies_lower in Hb.
    destruct (Hlists _ _ _ _ _ Hpost Hflat) as [HidsU HidsL].
    destruct (Hpl _ c Hin eq_refl) as (HcU & HcA & HndA & HAU & HAk). cbn [promise] in *.
    assert (Hck : In c (keys st)).
    { destruct Hg as (_ & Htasks & _). apply (Htasks _ Hin). }
    set (anc' := fun q => if (fresh st <=? q)%nat then c :: anc p else anc q).
    set (V := visit_cost L (pred (length U - length (anc p)))) in *.
    assert (Hold : forall t, In t (others p st) -> anc' (promise t) = anc (promise t)).
    { intros t Ht. apply in_others in Ht. destruct Ht as [Ht _].
      destruct (Hbelow t Ht) as [Hlt _]. unfold anc'.
      destruct (Nat.leb_spec (fresh st) (promise t)); [lia|reflexivity]. }
    assert (Hnew : forall t, In t (spawned (fresh st) (nodesMap st) ids) ->
               exists d, t = mkTask (promise t)
                              (AwaitMetadata d (Waiting (metadataFrom d MAX_RETRIES 1))) /\
                         In d ids /\ ~ In d (keys st) /\
                         anc' (promise t) = c :: anc p).
    { intros t Ht. apply in_spawned in Ht. destruct Ht as (d & E & Hrange & Hd & Hhas).
      exists d. split; [exact E|split; [exact Hd|split]].
      - intro Hdk. apply map_has_keys in Hdk. congruence.
      - unfold anc'. destruct (Nat.leb_spec (fresh st) (promise t)); [reflexivity|lia]. }
    assert (Hchild : forall t, In t (spawned (fresh st) (nodesMap st) ids) ->
               rank (length U) L anc' t V).
    { intros t Ht. destruct (Hnew t Ht) as (d & E & Hd & Hdk & Hanc).
      rewrite E. change MAX_RETRIES with (S 4).
      apply rank_metadata_request; [reflexivity|]. cbn [promise]. rewrite Hanc.
      assert (Hroom : S (S (length (anc p))) <= length U).
      { apply (pigeonhole U (c :: anc p) d); auto.
        - intros [<-|HdA]; [contradiction|]. apply Hdk, HAk, HdA.
        - now constructor.
        - intros y [<-|Hy]; auto. }
      unfold V. cbn [length].
      destruct (length U - length (anc p)) as [|[|m]] eqn:Em; [lia|lia|].
      replace (length U - S (length (anc p))) with (S m) by lia.
      cbn [pred visit_cost]. lia. }
    exists (B0 + length (spawned (fresh st) (nodesMap st) ids) * V + 1).
    split; [|split; [exact Hc'|split; [exact Hg'|]]].
    + assert (Hk' : length (spawned (fresh st) (nodesMap st) ids) * V <= L * V).
      { apply Nat.mul_le_mono_r. rewrite spawned_length.
        eapply Nat.le_trans; [apply filter_length_le|exact HidsL]. }
      fold V in Hb. lia.
    + exists anc'. eexists. split; [|split; [|reflexivity]].
      * intros t c0 Ht Hc0. cbn [tasks] in Ht.
        apply in_app_or in Ht. destruct Ht as [Ht|[<-|[]]]; [|discriminate Hc0].
        apply in_app_or in Ht. destruct Ht as [Ht|Ht].
        -- rewrite (Hold t Ht). apply in_others in Ht. destruct Ht as [Ht _].
           exact (Hpl t c0 Ht Hc0).
        -- destruct (Hnew t Ht) as (d & E & Hd & Hdk & Hanc). rewrite Hanc.
           rewrite E in Hc0. cbn in Hc0. injection Hc0 as <-.
           split; [now apply HidsU|split; [|split; [|split]]].
           ++ intros [<-|HdA]; [contradiction|]. apply Hdk, HAk, HdA.
           ++ now constructor.
           ++ intros y [<-|Hy]; auto.
           ++ intros y [<-|Hy]; auto.
      * cbn [tasks]. apply ranks_app; [apply ranks_app|].
        -- eapply ranks_ext; [|exact Hrest]. exact Hold.
        -- now apply ranks_all.
        -- now apply ranks_one.
  - apply rank_dependencies_lower in Hb.
    exists (B0 + 1). split; [lia|split; [exact Hc'|split; [exact Hg'|]]].
    exists anc, (B0 + 1). split; [|split; [|lia]].
    + eapply placed_replace; [exact Hpl|exact Hin|exact Hk|replaced|discriminate].
    + cbn [tasks]. apply ranks_app; [exact Hrest|]. now apply ranks_one.
  - assert (b = 1) by exact Hb. subst b.
    exists B0. split; [lia|split; [exact Hc'|split; [exact Hg'|]]].
    exists anc, B0. split; [|split; [exact Hrest|lia]].
    eapply (placed_replace anc _ _ p _ (AwaitAll c []));
      [exact Hpl|exact Hin|exact Hk|replaced|discriminate].
Qed.

Lemma start_ranked (rootId : string) (w : W) :
  In rootId U ->
  ranked U L (19 + L * visit_cost L (pred (length U))) (start random rootId w).
Proof.
  intro Hroot. split; [|split].
  - apply (reachable_promises _ get post random rootId w). constructor.
  - apply (reachable_graph _ get post random rootId w). constructor.
  - rewrite start_explicit. exists (fun _ => []). eexists. split; [|split; [|reflexivity]].
    + intros t c [<-|[]] [= <-]. cbn. repeat split; auto using NoDup_nil.
      * intros y [].
      * intros y [].
    + cbn [tasks]. apply ranks_one. change MAX_RETRIES with (S 4).
      apply rank_metadata_request; [reflexivity|]. cbn [length]. rewrite Nat.sub_0_r.
      reflexivity.
Qed.

(** X19. The traversal terminates on a finite set of identifiers.  When the
    root and every identifier the service lists belong to a finite set, and
    its reference lists have bounded length, every run is finite, under every
    order of responses and with whatever retries, cycles and repeated
    identifiers; and a run that cannot go on has returned or thrown. *)
Theorem traversal_terminates (rootId : string) (w : W) :
  In rootId U ->
  Acc (fun s' s => step get post random s s') (start random rootId w) /\
  (forall st, reachable get post random rootId w st ->
     Acc (fun s' s => step get post random s s') st) /\
  (forall st, reachable get post random rootId w st ->
     (forall st', ~ step get post random st st') ->
     exists r, result st = Some r).
Proof.
  intro Hroot. pose proof (start_ranked rootId w Hroot) as H0.
  assert (Hall : forall st, reachable get post random rootId w st ->
                   Acc (fun s' s => step get post random s s') st).
  { intros st Hr.
    destruct (ranked_reachable _ get post random rootId w (ranked U L) _
                transition_ranked H0 st Hr) as [n Hn].
    exact (ranked_terminates _ get post random rootId w (ranked U L)
             transition_ranked n st Hn Hr). }
  split; [apply Hall; constructor|split; [exact Hall|]].
  intros st Hr Hstuck. eapply stuck_settled; eauto.
Qed.
End Termination.

Lemma scenario_lists :
  lists_within (Fixed.post Scenario.references) ["R"; "A"; "B"] 2.
Proof.
  intros q w data w' ids Hpost Hflat.
  unfold Fixed.post, Scenario.references, refs in Hpost.
  destruct (String.eqb (QueryBody.parentComponentId q) "R");
    injection Hpost as <- _; cbn in Hflat; injection Hflat as <-.
  - split; [|cbn; lia]. intros y [<-|[<-|[]]]; cbn; auto.
  - split; [intros y []|cbn; lia].
Qed.

Lemma traversal_terminates_witness :
  lists_within (Fixed.post Scenario.references) ["R"; "A"; "B"] 2 /\
  In "R" ["R"; "A"; "B"] /\
  Acc (fun s' s => step (Fixed.get Scenario.metadata) (Fixed.post Scenario.references)
                        Fixed.random s s')
      (start Fixed.random "R" tt).
Proof.
  assert (Hroot : In "R" ["R"; "A"; "B"]) by (left; reflexivity).
  split; [exact scenario_lists|split; [exact Hroot|]].
  exact (proj1 (traversal_terminates unit (Fixed.get Scenario.metadata)
                  (Fixed.post Scenario.references) Fixed.random
                  ["R"; "A"; "B"] 2 scenario_lists "R" tt Hroot)).
Defined.

(** ** Identifiers that are not found *)

Lemma transient_not_found (o : Outcome Metadata.t) (e : Err) :
  fails_transiently o -> o = Rejected e -> notFound e = false.
Proof.
  intros (status & -> & Hretry) [= <-]. now apply retryable_not_found.
Qed.

(** A 400/404 among the responses of [getComponentMetadata] is the last one,
    and makes the call return [null]. *)
Lemma getComponentMetadata_not_found
    (W : Type) (get : string -> W -> Outcome Metadata.t * W) (random : W -> Q * W)
    (X : string) (w : W) :
  let '(res, _, tr) := run get random (getComponentMetadata X) w in
  forall e, In (Received X (Rejected e)) tr -> notFound e = true ->
    res = Resolved None /\ In (Printed (NotFoundWarning X)) tr.
Proof.
  rewrite run_getComponentMetadata. unfold requestWithRetry.
  pose proof (retryLoop_anywhere W string Metadata.t get random X 4 1 w eq_refl) as H.
  change MAX_RETRIES with 5 at 1.
  destruct (run get random (retryLoop X 5 1) w) as [[res w'] tr].
  destruct H as (_ & _ & _ & tr0 & o & -> & Hearlier & Hres).
  assert (Hlast : forall e more,
             In (Received X (Rejected e)) ((tr0 ++ [Received X o]) ++ more) ->
             (forall ev, In ev more -> ev = Printed (NotFoundWarning X)) ->
             notFound e = true -> o = Rejected e).
  { intros e more Hin Hmore He.
    apply in_app_or in Hin. destruct Hin as [Hin|Hin].
    - apply in_app_or in Hin. destruct Hin as [Hin|[[= <-]|[]]]; [|reflexivity].
      apply Hearlier in Hin. rewrite (transient_not_found _ e Hin eq_refl) in He.
      discriminate.
    - apply Hmore in Hin. discriminate Hin. }
  destruct o as [data|e0].
  - subst res. intros e Hin He.
    specialize (Hlast e [] ltac:(now rewrite app_nil_r) ltac:(intros ev []) He).
    discriminate Hlast.
  - destruct Hres as (e1 & -> & Hth).
    assert (Hsame : notFound e0 = true -> e1 = e0).
    { intro He0. apply notFound_not_transient in He0. eapply thrown_transient; eauto. }
    destruct (notFound e1) eqn:Hnf1.
    + intros e Hin He. split; [reflexivity|]. apply in_or_app. right. now left.
    + intros e Hin He.
      specialize (Hlast e [] ltac:(now rewrite app_nil_r) ltac:(intros ev []) He).
      injection Hlast as ->. rewrite (Hsame He) in Hnf1. congruence.
Qed.

Ltac event_of Hin :=
  lazymatch type of Hin with
  | In _ [] => destruct Hin
  | In _ (_ :: _) => destruct Hin as [Hin|Hin]; [try discriminate Hin|event_of Hin]
  | _ => idtac
  end.

Section NotFound.
Variable W : Type.
Variable get : string -> W -> Outcome Metadata.t * W.
Variable post : QueryBody.t -> W -> Outcome QueryData * W.
Variable random : W -> Q * W.

Ltac added Hmore :=
  cbn [trace] in Hmore; rewrite <- ?app_assoc in Hmore;
  first [apply app_inv_head in Hmore
        |rewrite <- (app_nil_r (trace _)) in Hmore at 1; apply app_inv_head in Hmore];
  subst.

(** The turn in which a 400/404 arrives for [X] ends that visit: no node, no
    edge, no reference query, and the promise of the visit is fulfilled. *)
Lemma not_found_turn (st st' : State W) (more : list Event) (X : string) (e : Err) :
  transition get post random st st' ->
  trace st' = trace st ++ more ->
  In (MetadataEvent (Received X (Rejected e))) more -> notFound e = true ->
  nodesMap st' = nodesMap st /\ edges st' = edges st /\
  (forall q, ~ In (ReferenceEvent (Sent q)) more) /\
  exists p, settled st' = settled st ++ [(p, Resolved tt)].
Proof.
  intros Htr Hmore Hin He.
  inversion Htr as
    [p c r a status w1 x w2 Hin0 Har Hne Hget Hretry
    |p c r a ms Hin0 Har
    |p c r a data w1 Hin0
    |p c r a e0 w1 Hin0 Hget Htrans Hnot
    |p c r a e0 e' w1 Hin0 Hget Hth Hnot
    |p c version r a status w1 x w2 Hin0 Har Hne
    |p c version r a ms Hin0 Har
    |p c version r a data ids w1 Hin0
    |p c version r a o e0 w1 Hin0
    |p c ps o Hin0]; subst st'; added Hmore.
  all: try (event_of Hin; fail).
  - event_of Hin. injection Hin as <- <-.
    rewrite (retryable_not_found _ Hretry) in He. discriminate.
  - cbn [nodesMap edges settled]. repeat split; eauto.
    intros q Hq. event_of Hq.
  - event_of Hin. injection Hin as <- <-.
    pose proof (notFound_not_transient _ He) as Ht.
    rewrite (thrown_transient _ _ _ Hth Ht) in Hnot. congruence.
  - destruct Hin as [Hin|Hin]; [discriminate Hin|].
    apply in_requested in Hin. destruct Hin as (d & Hin & _). discriminate Hin.
Qed.

(** C3, amended. A 400/404 among the responses of a metadata lookup of [X]
    ends the lookup with the absent value instead of an error, also after
    retried 503/504 responses.  In every state of every run, for every
    service: the turn in which the 400/404 arrives adds no node and no edge,
    sends no reference query and fulfils the promise of that visit; [X] is a
    node exactly when some metadata request for [X] was answered
    successfully; while it is no node no reference query was sent for it; and
    every reference list received that names [X] has its edge to [X] in the
    edge list.  So when the service never answers a metadata request for [X]
    successfully, [X] is no node and no reference query is sent for it in any
    state of any run.  The root is no exception. *)
Theorem not_found_pruning (X : string) :
  (forall w,
     let '(res, _, tr) := run get random (getComponentMetadata X) w in
     forall e, In (Received X (Rejected e)) tr -> notFound e = true ->
       res = Resolved None /\ In (Printed (NotFoundWarning X)) tr) /\
  (forall rootId w st,
     reachable get post random rootId w st ->
     (forall st' more e,
        step get post random st st' -> trace st' = trace st ++ more ->
        In (MetadataEvent (Received X (Rejected e))) more -> notFound e = true ->
        nodesMap st' = nodesMap st /\ edges st' = edges st /\
        (forall q, ~ In (ReferenceEvent (Sent q)) more) /\
        exists p, settled st' = settled st ++ [(p, Resolved tt)]) /\
     (In X (keys st) <->
      exists data, In (MetadataEvent (Received X (Resolved data))) (trace st)) /\
     (~ In X (keys st) -> requests_for_references X (trace st) = 0) /\
     (forall q data ids,
        In (ReferenceEvent (Received q (Resolved data))) (trace st) ->
        flatten data = Some ids -> In X ids ->
        In (Edge.mk (QueryBody.parentComponentId q) X) (edges st))) /\
  ((forall w data w', get X w <> (Resolved data, w')) ->
   forall rootId w st,
     reachable get post random rootId w st ->
     ~ In X (keys st) /\ requests_for_references X (trace st) = 0).
Proof.
  assert (Hrun : forall rootId w st,
             reachable get post random rootId w st ->
             (In X (keys st) <->
              exists data, In (MetadataEvent (Received X (Resolved data))) (trace st)) /\
             (~ In X (keys st) -> requests_for_references X (trace st) = 0)).
  { intros rootId w st Hr.
    pose proof (reachable_graph _ _ _ _ _ _ _ Hr) as (_ & _ & _ & Hres & Hsent & _).
    split.
    - rewrite Hres. apply in_resolved_ids.
    - intro HX. apply no_reference_request. intros q Hq E. apply HX. rewrite <- E.
      now apply Hsent. }
  split; [|split].
  - intro w. apply getComponentMetadata_not_found.
  - intros rootId w st Hr. destruct (Hrun rootId w st Hr) as [Hiff Hnone].
    split; [|split; [exact Hiff|split; [exact Hnone|]]].
    + intros st' more e Hs Hmore Hin He.
      destruct (step_transition _ _ _ _ _ _ _ _ Hr Hs) as [_ Htr].
      eapply not_found_turn; eauto.
    + intros q data ids Hin Hf Hd.
      pose proof (reachable_graph _ _ _ _ _ _ _ Hr) as (_ & _ & _ & _ & _ & Hrec).
      rewrite Hrec. eapply in_recorded; eauto.
  - intros Hnever rootId w st Hr. destruct (Hrun rootId w st Hr) as [Hiff Hnone].
    assert (HX : ~ In X (keys st)).
    { intro Hin. apply Hiff in Hin. destruct Hin as [data Hin].
      apply (reachable_answered _ _ _ _ _ _ _ Hr) in Hin. destruct Hin as [w0 Hw0].
      destruct (get X w0) as [o w1] eqn:Hget. cbn in Hw0. subst o.
      now apply Hnever in Hget. }
    split; [exact HX|now apply Hnone].
Qed.
End NotFound.

Lemma revived_reachable :
  reachable Revived.get Revived.post Revived.random "R" 0 Revived.final.
Proof. unfold Revived.final. apply run_first_reachable. constructor. Qed.

(** C3 as stated fails when a not-found identifier is listed again: the
    first metadata request for "X" is answered 404 and that visit is pruned,
    the second one succeeds, and the run returns "X" as a node after one
    reference query for it. *)
Lemma not_found_is_not_remembered :
  reachable Revived.get Revived.post Revived.random "R" 0 Revived.final /\
  In (MetadataEvent (Received "X" (Rejected (AxiosError (Some 404%Z)))))
     (trace Revived.final) /\
  notFound (AxiosError (Some 404%Z)) = true /\
  In (MetadataEvent (Printed (NotFoundWarning "X"))) (trace Revived.final) /\
  result Revived.final = Some (Resolved (nodesMap Revived.final, edges Revived.final)) /\
  keys Revived.final = ["R"; "A"; "X"] /\
  edges Revived.final = [Edge.mk "R" "A"; Edge.mk "R" "X"; Edge.mk "A" "X"] /\
  requests_for_metadata "X" (trace Revived.final) = 2 /\
  requests_for_references "X" (trace Revived.final) = 1.
Proof.
  split; [exact revived_reachable|].
  split; [vm_compute; tauto|split; [reflexivity|split; [vm_compute; tauto|]]].
  repeat split; reflexivity.
Qed.

Lemma not_found_pruning_witness :
  (forall w data w', Fixed.get Scenario.metadata "B" w <> (Resolved data, w')) /\
  ~ In "B" (keys Scenario.final) /\
  requests_for_references "B" (trace Scenario.final) = 0.
Proof.
  assert (H : forall w data w', Fixed.get Scenario.metadata "B" w <> (Resolved data, w'))
    by (intros w data w'; discriminate).
  split; [exact H|].
  exact (proj2 (proj2 (not_found_pruning unit (Fixed.get Scenario.metadata)
                         (Fixed.post Scenario.references) Fixed.random "B"))
               H "R" tt Scenario.final scenario_reachable).
Defined.

(** ** Components without a version *)

Section Versions.
Variable W : Type.
Variable get : string -> W -> Outcome Metadata.t * W.
Variable post : QueryBody.t -> W -> Outcome QueryData * W.
Variable random : W -> Q * W.

Ltac added Hmore :=
  cbn [trace] in Hmore; rewrite <- ?app_assoc in Hmore;
  first [apply app_inv_head in Hmore
        |rewrite <- (app_nil_r (trace _)) in Hmore at 1; apply app_inv_head in Hmore];
  subst.

(** The turn in which the metadata of [X] arrives: the node is set and the
    reference query is sent with the version of the response, whatever it
    is. *)
Lemma metadata_turn (st st' : State W) (more : list Event) (X : string) (data : Metadata.t) :
  transition get post random st st' ->
  trace st' = trace st ++ more ->
  In (MetadataEvent (Received X (Resolved data))) more ->
  nodesMap st' =
    map_set X (Node.mk X (Metadata.name data) (Metadata.type data)) (nodesMap st) /\
  more = [MetadataEvent (Received X (Resolved data));
          ReferenceEvent (Sent (QueryBody.mk X (Metadata.version data)))] /\
  edges st' = edges st /\ settled st' = settled st.
Proof.
  intros Htr Hmore Hin.
  inversion Htr as
    [p c r a status w1 x w2 Hin0 Har Hne Hget Hretry
    |p c r a ms Hin0 Har
    |p c r a data0 w1 Hin0
    |p c r a e0 w1 Hin0 Hget Htrans Hnot
    |p c r a e0 e' w1 Hin0 Hget Hth Hnot
    |p c version r a status w1 x w2 Hin0 Har Hne
    |p c version r a ms Hin0 Har
    |p c version r a data0 ids w1 Hin0
    |p c version r a o e0 w1 Hin0
    |p c ps o Hin0]; subst st'; added Hmore.
  all: try (event_of Hin; fail).
  - event_of Hin. injection Hin as <- <-. cbn [nodesMap edges settled]. auto.
  - destruct Hin as [Hin|Hin]; [discriminate Hin|].
    apply in_requested in Hin. destruct Hin as (d & Hin & _). discriminate Hin.
Qed.

(** The turn in which [getDependencies X] gives up: nothing is added to the
    graph, no promise is settled, and the visit goes on with no child. *)
Lemma reference_failure_turn (st st' : State W) (more : list Event) (X : string) (e : Err) :
  transition get post random st st' ->
  trace st' = trace st ++ more ->
  In (ReferenceEvent (Printed (DependenciesError X e))) more ->
  nodesMap st' = nodesMap st /\ edges st' = edges st /\ settled st' = settled st /\
  exists p, In (mkTask p (AwaitAll X [])) (tasks st').
Proof.
  intros Htr Hmore Hin.
  inversion Htr as
    [p c r a status w1 x w2 Hin0 Har Hne Hget Hretry
    |p c r a ms Hin0 Har
    |p c r a data0 w1 Hin0
    |p c r a e0 w1 Hin0 Hget Htrans Hnot
    |p c r a e0 e' w1 Hin0 Hget Hth Hnot
    |p c version r a status w1 x w2 Hin0 Har Hne
    |p c version r a ms Hin0 Har
    |p c version r a data0 ids w1 Hin0
    |p c version r a o e0 w1 Hin0
    |p c ps o Hin0]; subst st'; added Hmore.
  all: try (event_of Hin; fail).
  - destruct Hin as [Hin|Hin]; [discriminate Hin|].
    apply in_requested in Hin. destruct Hin as (d & Hin & _). discriminate Hin.
  - event_of Hin. injection Hin as <- <-. cbn [nodesMap edges settled tasks].
    repeat split. exists p. apply in_or_app. right. now left.
Qed.

Lemma reachable_expanded (rootId : string) (w : W) (st : State W) :
  reachable get post random rootId w st ->
  forall X data,
    In (MetadataEvent (Received X (Resolved data))) (trace st) ->
    In (ReferenceEvent (Sent (QueryBody.mk X (Metadata.version data)))) (trace st).
Proof.
  revert st.
  apply (reachable_transition_ind _ get post random rootId w
           (fun st => forall X data,
              In (MetadataEvent (Received X (Resolved data))) (trace st) ->
              In (ReferenceEvent (Sent (QueryBody.mk X (Metadata.version data))))
                 (trace st))).
  - rewrite start_explicit. intros X data [Hin|[]]. discriminate Hin.
  - intros st0 st1 _ IH _ Htr X data Hin.
    destruct (transition_grows _ _ _ _ _ _ Htr) as ([more Hmore] & _).
    rewrite Hmore in Hin |- *. apply in_or_app. apply in_app_or in Hin.
    destruct Hin as [Hin|Hin]; [left; now apply IH|right].
    destruct (metadata_turn _ _ _ _ _ Htr Hmore Hin) as (_ & -> & _).
    right. now left.
Qed.

(** C10. A component whose metadata has no version is visited like any
    other, wherever the traversal meets it.  In every state of every run, for
    every service: the turn that receives the metadata of [X] sets its node
    and sends the reference query with the version of the response, absent or
    not; so every versionless response has its node and its query without a
    version.  When [getDependencies] gives up on [X], the turn adds nothing to
    the graph and settles no promise, and the visit goes on with no child;
    [getDependencies] never throws.  If no reference query for [X] is answered
    with a non-empty list, no edge leaves [X].  A rejected promise always
    comes from a metadata failure, never from a reference query; and the graph
    a run returns holds every component whose metadata was received. *)
Theorem versionless_component_is_a_leaf (rootId : string) (w : W) (st : State W) :
  reachable get post random rootId w st ->
  (forall st' more X data,
     step get post random st st' -> trace st' = trace st ++ more ->
     In (MetadataEvent (Received X (Resolved data))) more ->
     nodesMap st' =
       map_set X (Node.mk X (Metadata.name data) (Metadata.type data)) (nodesMap st) /\
     more = [MetadataEvent (Received X (Resolved data));
             ReferenceEvent (Sent (QueryBody.mk X (Metadata.version data)))]) /\
  (forall X data,
     In (MetadataEvent (Received X (Resolved data))) (trace st) ->
     Metadata.version data = None ->
     In X (keys st) /\ In (ReferenceEvent (Sent (QueryBody.mk X None))) (trace st)) /\
  (forall st' more X e,
     step get post random st st' -> trace st' = trace st ++ more ->
     In (ReferenceEvent (Printed (DependenciesError X e))) more ->
     nodesMap st' = nodesMap st /\ edges st' = edges st /\ settled st' = settled st /\
     exists p, In (mkTask p (AwaitAll X [])) (tasks st')) /\
  (forall X version w0,
     exists ids w1 tr,
       run post random (getDependencies X version) w0 = (Resolved ids, w1, tr) /\
       forall e w' tr',
         run post random (requestWithRetry (QueryBody.mk X version)) w0 =
           (Rejected e, w', tr') ->
         ids = [] /\ w1 = w' /\ tr = tr' ++ [Printed (DependenciesError X e)]) /\
  (forall X,
     (forall q data ids,
        In (ReferenceEvent (Received q (Resolved data))) (trace st) ->
        QueryBody.parentComponentId q = X -> flatten data = Some ids -> ids = []) ->
     forall e, In e (edges st) -> Edge.source e <> X) /\
  (forall p e, In (p, Rejected e) (settled st) -> metadata_failure (trace st) e) /\
  (forall nodes es X data,
     result st = Some (Resolved (nodes, es)) ->
     In (MetadataEvent (Received X (Resolved data))) (trace st) ->
     In X (map_keys nodes)).
Proof.
  intro Hr.
  pose proof (reachable_graph _ _ _ _ _ _ _ Hr) as (_ & _ & _ & Hres & _ & Hrec).
  assert (Hnode : forall X data,
             In (MetadataEvent (Received X (Resolved data))) (trace st) -> In X (keys st)).
  { intros X data Hin. apply Hres, in_resolved_ids. eauto. }
  split; [|split; [|split; [|split; [|split; [|split]]]]].
  - intros st' more X data Hs Hmore Hin.
    destruct (step_transition _ _ _ _ _ _ _ _ Hr Hs) as [_ Htr].
    destruct (metadata_turn _ _ _ _ _ Htr Hmore Hin) as (H1 & H2 & _). auto.
  - intros X data Hin Hv. split; [eapply Hnode; eauto|].
    rewrite <- Hv. now apply (reachable_expanded _ _ _ Hr).
  - intros st' more X e Hs Hmore Hin.
    destruct (step_transition _ _ _ _ _ _ _ _ Hr Hs) as [_ Htr].
    eapply reference_failure_turn; eauto.
  - intros X version w0. unfold getDependencies. rewrite run_try_catch, run_bind.
    destruct (run post random (requestWithRetry (QueryBody.mk X version)) w0)
      as [[[data|e0] w1] tr0].
    + destruct (flatten data) as [ids|]; cbn.
      * exists ids, w1, (tr0 ++ []). split; [reflexivity|]. intros e w' tr' [=].
      * exists [], w1, ((tr0 ++ []) ++ [Printed (DependenciesError X TypeError)]).
        split; [reflexivity|]. intros e w' tr' [=].
    + cbn. exists [], w1, (tr0 ++ [Printed (DependenciesError X e0)]).
      split; [reflexivity|]. intros e w' tr' [= <- <- <-]. auto.
  - intros X Hfail e He Hsrc. rewrite Hrec in He. apply in_recorded_inv in He.
    destruct He as (q & data & ids & Hin & Hf & Hd & Hq).
    rewrite (Hfail q data ids Hin) in Hd; [destruct Hd|congruence|exact Hf].
  - apply (reachable_rejections _ _ _ _ _ _ _ Hr).
  - intros nodes es X data Hresult Hin. apply result_fulfilled in Hresult.
    destruct Hresult as (_ & -> & _). eapply Hnode; eauto.
Qed.
End Versions.

Lemma bare_reachable :
  Fixed.reachable Bare.metadata Bare.references "R" Bare.final.
Proof.
  unfold Fixed.reachable, Bare.final, Fixed.run_first.
  apply run_first_reachable. constructor.
Qed.

Lemma bare_versionless :
  In (MetadataEvent (Received "V" (Resolved (Metadata.mk "Orphan" "Connector" None))))
     (trace Bare.final).
Proof. vm_compute. tauto. Qed.

Lemma bare_unanswered :
  forall q data ids,
    In (ReferenceEvent (Received q (Resolved data))) (trace Bare.final) ->
    QueryBody.parentComponentId q = "V" -> flatten data = Some ids -> ids = [].
Proof.
  intros q data ids Hin Hq _. vm_compute in Hin.
  repeat (destruct Hin as [Hin|Hin]; [try discriminate Hin|]); try contradiction.
  injection Hin as <- _. discriminate Hq.
Qed.

Lemma versionless_component_is_a_leaf_witness :
  Fixed.reachable Bare.metadata Bare.references "R" Bare.final /\
  (In "V" (keys Bare.final) /\
   In (ReferenceEvent (Sent (QueryBody.mk "V" None))) (trace Bare.final)) /\
  (forall e, In e (edges Bare.final) -> Edge.source e <> "V") /\
  In "V" (map_keys (nodesMap Bare.final)).
Proof.
  split; [exact bare_reachable|].
  destruct (versionless_component_is_a_leaf unit _ _ _ "R" tt Bare.final bare_reachable)
    as (_ & H2 & _ & _ & H5 & _ & H7).
  split; [exact (H2 "V" _ bare_versionless eq_refl)|split].
  - exact (H5 "V" bare_unanswered).
  - exact (H7 (nodesMap Bare.final) (edges Bare.final) "V" _ eq_refl bare_versionless).
Defined.
